(** * hhtsd: hook-based HTTP server daemon

    A shallow embedding of the parts of the daemon that its specification
    makes precise statements about:

    - [Collections]: the ring-buffer [Queue] and the intrusive doubly linked
      [LinkedList] of collections.js;
    - [Cache]: the [ResponseCache] (size-bounded LRU with absolute expiry);
    - [Hooks]: hook-name decoding, the [HookExecutor] chain and the
      [HookLoader] merge of lib-hook-async;
    - [Server]: response rendering ([__handleHookResponse]) and its cache
      insertion.

    Conventions.  JavaScript numbers are modelled by [JS.number]: an integer
    or [NaN] (the code under study only produces integers, or [NaN] from
    arithmetic on [undefined]); a value whose conversion to a number is
    neither has no number in the model, see [JS.to_number].  Strings are
    sequences of 8-bit characters and stand for their UTF-8 encoding, so
    that the byte length of a body is the length of its string.  Objects
    that the code mutates through references (the list items of the LRU)
    live in an explicit store indexed by locations. *)

From stdpp Require Import gmap strings list fin_maps.
From Stdlib Require Import ZArith Ascii.

Local Open Scope Z_scope.

(** ** JavaScript values *)

Module JS.

Inductive number := Num (z : Z) | NaN.

Definition add (a b : number) : number :=
  match a, b with Num x, Num y => Num (x + y) | _, _ => NaN end.
Definition sub (a b : number) : number :=
  match a, b with Num x, Num y => Num (x - y) | _, _ => NaN end.
Definition mul (a b : number) : number :=
  match a, b with Num x, Num y => Num (x * y) | _, _ => NaN end.
(** Comparisons with [NaN] are false. *)
Definition ltb (a b : number) : bool :=
  match a, b with Num x, Num y => x <? y | _, _ => false end.
Definition leb (a b : number) : bool :=
  match a, b with Num x, Num y => x <=? y | _, _ => false end.

(** The values that flow through hook arguments and response descriptors.
    [VBuffer] is a [Buffer] or [Uint8Array], [VStream] a [stream.Readable],
    [VError] an instance of [Error], [VObject] any other object (identified
    by a tag). *)
#[warnings="-register-all"]
Inductive value :=
| VUndefined
| VNull
| VBool (b : bool)
| VNumber (n : number)
| VString (s : string)
| VBuffer (bytes : string)
| VStream
| VError (message : string)
| VArray (elements : list value)
| VObject (tag : N).

(** ToBoolean *)
Definition truthy (v : value) : bool :=
  match v with
  | VUndefined | VNull => false
  | VBool b => b
  | VNumber (Num z) => negb (z =? 0)
  | VNumber NaN => false
  | VString s => negb (String.eqb s "")
  | _ => true
  end.

(** [v == null] *)
Definition loosely_null (v : value) : bool :=
  match v with VUndefined | VNull => true | _ => false end.

Inductive type_tag := TUndefined | TObject | TBoolean | TNumber | TString.

Definition typeof (v : value) : type_tag :=
  match v with
  | VUndefined => TUndefined
  | VBool _ => TBoolean
  | VNumber _ => TNumber
  | VString _ => TString
  | _ => TObject
  end.

Definition is_number (v : value) : bool :=
  match v with VNumber _ => true | _ => false end.
Definition is_string (v : value) : bool :=
  match v with VString _ => true | _ => false end.

(** ToInt32 on integers: wrap into [-2^31, 2^31). *)
Definition toInt32 (z : Z) : Z := (z + 2 ^ 31) mod 2 ^ 32 - 2 ^ 31.

(** The bitwise operators [&], [|], [^] and [<<] on integers. *)
Definition and32 (a b : Z) : Z := Z.land (toInt32 a) (toInt32 b).
Definition or32 (a b : Z) : Z := Z.lor (toInt32 a) (toInt32 b).
Definition xor32 (a b : Z) : Z := Z.lxor (toInt32 a) (toInt32 b).
Definition shl32 (a n : Z) : Z := toInt32 (Z.shiftl (toInt32 a) (n mod 32)).

(** *** ToNumber

    The numbers of the model are [NaN] and the integers; a conversion yields
    them for integers of magnitude at most [2 ^ 53], which a JavaScript
    number holds exactly. *)

Definition char_code (c : ascii) : Z := Z.of_N (N_of_ascii c).

(** The white space and line terminators that are ASCII characters: TAB, LF,
    VT, FF, CR and the space. *)
Definition is_white_space (c : ascii) : bool :=
  ((9 <=? char_code c) && (char_code c <=? 13)) || (char_code c =? 32).

Fixpoint trim_start (l : list ascii) : list ascii :=
  match l with
  | c :: l' => if is_white_space c then trim_start l' else l
  | [] => []
  end.

Definition trim (l : list ascii) : list ascii :=
  reverse (trim_start (reverse (trim_start l))).

(** The value of [c] as a digit of the radix, in either case. *)
Definition digit (radix : Z) (c : ascii) : option Z :=
  let n := char_code c in
  let d :=
    if (48 <=? n) && (n <=? 57) then n - 48
    else if (97 <=? n) && (n <=? 122) then n - 87
    else if (65 <=? n) && (n <=? 90) then n - 55
    else radix in
  if d <? radix then Some d else None.

Fixpoint digits_from (radix acc : Z) (l : list ascii) : option Z :=
  match l with
  | [] => Some acc
  | c :: l' =>
      match digit radix c with
      | Some d => digits_from radix (acc * radix + d) l'
      | None => None
      end
  end.

(** One or more digits, and nothing else. *)
Definition digits (radix : Z) (l : list ascii) : option Z :=
  match l with
  | [] => None
  | _ => digits_from radix 0 l
  end.

(** The longest prefix of decimal digits, and the rest. *)
Fixpoint span_digits (l : list ascii) : list ascii * list ascii :=
  match l with
  | c :: l' =>
      if (48 <=? char_code c) && (char_code c <=? 57)
      then let '(d, r) := span_digits l' in (c :: d, r)
      else ([], l)
  | [] => ([], [])
  end.

(** What a string denotes as a number: an integer of the model, a number
    that the model does not hold, or no number at all. *)
Inductive numeric := Integer (z : Z) | Unrepresented | NotNumeric.

Definition bounded (z : Z) : numeric :=
  if Z.abs z <=? 2 ^ 53 then Integer z else Unrepresented.

(** [m * 10 ^ k] for a mantissa [m] written with [len] digits.  A mantissa
    that is not 0 is at least 1 and below [10 ^ len]. *)
Definition scaled (m k : Z) (len : nat) : numeric :=
  if m =? 0 then Integer 0
  else if 0 <=? k then
    if k <=? 16 then bounded (m * 10 ^ k) else Unrepresented
  else if - k <=? Z.of_nat len then
    if m mod 10 ^ (- k) =? 0 then bounded (m / 10 ^ (- k)) else Unrepresented
  else Unrepresented.

(** [ExponentPart], when there is one: [e] or [E], a sign, digits. *)
Definition exponent (l : list ascii) : option Z :=
  match l with
  | [] => Some 0
  | e :: l' =>
      if (char_code e =? 101) || (char_code e =? 69) then
        match l' with
        | "+"%char :: ds => digits 10 ds
        | "-"%char :: ds => Z.opp <$> digits 10 ds
        | _ => digits 10 l'
        end
      else None
  end.

(** [StrUnsignedDecimalLiteral]: [Infinity], or digits with an optional
    fraction and exponent; one of the two groups of digits may be empty. *)
Definition unsigned_decimal (l : list ascii) : numeric :=
  if decide (l = String.list_ascii_of_string "Infinity") then Unrepresented
  else
    let '(int, r) := span_digits l in
    let '(frac, r) :=
      match r with
      | "."%char :: r' => span_digits r'
      | _ => ([], r)
      end in
    match int ++ frac with
    | [] => NotNumeric
    | ds =>
        match digits_from 10 0 ds, exponent r with
        | Some m, Some e => scaled m (e - Z.of_nat (length frac)) (length ds)
        | _, _ => NotNumeric
        end
    end.

Definition negated (n : numeric) : numeric :=
  match n with Integer z => Integer (- z) | _ => n end.

(** [StringToNumber], for strings of ASCII characters: white space is
    trimmed, the empty string is 0, a literal with the prefix [0x], [0o] or
    [0b] (in either case, unsigned) is read in its radix, any other string
    as a signed decimal literal.  A string with a character outside ASCII is
    left out, since such a character may be white space. *)
Definition StringToNumber (s : string) : numeric :=
  let l := String.list_ascii_of_string s in
  if forallb (λ c, char_code c <? 128) l then
    match trim l with
    | [] => Integer 0
    | "0"%char :: x :: ds =>
        let radix :=
          match x with
          | "x" | "X" => 16
          | "o" | "O" => 8
          | "b" | "B" => 2
          | _ => 0
          end%char in
        if radix =? 0 then unsigned_decimal ("0"%char :: x :: ds)
        else match digits radix ds with
             | Some z => bounded z
             | None => NotNumeric
             end
    | "+"%char :: l' => unsigned_decimal l'
    | "-"%char :: l' => negated (unsigned_decimal l')
    | l' => unsigned_decimal l'
    end
  else Unrepresented.

(** ToNumber.  [None] is a value whose conversion the model does not hold:
    a string that denotes a fraction, an integer above [2 ^ 53] or an
    infinity, or that has a character outside ASCII, and every object (an
    object converts through its own [valueOf] and [toString]). *)
Definition to_number (v : value) : option number :=
  match v with
  | VUndefined => Some NaN
  | VNull => Some (Num 0)
  | VBool b => Some (Num (if b then 1 else 0))
  | VNumber n => Some n
  | VString s =>
      match StringToNumber s with
      | Integer z => Some (Num z)
      | NotNumeric => Some NaN
      | Unrepresented => None
      end
  | VBuffer _ | VStream | VError _ | VArray _ | VObject _ => None
  end.

(** [a == b] when [b] is a string. *)
Definition loose_eq_string (a : value) (b : string) : bool :=
  match a with
  | VString s => String.eqb s b
  | _ => false
  end.

End JS.

(** ** collections.js: Queue *)

Module Queue.

Section Queue.
Context {A : Type}.

(** A JavaScript array with holes; reading a hole gives [undefined]. *)
Definition jsarray := list (option A).

(** [buf[i] = x]: an index past the end extends the array with holes. *)
Definition array_set (buf : jsarray) (i : nat) (x : A) : jsarray :=
  if decide (i < length buf)%nat then <[i := Some x]> buf
  else buf ++ replicate (i - length buf) None ++ [Some x].

(** [buf[i]] *)
Definition array_get (buf : jsarray) (i : nat) : option A :=
  default None (buf !! i).

(** [buf.copyWithin(target, start, end)] for non-negative arguments: the
    copy never writes past the current length of the array. *)
Definition copyWithin (buf : jsarray) (target start end_ : nat) : jsarray :=
  let len := length buf in
  let to := Nat.min target len in
  let from := Nat.min start len in
  let final := Nat.min end_ len in
  let count := Nat.min (final - from) (len - to) in
  take to buf ++ take count (drop from buf) ++ drop (to + count) buf.

Record Queue := mkQueue {
  capacity : Z;
  _buffer : jsarray;
  _head : Z;
  _tail : Z
}.

(** [new Queue(size)] *)
Definition new_Queue (size : Z) : Queue :=
  let size := if size <=? 0 then 10 else size in
  {| capacity := size;
     _buffer := replicate (Z.to_nat size) None;
     _head := 0;
     _tail := 0 |}.

(** [this.head]: a queue object has no property of that name (the field is
    [_head]), so the read yields [undefined], whose numeric value is NaN. *)
Definition head_property (q : Queue) : JS.number := JS.NaN.

Definition __length (q : Queue) : JS.number :=
  let value := JS.sub (JS.Num (_tail q)) (head_property q) in
  if JS.ltb value (JS.Num 0) then JS.add value (JS.Num (capacity q))
  else value.

Definition __extend (q : Queue) : Queue :=
  let nc := capacity q * 2 in
  let q1 :=
    if _tail q <? _head q then
      let buf :=
        if 0 <? _tail q
        then copyWithin (_buffer q) (Z.to_nat (capacity q)) 0 (Z.to_nat (_tail q))
        else _buffer q in
      {| capacity := capacity q; _buffer := buf; _head := _head q;
         _tail := _tail q + capacity q |}
    else q in
  {| capacity := nc; _buffer := _buffer q1; _head := _head q1;
     _tail := _tail q1 |}.

Definition add (q : Queue) (item : A) : Queue :=
  let q1 :=
    if JS.leb (JS.sub (__length q) (JS.Num (capacity q))) (JS.Num 0)
    then __extend q else q in
  {| capacity := capacity q1;
     _buffer := array_set (_buffer q1) (Z.to_nat (_tail q1)) item;
     _head := _head q1;
     _tail := Z.rem (_tail q1 + 1) (capacity q1) |}.

(** [fetch] returns the item ([None] is [undefined]) and the new queue. *)
Definition fetch (q : Queue) : option A * Queue :=
  if decide (_head q ≠ _tail q) then
    (array_get (_buffer q) (Z.to_nat (_head q)),
     {| capacity := capacity q; _buffer := _buffer q;
        _head := Z.rem (_head q + 1) (capacity q); _tail := _tail q |})
  else (None, q).

(** *** Runs of operations *)

(** What a client does with a queue. *)
Inductive op := Add (x : A) | Fetch.

(** The results of the [fetch] calls of a run of operations on [q], in
    order. *)
Fixpoint run (ops : list op) (q : Queue) : list (option A) :=
  match ops with
  | [] => []
  | Add x :: ops => run ops (add q x)
  | Fetch :: ops => let '(r, q) := fetch q in r :: run ops q
  end.

(** The results of the same run on a first-in-first-out list of pending
    items. *)
Fixpoint run_fifo (ops : list op) (pending : list A) : list (option A) :=
  match ops with
  | [] => []
  | Add x :: ops => run_fifo ops (pending ++ [x])
  | Fetch :: ops =>
      match pending with
      | [] => None :: run_fifo ops []
      | x :: pending => Some x :: run_fifo ops pending
      end
  end.

(** Throughout the run, starting with [pending] items, fewer than [n] items
    are pending. *)
Fixpoint below (n : nat) (ops : list op) (pending : nat) : bool :=
  match ops with
  | [] => true
  | Add _ :: ops => (S pending <? n)%nat && below n ops (S pending)
  | Fetch :: ops => below n ops (pred pending)
  end.

(** The pending items after a run on a first-in-first-out list. *)
Fixpoint fifo_after (ops : list op) (pending : list A) : list A :=
  match ops with
  | [] => pending
  | Add x :: ops => fifo_after ops (pending ++ [x])
  | Fetch :: ops => fifo_after ops (tail pending)
  end.

(** [holds q l]: the pending items of [q] are [l], oldest first; they occupy
    the slots from [_head] up to [_tail], around the end of the buffer. *)
Definition holds (q : Queue) (l : list A) : Prop :=
  0 < capacity q
  ∧ 0 ≤ _head q < capacity q
  ∧ _tail q = (_head q + Z.of_nat (length l)) `mod` capacity q
  ∧ Z.of_nat (length l) < capacity q
  ∧ ∀ (i : nat) x, l !! i = Some x →
      array_get (_buffer q)
        (Z.to_nat ((_head q + Z.of_nat i) `mod` capacity q)) = Some x.

End Queue.

Arguments Queue : clear implicits.
Arguments jsarray : clear implicits.
Arguments op : clear implicits.

End Queue.

(** ** collections.js: LinkedList *)

Module LinkedList.

(** List items are objects reached through references; [loc] names them and
    [store] holds their current fields. *)
Abbreviation loc := positive.

Record LinkedListItem := mkItem {
  value : string;
  prev : option loc;
  next : option loc
}.

Abbreviation store := (gmap positive LinkedListItem).

Record LinkedList := mkList {
  _head : option loc;
  _tail : option loc
}.

Definition new_LinkedList : LinkedList := {| _head := None; _tail := None |}.

Definition set_prev (p : option loc) (it : LinkedListItem) : LinkedListItem :=
  {| value := value it; prev := p; next := next it |}.
Definition set_next (n : option loc) (it : LinkedListItem) : LinkedListItem :=
  {| value := value it; prev := prev it; next := n |}.
Definition unlink (it : LinkedListItem) : LinkedListItem :=
  {| value := value it; prev := None; next := None |}.

(** Field reads through a reference. *)
Definition get_prev (h : store) (i : loc) : option loc := h !! i ≫= prev.
Definition get_next (h : store) (i : loc) : option loc := h !! i ≫= next.

(** [head()] *)
Definition head (l : LinkedList) : option loc := _head l.

(** [tail()]: [this._tail || this._head] *)
Definition tail (l : LinkedList) : option loc :=
  match _tail l with Some t => Some t | None => _head l end.

(** The argument of [insert]: an existing [LinkedListItem], or any other
    value, for which a new item is allocated. *)
Inductive insert_arg := Item (i : loc) | Value (v : string).

(** The item that [insert] and [append] link: the argument itself with its
    links cleared when it is a [LinkedListItem], a new item otherwise. *)
Definition as_item (h : store) (v : insert_arg) : store * loc :=
  match v with
  | Item i => (alter unlink i h, i)
  | Value s =>
      let i := fresh (dom h) in
      (<[i := {| value := s; prev := None; next := None |}]> h, i)
  end.

(** The linking step of [insert]. *)
Definition link_first (h : store) (l : LinkedList) (item : loc)
  : store * LinkedList * loc :=
  match _head l with
  | None => (h, {| _head := Some item; _tail := _tail l |}, item)
  | Some hd =>
      let h := alter (set_prev (Some item)) hd h in
      let h := alter (set_next (Some hd)) item h in
      let tl := match _tail l with None => Some hd | Some t => Some t end in
      (h, {| _head := Some item; _tail := tl |}, item)
  end.

(** [insert(value)]: link as first item; returns the item. *)
Definition insert (h : store) (l : LinkedList) (v : insert_arg)
  : store * LinkedList * loc :=
  let '(h, item) := as_item h v in link_first h l item.

(** The linking step of [append]. *)
Definition link_last (h : store) (l : LinkedList) (item : loc)
  : store * LinkedList * loc :=
  match _tail l with
  | None =>
      match _head l with
      | Some hd =>
          let h := alter (set_next (Some item)) hd h in
          let h := alter (set_prev (Some hd)) item h in
          (h, {| _head := _head l; _tail := Some item |}, item)
      | None => (h, {| _head := Some item; _tail := _tail l |}, item)
      end
  | Some tl =>
      let h := alter (set_next (Some item)) tl h in
      let h := alter (set_prev (Some tl)) item h in
      (h, {| _head := _head l; _tail := Some item |}, item)
  end.

(** [append(value)]: link as last item; returns the item. *)
Definition append (h : store) (l : LinkedList) (v : insert_arg)
  : store * LinkedList * loc :=
  let '(h, item) := as_item h v in link_last h l item.

(** [remove(item)] for an argument that is a [LinkedListItem] (the only use
    in this code base); the boolean result is not modelled. *)
Definition remove (h : store) (l : LinkedList) (item : loc)
  : store * LinkedList :=
  let h :=
    match get_prev h item with
    | Some p => alter (set_next (get_next h item)) p h
    | None => h
    end in
  let h :=
    match get_next h item with
    | Some n => alter (set_prev (get_prev h item)) n h
    | None => h
    end in
  let l :=
    if decide (_tail l = Some item) then
      let t := get_prev h item in
      {| _head := _head l;
         _tail := if decide (t = _head l) then None else t |}
    else l in
  let l :=
    if decide (_head l = Some item) then
      let hd := get_next h item in
      {| _head := hd;
         _tail := if decide (_tail l = hd) then None else _tail l |}
    else l in
  (alter unlink item h, l).

(** The items reachable from [cur] along [next], at most [fuel] of them. *)
Fixpoint walk (fuel : nat) (h : store) (cur : option loc) : list loc :=
  match fuel, cur with
  | S fuel, Some a =>
      match h !! a with
      | Some it => a :: walk fuel h (next it)
      | None => []
      end
  | _, _ => []
  end.

(** The list, first item first. *)
Definition to_list (h : store) (l : LinkedList) : list loc :=
  walk (size h) h (_head l).

(** The items reachable from [cur] along [prev], at most [fuel] of them. *)
Fixpoint walk_back (fuel : nat) (h : store) (cur : option loc) : list loc :=
  match fuel, cur with
  | S fuel, Some a =>
      match h !! a with
      | Some it => a :: walk_back fuel h (prev it)
      | None => []
      end
  | _, _ => []
  end.

(** *** Runs of operations *)

(** What a client does with a list: insert or append a new value, remove
    the item at a position, or move it to the front or to the back by
    removing it and linking the same item again (as the cache does on a
    hit).  A position past the end names no item, and nothing happens. *)
Inductive op :=
| Insert (v : string)
| Append (v : string)
| Remove (n : nat)
| ToFront (n : nat)
| ToBack (n : nat).

Definition step (st : store * LinkedList) (o : op) : store * LinkedList :=
  let '(h, ll) := st in
  match o with
  | Insert v => (insert h ll (Value v)).1
  | Append v => (append h ll (Value v)).1
  | Remove n =>
      match to_list h ll !! n with
      | Some i => remove h ll i
      | None => (h, ll)
      end
  | ToFront n =>
      match to_list h ll !! n with
      | Some i => let '(h, ll) := remove h ll i in (insert h ll (Item i)).1
      | None => (h, ll)
      end
  | ToBack n =>
      match to_list h ll !! n with
      | Some i => let '(h, ll) := remove h ll i in (append h ll (Item i)).1
      | None => (h, ll)
      end
  end.

(** The same operation on a plain list of values. *)
Definition step_list (l : list string) (o : op) : list string :=
  match o with
  | Insert v => v :: l
  | Append v => l ++ [v]
  | Remove n => delete n l
  | ToFront n =>
      match l !! n with Some v => v :: delete n l | None => l end
  | ToBack n =>
      match l !! n with Some v => delete n l ++ [v] | None => l end
  end.

(** The values of the items [l]. *)
Definition values_of (h : store) (l : list loc) : list string :=
  omap (λ a, value <$> h !! a) l.

(** The values read from [head()] along [next], and from [tail()] along
    [prev]. *)
Definition values (st : store * LinkedList) : list string :=
  values_of st.1 (walk (size st.1) st.1 (head st.2)).
Definition values_back (st : store * LinkedList) : list string :=
  values_of st.1 (walk_back (size st.1) st.1 (tail st.2)).

(** *** Representation invariant *)

Definition hd_or (l : list loc) (n : option loc) : option loc :=
  match l with [] => n | a :: _ => Some a end.
Definition last_or (p : option loc) (l : list loc) : option loc :=
  match last l with Some a => Some a | None => p end.

(** [seg h p l n]: the items [l] are linked in this order, the first one
    pointing back to [p] and the last one forward to [n]. *)
Fixpoint seg (h : store) (p : option loc) (l : list loc) (n : option loc)
  : Prop :=
  match l with
  | [] => True
  | a :: l' =>
      (∃ it, h !! a = Some it ∧ prev it = p ∧ next it = hd_or l' n)
      ∧ seg h (Some a) l' n
  end.

(** [_tail] is only set once the list has two items: a list of one item
    keeps it in [_head] alone. *)
Definition shape_tail (l : list loc) : option loc :=
  match l with _ :: _ :: _ => last l | _ => None end.

(** [Rep h ll l]: the list object [ll] holds exactly the items [l]. *)
Definition Rep (h : store) (ll : LinkedList) (l : list loc) : Prop :=
  NoDup l
  ∧ seg h None l None
  ∧ _head ll = hd_or l None
  ∧ _tail ll = shape_tail l.

End LinkedList.

(** ** ResponseCache *)

Module Item.
Section Item.
Context {D : Type}.

Record ResponseCacheItem := mk {
  data : D;
  size : Z;
  id : string;
  expire : JS.number;
  link : LinkedList.loc
}.

Definition set_expire (e : JS.number) (x : ResponseCacheItem) :=
  {| data := data x; size := size x; id := id x; expire := e;
     link := link x |}.

End Item.
Arguments ResponseCacheItem : clear implicits.
End Item.

Module Cache.
Import LinkedList.

Section Cache.
Context {D : Type}.

Abbreviation ResponseCacheItem := (Item.ResponseCacheItem D).

(** The cache object; [items] is the store of the list items of [_lru].
    [_map] is a plain object used as a dictionary: the keys that reach it
    are [host$url] strings, which never collide with inherited property
    names that could hold a [ResponseCacheItem]. *)
Record ResponseCache := mkCache {
  size : Z;
  sizeLimit : Z;
  _map : gmap string ResponseCacheItem;
  items : store;
  _lru : LinkedList
}.

(** [new ResponseCache(limit)] *)
Definition new_ResponseCache (limit : Z) : ResponseCache :=
  {| size := 0; sizeLimit := limit; _map := ∅; items := ∅;
     _lru := new_LinkedList |}.

(** [retv(id)] at time [now = Date.now()]; [None] is [undefined]. *)
Definition retv (now : Z) (c : ResponseCache) (id : string)
  : option D * ResponseCache :=
  match _map c !! id with
  | Some x =>
      if JS.ltb (Item.expire x) (JS.Num now) then
        let '(h, l) := remove (items c) (_lru c) (Item.link x) in
        (None,
         {| size := size c - Item.size x; sizeLimit := sizeLimit c;
            _map := delete id (_map c); items := h; _lru := l |})
      else
        let '(h, l) := remove (items c) (_lru c) (Item.link x) in
        let '(h, l, _) := insert h l (Item (Item.link x)) in
        (Some (Item.data x),
         {| size := size c; sizeLimit := sizeLimit c; _map := _map c;
            items := h; _lru := l |})
  | None => (None, c)
  end.

(** First half of [stor]: update the entry of [id], or create and link it. *)
Definition stor_update (c : ResponseCache) (id : string) (data : D)
    (sz : Z) (expires : JS.number) : ResponseCache :=
  match _map c !! id with
  | Some x =>
      let x' := {| Item.data := data; Item.size := sz; Item.id := Item.id x;
                   Item.expire := expires; Item.link := Item.link x |} in
      {| size := size c + (sz - Item.size x); sizeLimit := sizeLimit c;
         _map := <[id := x']> (_map c); items := items c; _lru := _lru c |}
  | None =>
      let '(h, l, lk) := insert (items c) (_lru c) (Value id) in
      let x := {| Item.data := data; Item.size := sz; Item.id := id;
                  Item.expire := expires; Item.link := lk |} in
      {| size := size c + sz; sizeLimit := sizeLimit c;
         _map := <[id := x]> (_map c); items := h; _lru := l |}
  end.

(** The eviction loop of [stor]: [while (this.size > this.sizeLimit)].
    [None] when [fuel] iterations did not reach the exit. *)
Fixpoint stor_evict (fuel : nat) (c : ResponseCache) : option ResponseCache :=
  if sizeLimit c <? size c then
    match fuel with
    | O => None
    | S fuel =>
        match tail (_lru c) with
        | Some i =>
            match items c !! i with
            | Some it =>
                let c1 :=
                  match _map c !! value it with
                  | Some x =>
                      {| size := size c - Item.size x;
                         sizeLimit := sizeLimit c;
                         _map := delete (value it) (_map c);
                         items := items c; _lru := _lru c |}
                  | None => c
                  end in
                let '(h, l) := remove (items c1) (_lru c1) i in
                stor_evict fuel
                  {| size := size c1; sizeLimit := sizeLimit c1;
                     _map := _map c1; items := h; _lru := l |}
            | None => None
            end
        | None => Some c
        end
    end
  else Some c.

(** [stor(id, data, size, expires)] *)
Definition stor (fuel : nat) (c : ResponseCache) (id : string) (data : D)
    (sz : Z) (expires : JS.number) : option ResponseCache :=
  let c := stor_update c id data sz expires in
  if 0 <? sizeLimit c then stor_evict fuel c else Some c.

(** The keys in LRU order, most recently used first. *)
Definition lru_keys (c : ResponseCache) : list string :=
  omap (λ a, value <$> items c !! a) (to_list (items c) (_lru c)).

(** Sum of the sizes of the stored entries. *)
Definition total_size (m : gmap string ResponseCacheItem) : Z :=
  map_fold (λ _ x acc, Item.size x + acc) 0 m.

(** The same cache with every expiry time replaced: entry [x] expires at
    [g x]. *)
Definition restamp (g : ResponseCacheItem → JS.number) (c : ResponseCache)
  : ResponseCache :=
  {| size := size c; sizeLimit := sizeLimit c;
     _map := (λ x, Item.set_expire (g x) x) <$> _map c;
     items := items c; _lru := _lru c |}.

(** The caches that a server with size limit [limit] can hold.  The server
    creates its cache in its constructor and sets [sizeLimit] from its
    configuration there, while the cache is empty; afterwards only [stor]
    and [retv] touch it. *)
Inductive reachable (limit : Z) : ResponseCache → Prop :=
| reach_new : reachable limit (new_ResponseCache limit)
| reach_stor c fuel id d sz e c' :
    reachable limit c → stor fuel c id d sz e = Some c' →
    reachable limit c'
| reach_retv c now id :
    reachable limit c → reachable limit (retv now c id).2.

(** The keys stored in the items [l]. *)
Definition keys_of (h : store) (l : list loc) : list string :=
  omap (λ a, value <$> h !! a) l.

(** Well-formedness: the LRU list holds the items [l], the list and the map
    hold the same keys, linked both ways, and [size] is the sum of the entry
    sizes. *)
Definition wf_with (c : ResponseCache) (l : list loc) : Prop :=
  Rep (items c) (_lru c) l
  ∧ (∀ k x, _map c !! k = Some x →
       Item.link x ∈ l ∧ value <$> items c !! Item.link x = Some k)
  ∧ (∀ a, a ∈ l → ∃ it x, items c !! a = Some it
       ∧ _map c !! value it = Some x ∧ Item.link x = a)
  ∧ size c = total_size (_map c).

Definition wf (c : ResponseCache) : Prop := ∃ l, wf_with c l.

End Cache.
Arguments ResponseCache : clear implicits.
End Cache.

(** ** lib-hook-async *)

Module Hooks.

(** *** Names of hook functions *)

Definition charCode (c : ascii) : Z := Z.of_N (N_of_ascii c).

Definition upper_char (c : ascii) : ascii :=
  if (97 <=? charCode c) && (charCode c <=? 122)
  then ascii_of_N (N_of_ascii c - 32) else c.

(** [toUpperCase] on 8-bit characters whose upper case is one character. *)
Fixpoint toUpperCase (s : string) : string :=
  match s with
  | EmptyString => EmptyString
  | String c s => String (upper_char c) (toUpperCase s)
  end.

(** [[ASEase]] *)
Definition is_policy_letter (c : ascii) : bool :=
  match c with
  | "A" | "S" | "E" | "a" | "s" | "e" => true
  | _ => false
  end%char.

(** [[A-Za-z]] *)
Definition is_letter (c : ascii) : bool :=
  ((65 <=? charCode c) && (charCode c <=? 90))
  || ((97 <=? charCode c) && (charCode c <=? 122)).

(** [.] matches every character but a line terminator. *)
Definition is_line_terminator (c : ascii) : bool :=
  (charCode c =? 10) || (charCode c =? 13).

(** [[A-Za-z]+] is greedy: the longest prefix of letters, and the rest. *)
Fixpoint span_letters (s : string) : string * string :=
  match s with
  | String c s' =>
      if is_letter c
      then let '(l, r) := span_letters s' in (String c l, r)
      else (EmptyString, s)
  | EmptyString => (EmptyString, EmptyString)
  end.

(** The last group, any characters: up to the first line terminator. *)
Fixpoint take_line (s : string) : string :=
  match s with
  | String c s' =>
      if is_line_terminator c then EmptyString else String c (take_line s')
  | EmptyString => EmptyString
  end.

(** The groups [m[1]], [m[2]], [m[3]] of a match; [m[2]] is [undefined]
    when the optional group did not take part. *)
Record regex_match := mkMatch {
  m1 : ascii;
  m2 : option string;
  m3 : string
}.

(** [HOOK_FUNC_REGEX_V2] matched at the start of [s]: [h], a policy letter,
    optionally one or more letters, [_], then any characters.  After the
    letters of group 2 only [_] can follow, so no shorter choice for the
    group can succeed where the longest fails. *)
Definition match_here (s : string) : option regex_match :=
  match s with
  | String "h" (String p rest) =>
      if is_policy_letter p then
        let '(cats, rest') := span_letters rest in
        match rest' with
        | String "_" name =>
            Some {| m1 := p;
                    m2 := if String.eqb cats "" then None else Some cats;
                    m3 := take_line name |}
        | _ => None
        end
      else None
  | _ => None
  end.

(** [HOOK_FUNC_REGEX_V2.exec(s)]: the leftmost match; the expression is not
    anchored. *)
Fixpoint HOOK_FUNC_REGEX_V2_exec (s : string) : option regex_match :=
  match match_here s with
  | Some m => Some m
  | None =>
      match s with
      | String _ s' => HOOK_FUNC_REGEX_V2_exec s'
      | EmptyString => None
      end
  end.

(** [decodeCategory(letter)]; [None] is a non-string argument. *)
Fixpoint decodeCategory_loop (letter : string) (cat : Z) : Z :=
  match letter with
  | String c rest =>
      let cat :=
        if (65 <=? charCode c) && (charCode c <=? 90)
        then JS.or32 cat (JS.shl32 1 (charCode c - 65)) else cat in
      decodeCategory_loop rest cat
  | EmptyString => cat
  end.

Definition decodeCategory (letter : option string) : Z :=
  match letter with
  | Some letter => decodeCategory_loop (toUpperCase letter) 0
  | None => JS.or32 (-1) 0
  end.

(** *** Hook functions *)

(** What a module exports under a name: a callable with the [priority]
    property it declares ([VUndefined] when it declares none), or some other
    value.  The behaviour of a callable is a function of [this._lastResult]
    and of its arguments. *)
Record callable := mkCallable {
  declared_priority : JS.value;
  code : JS.value → list JS.value → JS.value
}.

Inductive export := ExCallable (f : callable) | ExValue (v : JS.value).

(** A callable decorated by the loader. *)
Record HookFunc := mkHook {
  priority : JS.value;
  src : string;
  type : string;
  cat : Z;
  execPolicy : Z;
  fn : callable
}.

Inductive export_tag := TgFunction | TgNumber | TgOther.

(** [typeof mod[i]] *)
Definition typeof_export (e : export) : export_tag :=
  match e with
  | ExCallable _ => TgFunction
  | ExValue (JS.VNumber _) => TgNumber
  | ExValue _ => TgOther
  end.

Definition export_tag_eqb (a b : export_tag) : bool :=
  match a, b with
  | TgFunction, TgFunction | TgNumber, TgNumber | TgOther, TgOther => true
  | _, _ => false
  end.

(** [mod.priority] *)
Definition module_priority (mod_ : list (string * export)) : export :=
  match List.find (λ e, String.eqb (fst e) "priority") mod_ with
  | Some (_, e) => e
  | None => ExValue JS.VUndefined
  end.

(** The loop body of [__getHooksFromModule] for the export [i]. *)
Definition hook_of_export (sign : string) (prio : JS.number)
    (i : string) (e : export) : option HookFunc :=
  match HOOK_FUNC_REGEX_V2_exec i, e with
  | Some m, ExCallable f =>
      let priority :=
        if negb (export_tag_eqb (typeof_export e) TgNumber)
        then JS.VNumber prio else declared_priority f in
      let m1 := upper_char (m1 m) in
      Some {| priority := priority;
              src := sign;
              type := m3 m;
              cat := decodeCategory (m2 m);
              execPolicy :=
                if Ascii.eqb m1 "S" then 0
                else if Ascii.eqb m1 "E" then 1 else 2;
              fn := f |}
  | _, _ => None
  end.

(** [__getHooksFromModule(filepath)] for an absolute path, where [sign] is
    the basename of the path and [mod_] what [require] returns, [None] when
    it throws.  (The method resolves the path against [this._baseDir], a
    field that the loader does not have; [path.resolve] skips it when the
    path is absolute.)  The loader writes [priority], [src], [type], [cat]
    and [execPolicy] onto the exported function object itself; a module is
    taken to export each function object under one name, so every export
    has a record of its own. *)
Definition __getHooksFromModule (sign : string)
    (mod_ : option (list (string * export))) : list HookFunc :=
  match mod_ with
  | Some mod_ =>
      let prio :=
        match module_priority mod_ with
        | ExValue (JS.VNumber n) => n
        | _ => JS.Num 0
        end in
      omap (λ e, hook_of_export sign prio (fst e) (snd e)) mod_
  | None => []
  end.

(** *** HookExecutor *)

(** [hooks.sort((a, b) => a.priority - b.priority)], as the stable sort of
    the language standard; a [NaN] difference counts as equal.  The loader
    gives every function a number as priority; a difference of priorities
    that the model does not hold is not taken as positive. *)
Definition priority_gtb (a b : HookFunc) : bool :=
  match JS.to_number (priority a), JS.to_number (priority b) with
  | Some x, Some y => JS.ltb (JS.Num 0) (JS.sub x y)
  | _, _ => false
  end.

Fixpoint sort_insert (x : HookFunc) (l : list HookFunc) : list HookFunc :=
  match l with
  | [] => [x]
  | y :: l' => if priority_gtb y x then x :: l else y :: sort_insert x l'
  end.

Definition sort (l : list HookFunc) : list HookFunc :=
  foldl (λ acc x, sort_insert x acc) [] l.

Fixpoint findIndex {A} (f : A → bool) (l : list A) : option nat :=
  match l with
  | [] => None
  | x :: l' => if f x then Some 0%nat else S <$> findIndex f l'
  end.

Definition setHook (hooks : list HookFunc) (hookfunc : HookFunc)
  : list HookFunc :=
  let index :=
    findIndex (λ hook, String.eqb (src hook) (src hookfunc)
                       && String.eqb (type hook) (type hook)) hooks in
  let hooks :=
    match index with
    | Some i => <[i := hookfunc]> hooks
    | None => hooks ++ [hookfunc]
    end in
  sort hooks.

(** [this.hooks.src]: the array of hooks has no property [src]. *)
Definition array_src (hooks : list HookFunc) : JS.value := JS.VUndefined.

(** The loop of [delHooks]: [kept] are the elements before index [i], [rest]
    those from [i] on; the test reads the array, not its element. *)
Fixpoint delHooks_loop (signature : string) (kept rest : list HookFunc)
  : list HookFunc :=
  match rest with
  | [] => kept
  | hook :: rest' =>
      if JS.loose_eq_string (array_src (kept ++ rest)) signature
      then delHooks_loop signature kept rest'
      else delHooks_loop signature (kept ++ [hook]) rest'
  end.

Definition delHooks (hooks : list HookFunc) (signature : string)
  : list HookFunc :=
  delHooks_loop signature [] hooks.

Definition inclusiveMatchFunc (cat catMask : Z) : JS.value :=
  JS.VNumber (JS.Num (JS.and32 cat catMask)).

Definition strictMatchFunc (cat catMask : Z) : JS.value :=
  JS.VBool (JS.xor32 cat catMask =? 0).

(** [context.callback]: the no-op [dummy], or the continuation that [call]
    installs before it runs an asynchronous function; the continuation keeps
    the [catMask] and [args] of the call that created it. *)
Inductive Callback := dummy | resume (catMask : Z) (args : JS.value).

(** [context._compareFunc] holds one of the two match functions. *)
Inductive CompareFunc := inclusive | strict.

Definition compare (f : CompareFunc) : Z → Z → JS.value :=
  match f with
  | inclusive => inclusiveMatchFunc
  | strict => strictMatchFunc
  end.

Record Context := mkContext {
  _lastResult : JS.value;
  callback : Callback;
  _nextHook : nat;
  _compareFunc : CompareFunc
}.

Definition createContext (initialValue : JS.value) : Context :=
  {| _lastResult := initialValue; callback := dummy; _nextHook := 0;
     _compareFunc := inclusive |}.

(** One application of a hook function: its position in the chain, the
    [_lastResult] it could read and the arguments it received. *)
Record Invocation := mkInv {
  inv_index : nat;
  inv_lastResult : JS.value;
  inv_args : list JS.value
}.

(** The argument list that [f.apply(thisArg, args)] builds: [undefined] and
    [null] give no arguments, an array its elements, a buffer its bytes, any
    other object is read through its [length], which the objects of this
    model do not have; a primitive is a [TypeError] ([None]). *)
Definition apply_args (args : JS.value) : option (list JS.value) :=
  match args with
  | JS.VArray l => Some l
  | JS.VBuffer b =>
      Some ((λ c, JS.VNumber (JS.Num (charCode c))) <$> String.list_ascii_of_string b)
  | JS.VUndefined | JS.VNull => Some []
  | JS.VStream | JS.VError _ | JS.VObject _ => Some []
  | JS.VBool _ | JS.VNumber _ | JS.VString _ => None
  end.

(** The elements that [...args] spreads; a value that is not iterable is a
    [TypeError] ([None]). *)
Definition spread (args : JS.value) : option (list JS.value) :=
  match args with
  | JS.VArray l => Some l
  | JS.VString s =>
      Some ((λ c, JS.VString (String c EmptyString)) <$> String.list_ascii_of_string s)
  | JS.VBuffer b =>
      Some ((λ c, JS.VNumber (JS.Num (charCode c))) <$> String.list_ascii_of_string b)
  | _ => None
  end.

(** How a run of the chain ends: [Finished] schedules the caller's callback
    with [_lastResult] on the next tick; [Suspended] has started an
    asynchronous function and returned; [Threw] is an uncaught [TypeError]. *)
Inductive Outcome :=
| Finished (ctx : Context) (trace : list Invocation)
| Suspended (ctx : Context) (trace : list Invocation)
| Threw (trace : list Invocation).

Definition set_lastResult (v : JS.value) (ctx : Context) : Context :=
  {| _lastResult := v; callback := callback ctx; _nextHook := _nextHook ctx;
     _compareFunc := _compareFunc ctx |}.

(** The loop of [HookExecutor.call] from index [i], [hooks] being the chain
    from that index on. *)
Fixpoint call_loop (hooks : list HookFunc) (i : nat) (catMask : Z)
    (context : Context) (args : JS.value) (trace : list Invocation)
  : Outcome :=
  match hooks with
  | [] => Finished context trace
  | hook :: rest =>
      if JS.truthy (compare (_compareFunc context) (cat hook) catMask) then
        match execPolicy hook with
        | 0 =>
            match apply_args args with
            | Some l =>
                let r := code (fn hook) (_lastResult context) l in
                call_loop rest (S i) catMask (set_lastResult r context) args
                  (trace ++ [mkInv i (_lastResult context) l])
            | None => Threw trace
            end
        | 1 =>
            let lr := _lastResult context in
            match apply_args args with
            | Some l =>
                call_loop rest (S i) catMask (set_lastResult lr context) args
                  (trace ++ [mkInv i (_lastResult context) l])
            | None => Threw trace
            end
        | 2 =>
            let context :=
              {| _lastResult := _lastResult context;
                 callback := resume catMask args;
                 _nextHook := S i;
                 _compareFunc := _compareFunc context |} in
            match apply_args args with
            | Some l =>
                Suspended context (trace ++ [mkInv i (_lastResult context) l])
            | None => Threw trace
            end
        | _ => call_loop rest (S i) catMask context args trace
        end
      else call_loop rest (S i) catMask context args trace
  end.

(** [call(catMask, cb, context, args)] *)
Definition call (hooks : list HookFunc) (catMask : Z) (context : Context)
    (args : JS.value) (trace : list Invocation) : Outcome :=
  call_loop (drop (_nextHook context) hooks) (_nextHook context) catMask
    context args trace.

(** The asynchronous function invokes [this.callback(value)]: the
    continuation stores the value and re-enters
    [this.call(catMask, cb, context, ...args)], whose fourth parameter
    receives the first spread element. *)
Definition invoke_callback (hooks : list HookFunc) (context : Context)
    (value : JS.value) (trace : list Invocation) : Outcome :=
  match callback context with
  | dummy => Suspended context trace
  | resume catMask args =>
      let context := set_lastResult value context in
      match spread args with
      | Some l => call hooks catMask context (List.nth 0 l JS.VUndefined) trace
      | None => Threw trace
      end
  end.

(** [callSync(catMask, context, args)]: asynchronous functions are skipped. *)
Fixpoint callSync_loop (hooks : list HookFunc) (i : nat) (catMask : Z)
    (context : Context) (args : JS.value) (trace : list Invocation)
  : Outcome :=
  match hooks with
  | [] => Finished context trace
  | hook :: rest =>
      if JS.truthy (compare (_compareFunc context) (cat hook) catMask) then
        match execPolicy hook with
        | 0 =>
            match apply_args args with
            | Some l =>
                let r := code (fn hook) (_lastResult context) l in
                callSync_loop rest (S i) catMask (set_lastResult r context)
                  args (trace ++ [mkInv i (_lastResult context) l])
            | None => Threw trace
            end
        | 1 =>
            let lr := _lastResult context in
            match apply_args args with
            | Some l =>
                callSync_loop rest (S i) catMask (set_lastResult lr context)
                  args (trace ++ [mkInv i (_lastResult context) l])
            | None => Threw trace
            end
        | _ => callSync_loop rest (S i) catMask context args trace
        end
      else callSync_loop rest (S i) catMask context args trace
  end.

Definition callSync (hooks : list HookFunc) (catMask : Z) (context : Context)
    (args : JS.value) : Outcome :=
  callSync_loop (drop (_nextHook context) hooks) (_nextHook context) catMask
    context args [].

(** [dispatch(catMask, context, args)]: every matching function runs, none
    sees an earlier result, nothing is awaited. *)
Fixpoint dispatch_loop (hooks : list HookFunc) (i : nat) (catMask : Z)
    (context : Context) (args : JS.value) (trace : list Invocation)
  : Outcome :=
  match hooks with
  | [] => Finished context trace
  | hook :: rest =>
      if JS.truthy (compare (_compareFunc context) (cat hook) catMask) then
        match execPolicy hook with
        | 0 =>
            let context := set_lastResult JS.VUndefined context in
            match apply_args args with
            | Some l =>
                let r := code (fn hook) (_lastResult context) l in
                dispatch_loop rest (S i) catMask (set_lastResult r context)
                  args (trace ++ [mkInv i (_lastResult context) l])
            | None => Threw trace
            end
        | 1 =>
            let context := set_lastResult JS.VUndefined context in
            match apply_args args with
            | Some l =>
                dispatch_loop rest (S i) catMask context args
                  (trace ++ [mkInv i (_lastResult context) l])
            | None => Threw trace
            end
        | 2 =>
            let context :=
              {| _lastResult := JS.VUndefined; callback := dummy;
                 _nextHook := S i; _compareFunc := _compareFunc context |} in
            match apply_args args with
            | Some l =>
                dispatch_loop rest (S i) catMask context args
                  (trace ++ [mkInv i (_lastResult context) l])
            | None => Threw trace
            end
        | _ => dispatch_loop rest (S i) catMask context args trace
        end
      else dispatch_loop rest (S i) catMask context args trace
  end.

Definition dispatch (hooks : list HookFunc) (catMask : Z) (context : Context)
    (args : JS.value) : Outcome :=
  dispatch_loop (drop (_nextHook context) hooks) (_nextHook context) catMask
    context args [].

(** [callHook], [callHookStrict] and [runHook] on the chain of the named
    hook, with the rest arguments as an array. *)
Definition callHook (hooks : list HookFunc) (catMask : Z)
    (args : list JS.value) : Outcome :=
  call hooks catMask (createContext JS.VUndefined) (JS.VArray args) [].

Definition callHookStrict (hooks : list HookFunc) (catMask : Z)
    (args : list JS.value) : Outcome :=
  let context := createContext JS.VUndefined in
  let context :=
    {| _lastResult := _lastResult context; callback := callback context;
       _nextHook := _nextHook context; _compareFunc := strict |} in
  call hooks catMask context (JS.VArray args) [].

Definition runHook (hooks : list HookFunc) (catMask : Z)
    (args : list JS.value) : Outcome :=
  dispatch hooks catMask (createContext JS.VUndefined) (JS.VArray args).

Definition runHookStrict (hooks : list HookFunc) (catMask : Z)
    (args : list JS.value) : Outcome :=
  let context := createContext JS.VUndefined in
  let context :=
    {| _lastResult := _lastResult context; callback := callback context;
       _nextHook := _nextHook context; _compareFunc := strict |} in
  dispatch hooks catMask context (JS.VArray args).

Definition trace_of (o : Outcome) : list Invocation :=
  match o with Finished _ t | Suspended _ t | Threw t => t end.

(** Whether the chain includes [hook] for the requested [catMask]: the test
    that [call], [callSync] and [dispatch] make. *)
Definition included (f : CompareFunc) (catMask : Z) (hook : HookFunc) : bool :=
  JS.truthy (compare f (cat hook) catMask).

(** The positions, from [i] on, of the functions that are included. *)
Fixpoint included_from (i : nat) (f : CompareFunc) (catMask : Z)
    (hooks : list HookFunc) : list nat :=
  match hooks with
  | [] => []
  | hook :: rest =>
      (if included f catMask hook then [i] else [])
      ++ included_from (S i) f catMask rest
  end.

(** The execution policies that the loader assigns. *)
Definition policy_ok (h : HookFunc) : Prop :=
  execPolicy h = 0 ∨ execPolicy h = 1 ∨ execPolicy h = 2.

(** *** HookLoader: merging a reloaded module *)

(** The body of the [forEach] in [__mergeHooksIntoTable] for one module,
    when the table is an object: [table] holds the chains of its executors
    by hook name, [sign] is the basename of the module and [hooks] what
    [__getHooksFromModule] found in it.  The notification by
    [onHookModuleChanged] on the next tick is left out. *)
Definition merge_module (table : gmap string (list HookFunc))
    (sign : string) (hooks : list HookFunc) : gmap string (list HookFunc) :=
  (* for (var i in table): delHooks, then setHook of the hooks of type i *)
  let table1 :=
    map_imap (λ i ex,
      Some (foldl setHook (delHooks ex sign)
              (filter (λ h, type h = i) hooks))) table in
  (* the hooks that were not spliced out of [hooks] *)
  let left := filter (λ h, table !! type h = None) hooks in
  (* while (hook = hooks.pop()) *)
  foldl (λ t hook, <[type hook := setHook [] hook]> t) table1 (reverse left).

(** How a merge ends: it returns, leaving the field [_hooks] with a value
    ([None] is [undefined]), or a [TypeError] leaves it. *)
Inductive Merge :=
| Merged (_hooks : option (gmap string (list HookFunc)))
| MergeThrew.

(** [__mergeHooksIntoTable(modules, callhooks)].  The method reads its table
    from the field [this._hooks], not from a parameter, and no code of the
    library assigns that field; [_hooks] is the value of the field.
    [modules] are the values that [modules.forEach] visits, absolute paths
    of files, each given by its basename and by what [require] yields for
    it.  Without a table, [for (var i in table)] has
    nothing to visit, and [table[hook.type] = new HookExecutor()] throws for
    the first hook function that a module exports. *)
Fixpoint __mergeHooksIntoTable
    (_hooks : option (gmap string (list HookFunc)))
    (modules : list (string * option (list (string * export)))) : Merge :=
  match modules with
  | [] => Merged _hooks
  | mod_ :: rest =>
      let hooks := __getHooksFromModule (fst mod_) (snd mod_) in
      match _hooks with
      | Some table =>
          __mergeHooksIntoTable
            (Some (merge_module table (fst mod_) hooks)) rest
      | None =>
          match hooks with
          | [] => __mergeHooksIntoTable None rest
          | _ :: _ => MergeThrew
          end
      end
  end.

(** [__hookWatcherCallback(modules)] calls
    [this.__mergeHooksIntoTable(this._hooksTable, modules.filter(...), true)]:
    the parameter [modules] of the merge receives the [Map] that the
    constructor stored in [_hooksTable], and the files that changed arrive
    as [callhooks], which is only tested for being a true value.
    [_hooksTable] are the values of the entries of that [Map]; the library
    never adds an entry. *)
Definition __hookWatcherCallback
    (_hooks : option (gmap string (list HookFunc)))
    (_hooksTable : list (string * option (list (string * export))))
    (modules : list string) : Merge :=
  __mergeHooksIntoTable _hooks _hooksTable.

(** *** The naming grammar, from the specification *)

(** Strings of letters, and strings without a line terminator. *)
Fixpoint all_letters (s : string) : bool :=
  match s with
  | String c s' => is_letter c && all_letters s'
  | EmptyString => true
  end.

Fixpoint one_line (s : string) : bool :=
  match s with
  | String c s' => negb (is_line_terminator c) && one_line s'
  | EmptyString => true
  end.

Definition is_upper (c : ascii) : bool :=
  (65 <=? charCode c) && (charCode c <=? 90).

(** The execution policy of a policy letter: [S] synchronous (0), [E] event
    (1), [A] asynchronous (2), in either case. *)
Definition policy_number (p : ascii) : Z :=
  if Ascii.eqb (upper_char p) "S" then 0
  else if Ascii.eqb (upper_char p) "E" then 1 else 2.

(** [c] is the upper case letter of category [i]. *)
Definition bit_of (i : Z) (c : ascii) : bool :=
  is_upper c && (charCode c - 65 =? i).

(** [c] is the letter of category [i], in either case. *)
Definition category_letter (i : Z) (c : ascii) : bool :=
  is_letter c && (charCode (upper_char c) - 65 =? i).

(** Follows the specification's grammar [h <Policy> <Categories>? _ <HookName>]:
    the policy letter of an execution policy, the letters of a category mask
    ([ALL_CATS], that is -1, has none) and the name. *)
Definition spec_policy_letter (execPolicy : Z) : ascii :=
  match execPolicy with 0 => "S" | 1 => "E" | _ => "A" end%char.

Definition mask_letters (m : Z) (l : list nat) : list ascii :=
  omap (λ i : nat, if Z.testbit m (Z.of_nat i)
                   then Some (ascii_of_nat (65 + i)) else None) l.

Definition spec_category_letters (cat : Z) : string :=
  if cat =? -1 then EmptyString
  else String.string_of_list_ascii (mask_letters cat (seq 0 26)).

Definition spec_encode (execPolicy : Z) (cat : Z) (name : string) : string :=
  String "h" (String (spec_policy_letter execPolicy)
    (spec_category_letters cat +:+ String "_" name)).

(** A string that begins as the naming scheme says: [h], a policy letter,
    zero or more letters, [_]. *)
Definition decorated (s : string) : Prop :=
  ∃ p cats rest,
    s = String "h" (String p (cats +:+ String "_" rest))
    ∧ is_policy_letter p = true ∧ all_letters cats = true.

(** No suffix of [pre +:+ s] that begins within [pre] is decorated: [s] is
    the leftmost place of [pre +:+ s] where a decoration can begin. *)
Definition leftmost (pre s : string) : Prop :=
  ∀ pre1 c pre2, pre = pre1 +:+ String c pre2 →
    ¬ decorated (String c pre2 +:+ s).

(** *** Files of hook modules *)

(** [s] starts with [p]. *)
Fixpoint starts_with (p s : string) : bool :=
  match p, s with
  | EmptyString, _ => true
  | String a p', String b s' => Ascii.eqb a b && starts_with p' s'
  | String _ _, EmptyString => false
  end.

(** [HOOK_FILE_NAME_REGEX.test(s)]: the expression is not anchored, so it
    matches when some character that is not a line terminator is followed
    by [.hook.js]. *)
Fixpoint HOOK_FILE_NAME_REGEX_test (s : string) : bool :=
  match s with
  | String c rest =>
      (negb (is_line_terminator c) && starts_with ".hook.js" rest)
      || HOOK_FILE_NAME_REGEX_test rest
  | EmptyString => false
  end.

(** *** HookExecutor and HookLoader: checks *)

(** [check(catMask)] and [checkStrict(catMask)]: whether [findIndex] finds
    a function of the chain. *)
Definition check (hooks : list HookFunc) (catMask : Z) : bool :=
  match findIndex (λ hook, negb (JS.and32 catMask (cat hook) =? 0)) hooks with
  | Some _ => true
  | None => false
  end.

Definition checkStrict (hooks : list HookFunc) (catMask : Z) : bool :=
  match findIndex (λ hook, JS.xor32 catMask (cat hook) =? 0) hooks with
  | Some _ => true
  | None => false
  end.

(** [checkTarget(catMask, name, strict)] with a numeric mask, on the table
    of executors by hook name; [false] also stands for the [undefined] that
    is returned when no executor has that name. *)
Definition checkTarget (table : gmap string (list HookFunc)) (catMask : Z)
    (name : string) (strict : bool) : bool :=
  match table !! name with
  | Some hooks =>
      if strict then checkStrict hooks catMask
      else if catMask =? -1 then true else check hooks catMask
  | None => false
  end.

(** *** What a chain computes *)

(** The value of [_lastResult] once [hook] had its turn in [call] or
    [callSync]: a synchronous function that is included replaces it with
    what it returns; every other function leaves it. *)
Definition after_hook (f : CompareFunc) (catMask : Z) (args : list JS.value)
    (lastResult : JS.value) (hook : HookFunc) : JS.value :=
  if included f catMask hook && (execPolicy hook =? 0)
  then code (fn hook) lastResult args else lastResult.

(** An asynchronous function that is included. *)
Definition suspends (f : CompareFunc) (catMask : Z) (hook : HookFunc) : bool :=
  included f catMask hook && (execPolicy hook =? 2).

(** A chain in the order of [sort]: no function is followed by one that the
    comparison function puts before it. *)
Fixpoint in_priority_order (hooks : list HookFunc) : Prop :=
  match hooks with
  | [] => True
  | a :: rest =>
      Forall (λ b, priority_gtb a b = false) rest ∧ in_priority_order rest
  end.

End Hooks.

(** ** The server: rendering a hook response *)

Module Server.

(** The response descriptor that hooks return; every field holds whatever
    the hook put there. *)
Record ResponsePrototype := mkProto {
  status : JS.value;
  data : JS.value;
  dataType : JS.value;
  dataLength : JS.value;
  headers : option (list (string * JS.value));
  entityTag : JS.value;
  maxAge : JS.value;
  error : JS.value;
  manual : JS.value
}.

Definition set_data (v : JS.value) (p : ResponsePrototype) :=
  {| status := status p; data := v; dataType := dataType p;
     dataLength := dataLength p; headers := headers p;
     entityTag := entityTag p; maxAge := maxAge p; error := error p;
     manual := manual p |}.

(** What the handler does to the outside, in order: calls on the response
    object, on the hook interface and on the cache.  Log lines and the
    timing header [X-GMetrics] carry no modelled value. *)
Inductive Action :=
| SimpleResponse (code : JS.number)
| SetStatus (code : JS.number)
| SetHeader (name : string) (v : JS.value)
| RemoveHeader (name : string)
| SetMetrics
| End (body : option string)
| Pipe
| RunHook (name : string)
| Log
| CacheStor (key : string) (proto : ResponsePrototype) (size : Z)
    (expires : JS.number).

(** What the handler reads from its surroundings: [Date.now()], whether
    [response.setHeader] accepts a header (it throws otherwise) and
    [this._iface.checkTarget]. *)
Record Env := mkEnv {
  now : Z;
  header_ok : string → JS.value → bool;
  checkTarget : string → bool
}.

(** The handler returns, or an exception leaves it. *)
Inductive Result :=
| Returned (cache : Cache.ResponseCache ResponsePrototype)
    (log : list Action)
| Raised (cache : Cache.ResponseCache ResponsePrototype)
    (log : list Action).

Definition is_error (v : JS.value) : bool :=
  match v with JS.VError _ => true | _ => false end.

(** [site.hosts[0] + "$" + request.url] *)
Definition cache_key (hosts : list string) (url : string) : string :=
  match hosts with
  | h :: _ => h
  | [] => "undefined"
  end +:+ "$" +:+ url.

(** The user supplied headers, each set inside its own [try]. *)
Definition set_user_headers (env : Env) (hs : list (string * JS.value))
  : list Action :=
  flat_map (λ h, if header_ok env (fst h) (snd h)
                 then [SetHeader (fst h) (snd h)] else [Log; Log]) hs.

(** [ETag] and [Cache-Control]: the new value of [cacheable] and the calls;
    [None] when [setHeader] throws on the entity tag. *)
Definition etag_headers (env : Env) (responseProto : ResponsePrototype)
    (cacheable : bool) : option (bool * list Action) :=
  if JS.is_string (entityTag responseProto) then
    if header_ok env "ETag" (entityTag responseProto) then
      Some (cacheable,
            [SetHeader "ETag" (entityTag responseProto)]
            ++ if JS.is_number (maxAge responseProto)
               then [SetHeader "Cache-Control" (maxAge responseProto)]
               else [])
    else None
  else Some (false, []).

(** [Content-Type], with its fallback. *)
Definition content_type_header (env : Env) (responseProto : ResponsePrototype)
  : list Action :=
  if JS.is_string (dataType responseProto) then
    if header_ok env "Content-Type" (dataType responseProto)
    then [SetHeader "Content-Type" (dataType responseProto)]
    else [Log; Log;
          SetHeader "Content-Type" (JS.VString "application/octet-stream")]
  else [SetHeader "Content-Type" (JS.VString "application/octet-stream")].

(** A string body becomes a buffer, in the descriptor itself. *)
Definition buffer_body (responseProto : ResponsePrototype)
  : ResponsePrototype :=
  match data responseProto with
  | JS.VString s => set_data (JS.VBuffer s) responseProto
  | _ => responseProto
  end.

(** Sending the body by its kind, and the insertion into the cache.  The
    expiry is [Date.now() + responseProto.maxAge * 1000]; the result is
    [None] when the model does not hold the numeric value of [maxAge], or
    when [stor] runs out of [fuel]. *)
Definition send_body (fuel : nat) (env : Env)
    (cache : Cache.ResponseCache ResponsePrototype)
    (url : string) (hosts : list string)
    (responseProto : ResponsePrototype) (st : JS.number)
    (cacheable : bool) (log : list Action) : option Result :=
  match data responseProto with
  | JS.VBuffer b =>
      let log :=
        log ++
        [SetHeader "Content-Length"
           (JS.VNumber (JS.Num (Z.of_nat (String.length b))));
         End (Some b)] in
      if cacheable then
        let key := cache_key hosts url in
        let size := Z.of_nat (String.length b) in
        match JS.to_number (maxAge responseProto) with
        | Some seconds =>
            let expires :=
              JS.add (JS.Num (now env)) (JS.mul seconds (JS.Num 1000)) in
            match Cache.stor fuel cache key responseProto size expires with
            | Some cache =>
                Some (Returned cache
                        (log ++ [CacheStor key responseProto size expires]))
            | None => None
            end
        | None => None
        end
      else Some (Returned cache log)
  | JS.VStream =>
      let log :=
        log ++
        match dataLength responseProto with
        | JS.VNumber n =>
            if JS.ltb (JS.Num 0) n
            then [SetHeader "Content-Length" (dataLength responseProto)]
            else []
        | _ => []
        end ++ [Pipe] in
      Some (Returned cache log)
  | d =>
      let log :=
        log
        ++ (if JS.loosely_null d then [] else [Log])
        ++ [RemoveHeader "Content-Type"; RemoveHeader "ETag";
            RemoveHeader "Cache-Control"; SimpleResponse st] in
      Some (Returned cache log)
  end.

(** [__handleHookResponse(request, response, site, target, error,
    responseProto)]; [None] only when [send_body] gives [None]. *)
Definition __handleHookResponse (fuel : nat) (env : Env)
    (cache : Cache.ResponseCache ResponsePrototype)
    (url : string) (hosts : list string) (target : string)
    (error_ : JS.value) (responseProto : option ResponsePrototype)
  : option Result :=
  match responseProto with
  | Some responseProto =>
      if is_error (error responseProto) then
        Some (Returned cache [Log; SimpleResponse (JS.Num 500)])
      else
        match status responseProto with
        | JS.VNumber st =>
            if JS.leb (JS.Num 100) st && JS.ltb st (JS.Num 600) then
              let cacheable := true in
              let log :=
                [SetStatus st]
                ++ match headers responseProto with
                   | Some hs => set_user_headers env hs
                   | None => []
                   end in
              if JS.truthy (data responseProto)
                 || JS.loosely_null (data responseProto) then
                match etag_headers env responseProto cacheable with
                | None => Some (Raised cache log)
                | Some (cacheable, log1) =>
                    let log :=
                      log ++ log1 ++ content_type_header env responseProto in
                    let responseProto := buffer_body responseProto in
                    let log := log ++ [SetMetrics] in
                    send_body fuel env cache url hosts responseProto st
                      cacheable log
                end
              else
                (* Response contains no data *)
                Some (Returned cache (log ++ [SetMetrics; End None]))
            else
              Some (Returned cache [Log; SimpleResponse (JS.Num 500)])
        | _ =>
            match manual responseProto with
            | JS.VString m =>
                if negb (String.eqb m "") && checkTarget env m
                then Some (Returned cache [RunHook m])
                else Some (Returned cache [Log; SimpleResponse (JS.Num 502)])
            | _ => Some (Returned cache [])
            end
        end
  | None =>
      if is_error error_
      then Some (Returned cache [Log; SimpleResponse (JS.Num 502)])
      else Some (Returned cache [Log; SimpleResponse (JS.Num 500)])
  end.

Definition log_of (r : Result) : list Action :=
  match r with Returned _ l | Raised _ l => l end.

Definition cache_of (r : Result) : Cache.ResponseCache ResponsePrototype :=
  match r with Returned c _ | Raised c _ => c end.

(** The test that decides the insertion, read off the handler: no error
    object, a status in range, a body of bytes or a non-empty string, an
    entity tag that is a string and that [setHeader] accepts. *)
Definition cacheable (env : Env) (p : ResponsePrototype) : bool :=
  negb (is_error (error p))
  && match status p with
     | JS.VNumber (JS.Num st) => (100 <=? st) && (st <? 600)
     | _ => false
     end
  && match data p with
     | JS.VBuffer _ => true
     | JS.VString s => negb (String.eqb s "")
     | _ => false
     end
  && JS.is_string (entityTag p)
  && header_ok env "ETag" (entityTag p).

Definition is_stor (a : Action) : bool :=
  match a with CacheStor _ _ _ _ => true | _ => false end.

(** The outcome of a run that does not reach the cache. *)
Definition keeps_cache (cache : Cache.ResponseCache ResponsePrototype)
    (o : option Result) : Prop :=
  ∃ r, o = Some r ∧ cache_of r = cache ∧ existsb is_stor (log_of r) = false.

(** The body that was sent and cached: the bytes of a buffer, or of a
    string in UTF-8. *)
Definition body_bytes (v : JS.value) : option string :=
  match v with
  | JS.VBuffer b => Some b
  | JS.VString s => Some s
  | _ => None
  end.

(** The calls that finish the handling of a request: a response is sent
    ([sendSimpleResponse], [end], [pipe]) or the request is handed to the
    hook of manual mode. *)
Definition ends_response (a : Action) : bool :=
  match a with
  | SimpleResponse _ | End _ | Pipe | RunHook _ => true
  | _ => false
  end.

(** *** __runExternalRequestHandler *)

(** [site.hosts[0]] *)
Definition host0 (hosts : list string) : string :=
  match hosts with
  | h :: _ => h
  | [] => "undefined"
  end.

(** [1 << (site.category.toUpperCase().charCodeAt(0) - 65)], for a category
    of ASCII characters.  The character code of the empty string is [NaN],
    and a shift by [NaN] is a shift by 0. *)
Definition site_catmask (category : string) : Z :=
  match Hooks.toUpperCase category with
  | String c _ => JS.shl32 1 (Hooks.charCode c - 65)
  | EmptyString => JS.shl32 1 0
  end.

(** What the handler does with a request: it renders the cached descriptor,
    or calls a hook ([callHook] with the mask of the site, the name of the
    hook, the target that the response handler reports, and the arguments
    of the hook functions), or answers 404.  Each outcome carries the cache
    as [retv] left it; rendering may change it further. *)
Inductive Dispatched :=
| FromCache (r : option Result)
| CallHook (catmask : Z) (name : string) (target : string)
    (args : list JS.value) (cache : Cache.ResponseCache ResponsePrototype)
| NotFound (cache : Cache.ResponseCache ResponsePrototype).

(** [__runExternalRequestHandler(request, response, site, data, params)]:
    [url] is [request.url], [target] the path of the parsed URL without its
    first character, [params] the merged parameters; [now_retv] is the time
    that [retv] reads, [now env] the time that the response handler reads
    after it; [table] is the table of the hook loader. *)
Definition __runExternalRequestHandler (fuel : nat) (env : Env)
    (now_retv : Z) (table : gmap string (list Hooks.HookFunc))
    (cache : Cache.ResponseCache ResponsePrototype)
    (url target : string) (hosts : list string) (category : string)
    (params headers data : JS.value) : Dispatched :=
  let catmask := site_catmask category in
  let rid := cache_key hosts url in
  let '(rproto, cache) := Cache.retv now_retv cache rid in
  match rproto with
  | Some rproto =>
      FromCache (__handleHookResponse fuel env cache url hosts
                   (host0 hosts +:+ "$" +:+ target) JS.VNull (Some rproto))
  | None =>
      if negb (String.eqb target "")
         && Hooks.checkTarget table catmask
              (host0 hosts +:+ "$" +:+ target) false
      then CallHook catmask (host0 hosts +:+ "$" +:+ target)
             (host0 hosts +:+ "$" +:+ target) [params; headers; data] cache
      else if Hooks.checkTarget table catmask (host0 hosts +:+ "$") false
      then CallHook catmask (host0 hosts +:+ "$")
             (host0 hosts +:+ ">" +:+ target)
             [JS.VString target; params; headers; data] cache
      else NotFound cache
  end.

(** *** __requestDataHandler: the accounting of uploads *)

(** The state that the handlers of one request share: whether the body is
    read as a string ([form]: the content type is
    [application/x-www-form-urlencoded]), the length counted for the request
    ([dlen]), the chunks kept, and whether the request was destroyed. *)
Record Upload := mkUpload {
  form : bool;
  dlen : Z;
  chunks : list string;
  destroyed : bool
}.

(** The events of requests: the handler is entered for a request with the
    size that its [Content-Length] announces ([size] stays -1 without the
    header) and with its content type, and the stream of the request emits
    [data], [end], [error] and [aborted]. *)
Inductive RequestEvent :=
| Enter (size : JS.number) (form : bool)
| OnData (chunk : string)
| OnEnd
| OnError
| OnAborted.

(** What the handlers do towards the client and the hooks. *)
Inductive UploadAction :=
| Rejected (id : nat)                      (* 406, before any data *)
| Destroyed (id : nat)
| Handled (id : nat) (body : string)       (* __runExternalRequestHandler *)
| Failed (id : nat) (code : Z).            (* 406 on error, 500 on abort *)

Record Uploads := mkUploads {
  _pendingUploads : Z;
  requests : gmap nat Upload;
  actions : list UploadAction
}.

(** The length of a string in UTF-16 code units, read off its UTF-8
    encoding: one unit for each character of one to three bytes, two for
    each character of four bytes.  Bytes from 128 to 191 continue a
    character, bytes from 240 on begin a character of four bytes. *)
Fixpoint utf16_length (s : string) : Z :=
  match s with
  | EmptyString => 0
  | String c s' =>
      (if (128 <=? JS.char_code c) && (JS.char_code c <? 192) then 0 else 1)
      + (if 240 <=? JS.char_code c then 1 else 0)
      + utf16_length s'
  end.

(** [chunk.length]: a request read with [setEncoding("utf8")] emits strings,
    whose length counts UTF-16 code units; any other request emits buffers,
    whose length counts bytes. *)
Definition chunk_length (form : bool) (chunk : string) : Z :=
  if form then utf16_length chunk else Z.of_nat (String.length chunk).

(** One event of request [id], with the limits [uploadMaxUnitSize] and
    [uploadMaxStorage] of the configuration. *)
Definition upload_step (uploadMaxUnitSize uploadMaxStorage : Z)
    (st : Uploads) (ev : nat * RequestEvent) : Uploads :=
  let '(id, e) := ev in
  match e with
  | Enter size form =>
      if JS.ltb (JS.Num 0) size && JS.ltb (JS.Num uploadMaxUnitSize) size
      then {| _pendingUploads := _pendingUploads st;
              requests := requests st;
              actions := actions st ++ [Rejected id] |}
      else {| _pendingUploads := _pendingUploads st;
              requests := <[id := mkUpload form 0 [] false]> (requests st);
              actions := actions st |}
  | OnData chunk =>
      match requests st !! id with
      | Some u =>
          if uploadMaxStorage
             <? _pendingUploads st + chunk_length (form u) chunk
          then {| _pendingUploads := _pendingUploads st;
                  requests :=
                    <[id := mkUpload (form u) (dlen u) (chunks u) true]>
                      (requests st);
                  actions := actions st ++ [Destroyed id] |}
          else {| _pendingUploads :=
                    _pendingUploads st + chunk_length (form u) chunk;
                  requests :=
                    <[id := mkUpload (form u)
                              (dlen u + chunk_length (form u) chunk)
                              (chunks u ++ [chunk]) (destroyed u)]>
                      (requests st);
                  actions := actions st |}
      | None => st
      end
  | OnEnd =>
      match requests st !! id with
      | Some u =>
          {| _pendingUploads := _pendingUploads st - dlen u;
             requests := requests st;
             actions :=
               actions st ++ [Handled id (String.concat EmptyString (chunks u))] |}
      | None => st
      end
  | OnError =>
      match requests st !! id with
      | Some u =>
          {| _pendingUploads := _pendingUploads st - dlen u;
             requests := requests st;
             actions := actions st ++ [Failed id 406] |}
      | None => st
      end
  | OnAborted =>
      match requests st !! id with
      | Some u =>
          {| _pendingUploads := _pendingUploads st - dlen u;
             requests := requests st;
             actions := actions st ++ [Failed id 500] |}
      | None => st
      end
  end.

(** A server that has seen no request. *)
Definition no_uploads : Uploads :=
  {| _pendingUploads := 0; requests := ∅; actions := [] |}.

(** The events that release what was counted for a request. *)
Definition releases (e : RequestEvent) : bool :=
  match e with
  | OnEnd | OnError | OnAborted => true
  | _ => false
  end.

(** The requests in flight after the events [events]: those that have
    emitted none of [end], [error] and [aborted].  (An [id] stands for one
    request.) *)
Definition in_flight (events : list (nat * RequestEvent)) (id : nat) : bool :=
  negb (existsb (λ ev, Nat.eqb (fst ev) id && releases (snd ev)) events).

(** The length of the chunks that the server keeps for the requests in
    flight. *)
Definition held (events : list (nat * RequestEvent)) (st : Uploads) : Z :=
  map_fold (λ id u acc, (if in_flight events id then dlen u else 0) + acc)
    0 (requests st).

(** *** The sites of the configuration *)

Record HostedSiteConfig := mkSite {
  site_hosts : list string;
  site_description : string;
  site_category : string
}.

(** The argument of [addSiteConfig]: a site, an array of arguments, or
    anything else. *)
#[warnings="-register-all"]
Inductive SiteArg :=
| OneSite (config : HostedSiteConfig)
| ManySites (configs : list SiteArg)
| NoSite.

(** [addSiteConfig(config)] on the object [this.sites]; the flag is false
    when the call throws.  The host names are properties of a plain object:
    the model excludes the host name [__proto__], whose assignment does not
    create a property. *)
Fixpoint addSiteConfig (sites : gmap string HostedSiteConfig)
    (config : SiteArg) : gmap string HostedSiteConfig * bool :=
  match config with
  | ManySites configs =>
      (fix each sites configs :=
         match configs with
         | [] => (sites, true)
         | c :: rest =>
             let '(sites, ok) := addSiteConfig sites c in
             if ok then each sites rest else (sites, false)
         end) sites configs
  | OneSite config =>
      (foldl (λ sites host, <[host := config]> sites) sites
         (site_hosts config), true)
  | NoSite => (sites, false)
  end.

(** The properties that every plain object inherits from
    [Object.prototype]; their values are functions and objects. *)
Definition object_prototype_properties : list string :=
  ["constructor"; "__defineGetter__"; "__defineSetter__"; "hasOwnProperty";
   "__lookupGetter__"; "__lookupSetter__"; "isPrototypeOf";
   "propertyIsEnumerable"; "toString"; "valueOf"; "__proto__";
   "toLocaleString"].

(** What [this._config.sites[name]] yields: a configured site, an inherited
    property, or [undefined] ([None]). *)
Inductive SiteRef :=
| Configured (site : HostedSiteConfig)
| Inherited (name : string).

Definition sites_get (sites : gmap string HostedSiteConfig) (name : string)
  : option SiteRef :=
  match sites !! name with
  | Some site => Some (Configured site)
  | None =>
      if decide (name ∈ object_prototype_properties)
      then Some (Inherited name) else None
  end.

(** [__matchSiteForHost(host)]; the host is [None] when the request has no
    [Host] header.  Every value that [sites_get] yields is true. *)
Definition __matchSiteForHost (sites : gmap string HostedSiteConfig)
    (host : option string) : option SiteRef :=
  match host with
  | Some (String c h) =>
      match sites_get sites (String c h) with
      | Some out => Some out
      | None => sites_get sites "*"
      end
  | _ =>
      match sites_get sites "!" with
      | Some out => Some out
      | None => sites_get sites "*"
      end
  end.

(** *** The echo hook of the examples *)

(** The answer that the echo hook builds itself; [random] is
    [Math.floor(Math.random() * 1e14) + 1e15]. *)
Definition echo_answer (target : string) (random : Z) : ResponsePrototype :=
  {| status := JS.VNumber (JS.Num 200);
     data := JS.VBuffer
       ("<div style='font-family: monospace;width:50%;margin:auto;text-align:center'>There are nothing to look for at <span style='color: blue'>/"
        +:+ target +:+ "</span> at this moment :(");
     dataType := JS.VString "text/html; charset=utf-8";
     dataLength := JS.VUndefined;
     headers := None;
     entityTag := JS.VNumber (JS.Num random);
     maxAge := JS.VNumber (JS.Num 600);
     error := JS.VUndefined;
     manual := JS.VUndefined |}.

(** [module.exports["hS_foo.bar$"]]: [lastResult] is [this._lastResult]
    when it is a response descriptor, [None] when it is a false value.  The
    test [this._lastResult.status < 300] compares the status as a number;
    the result is [None] when the model does not hold that number. *)
Definition echo_hook (lastResult : option ResponsePrototype) (target : string)
    (random : Z) : option ResponsePrototype :=
  match lastResult with
  | Some p =>
      match JS.to_number (status p) with
      | Some st =>
          if JS.ltb st (JS.Num 300) then Some p
          else Some (echo_answer target random)
      | None => None
      end
  | None => Some (echo_answer target random)
  end.

End Server.

(** ** Concrete inputs used by the examples below *)

Module Examples.
Import Hooks.

(** A cache of limit 1000 after [stor("A", _, 100, _)] and
    [stor("B", _, 100, _)]: both entries present, [B] most recent. *)
Definition cache_A : Cache.ResponseCache unit :=
  default (Cache.new_ResponseCache 1000)
    (Cache.stor 2 (Cache.new_ResponseCache 1000) "A" () 100 (JS.Num 50)).

Definition cache_AB : Cache.ResponseCache unit :=
  default cache_A (Cache.stor 3 cache_A "B" () 100 (JS.Num 60)).

(** The same cache after [stor("C", _, 100, _)]: three entries, [C] most
    recent, [A] least. *)
Definition cache_ABC : Cache.ResponseCache unit :=
  default cache_AB (Cache.stor 4 cache_AB "C" () 100 (JS.Num 70)).

(** A callable that returns the list of what it was given. *)
Definition echo (declared : JS.value) : callable :=
  {| declared_priority := declared;
     code := λ lastResult args, JS.VArray (lastResult :: args) |}.

Definition hook (source name : string) (policy : Z) (mask : Z) : HookFunc :=
  {| priority := JS.VNumber (JS.Num 0); src := source; type := name;
     cat := mask; execPolicy := policy; fn := echo JS.VUndefined |}.

(** A chain with an asynchronous function followed by a synchronous one,
    as the site-default hook of the example site has. *)
Definition chain_async_sync : list HookFunc :=
  [hook "static.hook.js" "foo.bar$" 2 (-1);
   hook "echo.hook.js" "foo.bar$" 0 (-1)].

(** The arguments of a site-default hook and of a URI hook. *)
Definition args_default : list JS.value :=
  [JS.VString "index.html"; JS.VObject 1; JS.VObject 2; JS.VNull].
Definition args_uri : list JS.value :=
  [JS.VObject 1; JS.VObject 2; JS.VNull].

(** The echo module of the examples: one function that declares priority 5,
    no module priority. *)
Definition echo_module : list (string * export) :=
  [("hS_foo.bar$", ExCallable (echo (JS.VNumber (JS.Num 5))))].

(** The chain of masks of the specification's matching scenario. *)
Definition chain_masks : list HookFunc :=
  [hook "m" "t" 0 1; hook "m" "t" 0 2; hook "m" "t" 0 3; hook "m" "t" 0 (-1)].

(** A descriptor that is cacheable but for its missing [maxAge]. *)
Definition proto_no_maxAge : Server.ResponsePrototype :=
  {| Server.status := JS.VNumber (JS.Num 200);
     Server.data := JS.VBuffer "hello";
     Server.dataType := JS.VString "text/plain";
     Server.dataLength := JS.VUndefined;
     Server.headers := None;
     Server.entityTag := JS.VString "tag";
     Server.maxAge := JS.VUndefined;
     Server.error := JS.VUndefined;
     Server.manual := JS.VUndefined |}.

(** The same with the string ["5"] as [maxAge]. *)
Definition proto_string_maxAge : Server.ResponsePrototype :=
  {| Server.status := JS.VNumber (JS.Num 200);
     Server.data := JS.VBuffer "hello";
     Server.dataType := JS.VString "text/plain";
     Server.dataLength := JS.VUndefined;
     Server.headers := None;
     Server.entityTag := JS.VString "tag";
     Server.maxAge := JS.VString "5";
     Server.error := JS.VUndefined;
     Server.manual := JS.VUndefined |}.

Definition proto_ok : Server.ResponsePrototype :=
  {| Server.status := JS.VNumber (JS.Num 200);
     Server.data := JS.VString "hello";
     Server.dataType := JS.VString "text/plain";
     Server.dataLength := JS.VUndefined;
     Server.headers := None;
     Server.entityTag := JS.VString "tag";
     Server.maxAge := JS.VNumber (JS.Num 300);
     Server.error := JS.VUndefined;
     Server.manual := JS.VUndefined |}.

Definition env0 : Server.Env :=
  {| Server.now := 1000; Server.header_ok := λ _ _, true;
     Server.checkTarget := λ _, false |}.

(** The cache of limit 1000 after the response handler inserted [proto_ok]
    for the URL [/x] of the site [foo.bar] at time 1000. *)
Definition cache_served : Cache.ResponseCache Server.ResponsePrototype :=
  default (Cache.new_ResponseCache 1000)
    (Cache.stor 2 (Cache.new_ResponseCache 1000) "foo.bar$/x"
       (Server.buffer_body proto_ok) 5 (JS.Num 301000)).

(** Uploads: a request that emits [aborted] and then [error], followed by
    two requests that stay in flight. *)
Definition released_twice : list (nat * Server.RequestEvent) :=
  [(1%nat, Server.Enter (JS.Num 8) false); (1%nat, Server.OnData "12345678");
   (1%nat, Server.OnAborted); (1%nat, Server.OnError);
   (2%nat, Server.Enter (JS.Num 10) false);
   (2%nat, Server.OnData "abcdefghij");
   (3%nat, Server.Enter (JS.Num 8) false);
   (3%nat, Server.OnData "ABCDEFGH")].

(** Uploads: a form-encoded request, whose chunk has a character of two
    bytes, and a request that fails; each releases once. *)
Definition upload_trace : list (nat * Server.RequestEvent) :=
  [(1%nat, Server.Enter (JS.Num 3) true); (2%nat, Server.Enter JS.NaN false);
   (1%nat, Server.OnData
             (String (ascii_of_nat 195) (String (ascii_of_nat 169) "a")));
   (2%nat, Server.OnData "12345678"); (2%nat, Server.OnError);
   (1%nat, Server.OnEnd)].

End Examples.

(** * Proofs *)

(** ** LinkedList: the store operations implement list operations *)

Module LinkedListFacts.
Import LinkedList.

Lemma value_alter (f : LinkedListItem → LinkedListItem) k b (h : store) :
  (∀ it, value (f it) = value it) →
  value <$> alter f k h !! b = value <$> h !! b.
Proof.
  intros Hf. rewrite lookup_alter. case_decide as Hkb; [|done]. destruct Hkb.
  destruct (h !! k); simpl; [|done]. by rewrite Hf.
Qed.

Lemma seg_frame h h' p l n :
  (∀ a, a ∈ l → h' !! a = h !! a) → seg h p l n → seg h' p l n.
Proof.
  revert p. induction l as [|a l IH]; intros p Hfr; simpl; [done|].
  intros [(it & Ha & Hp & Hn) Hseg]. split.
  - exists it. rewrite Hfr; [done | left].
  - apply IH; [|done]. intros b Hb. apply Hfr. by right.
Qed.

Lemma last_or_snoc p l a : last_or p (l ++ [a]) = Some a.
Proof. unfold last_or. by rewrite last_snoc. Qed.

Lemma last_or_cons p a l : last_or p (a :: l) = last_or (Some a) l.
Proof. unfold last_or. rewrite last_cons. by destruct (last l). Qed.

Lemma hd_or_app l1 l2 n : hd_or (l1 ++ l2) n = hd_or l1 (hd_or l2 n).
Proof. by destruct l1. Qed.

Lemma seg_app h p l1 l2 n :
  seg h p (l1 ++ l2) n ↔ seg h p l1 (hd_or l2 n) ∧ seg h (last_or p l1) l2 n.
Proof.
  revert p. induction l1 as [|a l1 IH]; intros p; simpl.
  - unfold last_or. simpl. tauto.
  - rewrite IH, hd_or_app, last_or_cons. tauto.
Qed.

Lemma seg_set_prev h p p' a l n :
  a ∉ l → seg h p (a :: l) n → seg (alter (set_prev p') a h) p' (a :: l) n.
Proof.
  intros Hni [(it & Ha & Hp & Hn) Hseg]. split.
  - exists (set_prev p' it). rewrite lookup_alter_eq, Ha. done.
  - eapply seg_frame; [|done]. intros b Hb.
    rewrite lookup_alter_ne; [done | by intros ->].
Qed.

Lemma seg_set_next h p a l n n' :
  a ∉ l → seg h p (l ++ [a]) n → seg (alter (set_next n') a h) p (l ++ [a]) n'.
Proof.
  intros Hni. rewrite !seg_app. simpl. intros (H1 & (it & Ha & Hp & Hn) & _).
  split; [|split; [|done]].
  - eapply seg_frame; [|done]. intros b Hb.
    rewrite lookup_alter_ne; [done | by intros ->].
  - exists (set_next n' it). rewrite lookup_alter_eq, Ha. done.
Qed.

Lemma seg_lookup h p l n a : seg h p l n → a ∈ l → is_Some (h !! a).
Proof.
  revert p. induction l as [|b l IH]; intros p; simpl; [by intros _ ?%elem_of_nil|].
  intros [(it & Hb & _) Hseg] [->|Hin]%elem_of_cons; [by eexists | eauto].
Qed.

Lemma Rep_lookup h ll l a : Rep h ll l → a ∈ l → is_Some (h !! a).
Proof. intros (_ & Hseg & _). by eapply seg_lookup. Qed.

Lemma Rep_length h ll l : Rep h ll l → (length l ≤ size h)%nat.
Proof.
  intros HR. pose proof HR as (Hnd & _).
  rewrite <- size_dom. unfold size at 1, set_size. simpl.
  apply submseteq_length, NoDup_submseteq; [done|].
  intros a Ha. apply elem_of_elements, elem_of_dom. by eapply Rep_lookup.
Qed.

Lemma Rep_tail h ll l : Rep h ll l → tail ll = last l.
Proof.
  intros (_ & _ & Hh & Ht). unfold tail. rewrite Ht, Hh. unfold shape_tail.
  destruct l as [|a [|b l]]; [done..|].
  destruct (last (a :: b :: l)) eqn:E; [done|]. by apply last_None in E.
Qed.

Lemma walk_seg h p l fuel :
  seg h p l None → (length l ≤ fuel)%nat → walk fuel h (hd_or l None) = l.
Proof.
  revert p fuel. induction l as [|a l IH]; intros p fuel; simpl.
  - by destruct fuel.
  - intros [(it & Ha & _ & Hn) Hseg] Hlen. destruct fuel as [|fuel]; [lia|].
    simpl. rewrite Ha, Hn. f_equal. eapply IH; [done | lia].
Qed.

Lemma Rep_to_list h ll l : Rep h ll l → to_list h ll = l.
Proof.
  intros HR. pose proof (Rep_length _ _ _ HR) as Hlen.
  destruct HR as (_ & Hseg & Hh & _). unfold to_list. rewrite Hh.
  by eapply walk_seg.
Qed.

Lemma Rep_new : Rep ∅ new_LinkedList [].
Proof. repeat split; [constructor|done..]. Qed.

(** Linking an unlinked item [a] in front of [l]. *)
Lemma link_first_Rep h h0 ll l a v :
  Rep h ll l → a ∉ l →
  h0 !! a = Some {| value := v; prev := None; next := None |} →
  (∀ b, b ≠ a → h0 !! b = h !! b) →
  ∃ h' ll', link_first h0 ll a = (h', ll', a)
    ∧ Rep h' ll' (a :: l)
    ∧ (∀ b, value <$> h' !! b = value <$> h0 !! b).
Proof.
  intros (Hnd & Hseg & Hh & Ht) Hni Ha Hfr. unfold link_first. rewrite Hh.
  destruct l as [|hd l']; simpl.
  - eexists _, _. split; [done|]. split; [|done].
    split; [apply NoDup_singleton|]. split; [|done].
    simpl. split; [|done]. eexists. by rewrite Ha.
  - eexists _, _. split; [done|]. split.
    + assert (hd ≠ a) by (intros ->; apply Hni; left).
      split; [by apply NoDup_cons|]. split; [|split; simpl].
      * change (seg ?h None (a :: ?l) None) with
          ((∃ it, h !! a = Some it ∧ prev it = None ∧ next it = hd_or l None)
           ∧ seg h (Some a) l None).
        split.
        { eexists. rewrite lookup_alter_eq, lookup_alter_ne, Ha by done. done. }
        eapply seg_frame with (h := alter (set_prev (Some a)) hd h0).
        { intros b Hb. rewrite lookup_alter_ne; [done|].
          intros ->. apply Hni. by right. }
        apply seg_set_prev with (p := None); [by inversion Hnd|].
        eapply seg_frame; [|exact Hseg].
        intros b Hb. apply Hfr. by intros ->.
      * done.
      * rewrite Ht. unfold shape_tail. destruct l' as [|b l']; [done|].
        rewrite last_cons_cons.
        destruct (last (b :: l')) eqn:E; [done|]. by apply last_None in E.
    + intros b. by rewrite !value_alter.
Qed.

Lemma insert_value_Rep h ll l s :
  Rep h ll l →
  ∃ h' ll' a, insert h ll (Value s) = (h', ll', a)
    ∧ h !! a = None ∧ Rep h' ll' (a :: l)
    ∧ value <$> h' !! a = Some s
    ∧ (∀ b, b ≠ a → value <$> h' !! b = value <$> h !! b).
Proof.
  intros HR. unfold insert, as_item. set (a := fresh (dom h)).
  assert (Hfresh : h !! a = None) by (apply not_elem_of_dom, is_fresh).
  assert (Hni : a ∉ l).
  { intros Hin. eapply Rep_lookup in Hin; [|done].
    rewrite Hfresh in Hin. by destruct Hin. }
  destruct (link_first_Rep h
    (<[a := {| value := s; prev := None; next := None |}]> h) ll l a s HR Hni)
    as (h' & ll' & Heq & HR' & Hv).
  { by rewrite lookup_insert_eq. }
  { intros b Hb. by rewrite lookup_insert_ne. }
  exists h', ll', a. rewrite Heq. split; [done|]. split; [done|].
  split; [done|]. split.
  - by rewrite Hv, lookup_insert_eq.
  - intros b Hb. by rewrite Hv, lookup_insert_ne.
Qed.

Lemma insert_item_Rep h ll l a :
  Rep h ll l → a ∉ l → is_Some (h !! a) →
  ∃ h' ll', insert h ll (Item a) = (h', ll', a)
    ∧ Rep h' ll' (a :: l)
    ∧ (∀ b, value <$> h' !! b = value <$> h !! b).
Proof.
  intros HR Hni [it Hit]. unfold insert, as_item.
  destruct (link_first_Rep h (alter unlink a h) ll l a (value it) HR Hni)
    as (h' & ll' & Heq & HR' & Hv).
  { by rewrite lookup_alter_eq, Hit. }
  { intros b Hb. by rewrite lookup_alter_ne. }
  exists h', ll'. rewrite Heq. split; [done|]. split; [done|].
  intros b. by rewrite Hv, value_alter.
Qed.

Lemma last_not_first (p : loc) l z : NoDup (p :: l) → last l = Some z → z ≠ p.
Proof.
  intros [Hni _]%NoDup_cons Hl ->. by apply Hni, last_Some_elem_of.
Qed.

Lemma shape_tail_cons p l :
  shape_tail (p :: l) = last l.
Proof. destruct l as [|q l]; [done|]. unfold shape_tail. apply last_cons_cons. Qed.

Lemma remove_pointers ll l1 a l2 :
  NoDup (l1 ++ a :: l2) →
  _head ll = hd_or (l1 ++ a :: l2) None →
  _tail ll = shape_tail (l1 ++ a :: l2) →
  let ll1 :=
    if decide (_tail ll = Some a) then
      {| _head := _head ll;
         _tail := if decide (last l1 = _head ll) then None else last l1 |}
    else ll in
  let ll2 :=
    if decide (_head ll1 = Some a) then
      {| _head := hd_or l2 None;
         _tail := if decide (_tail ll1 = hd_or l2 None) then None
                  else _tail ll1 |}
    else ll1 in
  _head ll2 = hd_or (l1 ++ l2) None ∧ _tail ll2 = shape_tail (l1 ++ l2).
Proof.
  intros Hnd Hh Ht. destruct ll as [hd tl]. simpl in Hh, Ht. subst hd tl.
  destruct l1 as [|p l1].
  - rewrite !app_nil_l. rewrite shape_tail_cons. simpl hd_or.
    apply NoDup_cons in Hnd as [Hni Hnd]. cbv zeta. cbn [_head _tail].
    destruct (decide (last l2 = Some a)) as [Hl|_].
    { exfalso. by apply Hni, last_Some_elem_of. }
    cbn [_head _tail]. rewrite decide_True by done. cbn [_head _tail].
    split; [done|].
    destruct l2 as [|n l2]; [done|]. rewrite shape_tail_cons. simpl hd_or.
    destruct l2 as [|m l2]; [by rewrite decide_True|].
    rewrite last_cons_cons. rewrite decide_False; [done|].
    intros Hl. by eapply last_not_first in Hl.
  - assert (p ≠ a).
    { intros ->. apply NoDup_cons in Hnd as [Hni _]. apply Hni, elem_of_app. right. left. }
    rewrite <- !app_comm_cons, !shape_tail_cons. simpl hd_or.
    rewrite last_app_cons. cbv zeta. cbn [_head _tail].
    destruct l2 as [|n l2].
    + simpl (last [a]). rewrite (decide_True (P := Some a = Some a)) by done.
      cbn [_head _tail].
      rewrite (decide_False (P := Some p = Some a)) by congruence.
      cbn [_head _tail]. split; [done|].
      rewrite app_nil_r. destruct l1 as [|q l1].
      * by rewrite decide_True.
      * rewrite last_cons_cons. rewrite decide_False; [done|]. 
        intros Hl. apply NoDup_app in Hnd as (Hnd & _).
        by eapply last_not_first in Hl.
    + rewrite last_cons_cons.
      destruct (decide (last (n :: l2) = Some a)) as [Hl|_].
      { exfalso. apply last_Some_elem_of in Hl.
        apply NoDup_cons in Hnd as (_ & Hnd).
        apply NoDup_app in Hnd as (_ & _ & Hnd). by apply NoDup_cons in Hnd as []. }
      cbn [_head _tail]. rewrite decide_False by congruence. cbn [_head _tail]. split; [done|].
      by rewrite last_app_cons.
Qed.

Lemma remove_Rep h ll l1 a l2 :
  Rep h ll (l1 ++ a :: l2) →
  ∃ h' ll', remove h ll a = (h', ll')
    ∧ Rep h' ll' (l1 ++ l2)
    ∧ (∀ b, value <$> h' !! b = value <$> h !! b).
Proof.
  intros (Hnd & Hseg & Hh & Ht).
  pose proof Hnd as Hnd0.
  apply NoDup_app in Hnd as (Hnd1 & Hni1 & Hnd2).
  apply NoDup_cons in Hnd2 as (Hni2 & Hnd2).
  assert (Hni1' : a ∉ l1) by (intros Hin; apply (Hni1 _ Hin); left).
  apply seg_app in Hseg as (Hseg1 & (it & Hit & Hp & Hn) & Hseg2).
  simpl in Hseg1.
  eexists _, _. split; [reflexivity|].
  assert (Hgp : get_prev h a = last l1).
  { unfold get_prev. rewrite Hit. simpl. rewrite Hp. unfold last_or. by destruct (last l1). }
  assert (Hgn : get_next h a = hd_or l2 None).
  { unfold get_next. rewrite Hit. simpl. by rewrite Hn. }
  rewrite Hgp.
  set (h1 := match last l1 with Some p => alter (set_next (get_next h a)) p h | None => h end).
  assert (Hh1a : h1 !! a = h !! a).
  { unfold h1. destruct (last l1) as [p|] eqn:Hl; [|done].
    rewrite lookup_alter_ne; [done|]. intros ->. apply Hni1'. by eapply last_Some_elem_of. }
  assert (Hgn1 : get_next h1 a = hd_or l2 None) by (unfold get_next; by rewrite Hh1a, Hit, <- Hn).
  assert (Hgp1 : get_prev h1 a = last l1) by (unfold get_prev in *; by rewrite Hh1a).
  rewrite Hgn1, Hgp1.
  set (h2 := match hd_or l2 None with Some n => alter (set_prev (last l1)) n h1 | None => h1 end).
  assert (Hh2a : h2 !! a = h !! a).
  { unfold h2. destruct l2 as [|n l2]; simpl; [done|].
    rewrite lookup_alter_ne; [done|]. intros ->. apply Hni2. left. }
  assert (Hgn2 : get_next h2 a = hd_or l2 None) by (unfold get_next; by rewrite Hh2a, Hit, <- Hn).
  assert (Hgp2 : get_prev h2 a = last l1) by (unfold get_prev in *; by rewrite Hh2a).
  rewrite Hgn2, Hgp2.
  assert (Hseg1' : seg h2 None l1 (hd_or l2 None)).
  { eapply seg_frame with (h := h1).
    { intros b Hb. unfold h2. destruct l2 as [|n l2]; simpl; [done|].
      rewrite lookup_alter_ne; [done|]. intros ->. apply (Hni1 _ Hb). right. left. }
    unfold h1. destruct l1 as [|p l1 _] using rev_ind; [done|].
    rewrite last_snoc, Hgn. apply seg_set_next with (n := Some a); [|done].
    apply NoDup_app in Hnd1 as (_ & Hd & _). intros Hin. apply (Hd _ Hin). left. }
  assert (Hseg2' : seg h2 (last l1) l2 None).
  { unfold h2. destruct l2 as [|n l2]; simpl hd_or; [done|].
    apply seg_set_prev with (p := Some a); [by apply NoDup_cons in Hnd2 as []|].
    eapply seg_frame; [|done]. intros b Hb. unfold h1.
    destruct (last l1) as [p|] eqn:Hl; [|done].
    rewrite lookup_alter_ne; [done|]. intros ->.
    apply last_Some_elem_of in Hl. apply (Hni1 _ Hl). by right. }
  split; [|].
  - split; [|split].
    + apply NoDup_app. split; [done|]. split; [|done].
      intros b Hb Hb2. apply (Hni1 _ Hb). by right.
    + apply seg_app. split.
      * eapply seg_frame; [|exact Hseg1']. intros b Hb.
        rewrite lookup_alter_ne; [done|]. by intros ->.
      * replace (last_or None l1) with (last l1) by (unfold last_or; by destruct (last l1)).
        eapply seg_frame; [|exact Hseg2']. intros b Hb.
        rewrite lookup_alter_ne; [done|]. by intros ->.
    + apply (remove_pointers ll l1 a l2 Hnd0 Hh Ht).
  - intros b. rewrite value_alter by done.
    assert (Hv2 : value <$> h2 !! b = value <$> h1 !! b).
    { unfold h2. destruct (hd_or l2 None); [|done]. by rewrite value_alter. }
    assert (Hv1 : value <$> h1 !! b = value <$> h !! b).
    { unfold h1. destruct (last l1); [|done]. by rewrite value_alter. }
    by rewrite Hv2, Hv1.
Qed.

End LinkedListFacts.

(** ** ResponseCache: invariant, eviction and expiry *)

Module CacheFacts.
Import LinkedList LinkedListFacts Cache.

Local Arguments remove : simpl never.
Local Arguments insert : simpl never.

Section CacheFacts.
Context {D : Type}.
Implicit Types (c : ResponseCache D) (m : gmap string (Item.ResponseCacheItem D)).

Lemma total_size_empty : total_size (∅ : gmap string (Item.ResponseCacheItem D)) = 0.
Proof. unfold total_size. by rewrite map_fold_empty. Qed.

Lemma total_size_insert m k x :
  m !! k = None → total_size (<[k := x]> m) = Item.size x + total_size m.
Proof.
  intros Hk. unfold total_size. rewrite map_fold_insert_L; [done| |done].
  intros. lia.
Qed.

Lemma total_size_delete m k x :
  m !! k = Some x → total_size (delete k m) = total_size m - Item.size x.
Proof.
  intros Hk. unfold total_size.
  rewrite (map_fold_delete_L _ _ k x m); [lia| |done]. intros. lia.
Qed.

Lemma total_size_update m k x x' :
  m !! k = Some x →
  total_size (<[k := x']> m) = total_size m + (Item.size x' - Item.size x).
Proof.
  intros Hk. rewrite <- insert_delete_eq.
  rewrite total_size_insert by apply lookup_delete_eq.
  rewrite (total_size_delete m k x) by done. lia.
Qed.

Lemma wf_new limit : wf_with (new_ResponseCache limit : ResponseCache D) [].
Proof.
  split; [apply Rep_new|]. split; [|split].
  - intros k x Hk. simpl in Hk. by rewrite lookup_empty in Hk.
  - by intros a Ha%elem_of_nil.
  - simpl. by rewrite total_size_empty.
Qed.

(** Dropping the entry [k], linked at item [a]. *)
Lemma wf_with_remove c l1 a l2 k x h' ll' :
  wf_with c (l1 ++ a :: l2) →
  _map c !! k = Some x → Item.link x = a →
  remove (items c) (_lru c) a = (h', ll') →
  wf_with {| size := size c - Item.size x; sizeLimit := sizeLimit c;
             _map := delete k (_map c); items := h'; _lru := ll' |}
          (l1 ++ l2).
Proof.
  intros (HR & HA & HB & Hsz) Hk Hlk Hrem.
  destruct (remove_Rep _ _ _ _ _ HR) as (h'' & ll'' & Hrem' & HR' & Hv).
  rewrite Hrem in Hrem'. injection Hrem' as <- <-.
  pose proof HR as (Hnd & _).
  split; [done|]. simpl. split; [|split].
  - intros k' x' Hk'. apply lookup_delete_Some in Hk' as [Hne Hk'].
    destruct (HA _ _ Hk') as [Hin Hval]. rewrite Hv. split; [|done].
    destruct (HA _ _ Hk) as [_ Hval0]. rewrite Hlk in Hval0.
    assert (Item.link x' ≠ a) by (intros Heq; rewrite Heq in Hval; congruence).
    rewrite elem_of_app, elem_of_cons in Hin. rewrite elem_of_app. tauto.
  - intros b Hb.
    assert (Hb' : b ∈ l1 ++ a :: l2).
    { rewrite elem_of_app, elem_of_cons. rewrite elem_of_app in Hb. tauto. }
    assert (b ≠ a).
    { intros ->. apply NoDup_app in Hnd as (_ & Hd & Hnd).
      apply NoDup_cons in Hnd as [Hni _]. apply elem_of_app in Hb as [Hb|Hb]; [|done].
      apply (Hd _ Hb). left. }
    destruct (HB _ Hb') as (it & x' & Hit & Hx' & Hl').
    pose proof (Hv b) as Hvb. rewrite Hit in Hvb.
    destruct (h' !! b) as [it'|] eqn:Hit'; [|done]. simpl in Hvb.
    injection Hvb as Hvb. rewrite <- Hvb in Hx'. exists it', x'.
    split; [done|]. split; [|done].
    rewrite lookup_delete_ne; [done|]. intros ->. congruence.
  - rewrite (total_size_delete _ k x) by done. lia.
Qed.


(** Relinking the same items in another order. *)
Lemma wf_with_relink c l h' ll' l' :
  wf_with c l → Rep h' ll' l' →
  (∀ b, value <$> h' !! b = value <$> items c !! b) →
  (∀ b, b ∈ l' ↔ b ∈ l) →
  wf_with {| size := size c; sizeLimit := sizeLimit c; _map := _map c;
             items := h'; _lru := ll' |} l'.
Proof.
  intros (HR & HA & HB & Hsz) HR' Hv Hperm.
  split; [done|]. simpl. split; [|split; [|done]].
  - intros k x Hk. destruct (HA _ _ Hk) as [Hin Hval].
    rewrite Hv, Hperm. done.
  - intros b Hb. apply Hperm in Hb.
    destruct (HB _ Hb) as (it & x & Hit & Hx & Hl).
    pose proof (Hv b) as Hvb. rewrite Hit in Hvb.
    destruct (h' !! b) as [it'|] eqn:Hit'; [|done].
    injection Hvb as Hvb. rewrite <- Hvb in Hx. by exists it', x.
Qed.

Lemma keys_of_app (h : store) l1 l2 :
  keys_of h (l1 ++ l2) = keys_of h l1 ++ keys_of h l2.
Proof. apply omap_app. Qed.

Lemma keys_of_ext (h h' : store) l :
  (∀ b, value <$> h' !! b = value <$> h !! b) → keys_of h' l = keys_of h l.
Proof.
  intros Hv. unfold keys_of. induction l as [|a l IH]; [done|].
  simpl. rewrite Hv. destruct (value <$> h !! a); [f_equal|]; apply IH.
Qed.

Lemma elem_of_keys_of (h : store) l k :
  k ∈ keys_of h l ↔ ∃ a, a ∈ l ∧ value <$> h !! a = Some k.
Proof. apply list_elem_of_omap. Qed.

Lemma lru_keys_wf c l : wf_with c l → lru_keys c = keys_of (items c) l.
Proof. intros (HR & _). unfold lru_keys. by rewrite (Rep_to_list _ _ _ HR). Qed.

Lemma wf_key_in_map c l k :
  wf_with c l → k ∈ keys_of (items c) l ↔ is_Some (_map c !! k).
Proof.
  intros (HR & HA & HB & _). rewrite elem_of_keys_of. split.
  - intros (a & Ha & Hval). destruct (HB _ Ha) as (it & x & Hit & Hx & _).
    rewrite Hit in Hval. injection Hval as <-. by exists x.
  - intros [x Hx]. destruct (HA _ _ Hx) as [Hin Hval]. eauto.
Qed.

Lemma keys_of_take c l j :
  wf_with c l → keys_of (items c) (take j l) = take j (keys_of (items c) l).
Proof.
  intros (_ & _ & HB & _). revert j.
  induction l as [|a l IH]; intros j; [by destruct j|].
  destruct j as [|j]; [done|]. unfold keys_of in *. simpl.
  destruct (HB a) as (it & _ & Hit & _); [left|]. rewrite Hit. simpl.
  f_equal. apply IH. intros b Hb. apply HB. by right.
Qed.


Lemma wf_map_empty c : wf_with c [] → _map c = ∅.
Proof.
  intros (_ & HA & _). apply map_empty. intros k.
  destruct (_map c !! k) as [x|] eqn:Hk; [|done].
  destruct (HA _ _ Hk) as [Hin _]. by apply elem_of_nil in Hin.
Qed.

Lemma stor_evict_wf fuel : ∀ c l,
  wf_with c l → 0 ≤ sizeLimit c → (length l < fuel)%nat →
  ∃ c' j, stor_evict fuel c = Some c'
    ∧ (j ≤ length l)%nat
    ∧ wf_with c' (take j l)
    ∧ sizeLimit c' = sizeLimit c
    ∧ size c' ≤ sizeLimit c
    ∧ _map c' ⊆ _map c
    ∧ (∀ b, value <$> items c' !! b = value <$> items c !! b).
Proof.
  induction fuel as [|fuel IH]; intros c l Hwf Hlim Hlen; [lia|].
  cbn [stor_evict]. destruct (sizeLimit c <? size c) eqn:Hcmp.
  2:{ exists c, (length l). rewrite firstn_all.
      apply Z.ltb_ge in Hcmp. done. }
  pose proof Hwf as (HR & HA & HB & Hsz).
  rewrite (Rep_tail _ _ _ HR).
  destruct l as [|i0 l0 _] using rev_ind.
  { simpl. exists c, 0%nat. apply wf_map_empty in Hwf as Hm.
    rewrite Hm, total_size_empty in Hsz. split; [done|].
    split; [done|]. split; [exact Hwf|]. split; [done|]. split; [lia|]. done. }
  rewrite last_snoc.
  destruct (HB i0) as (it & x & Hit & Hx & Hl).
  { apply elem_of_app. right. left. }
  rewrite Hit, Hx. cbn [size sizeLimit _map items _lru].
  destruct (remove (items c) (_lru c) i0) as [h' ll'] eqn:Hrem.
  pose proof (wf_with_remove c l0 i0 [] _ x h' ll' Hwf Hx Hl Hrem) as Hwf'.
  rewrite app_nil_r in Hwf'.
  destruct (remove_Rep _ _ _ _ _ HR) as (h'' & ll'' & Hrem' & _ & Hv).
  rewrite Hrem in Hrem'. injection Hrem' as <- <-.
  rewrite length_app in Hlen. simpl in Hlen.
  destruct (IH _ l0 Hwf') as (c' & j & Hev & Hj & Hwf'' & Hsl & Hbound & Hsub & Hv');
    [simpl; lia | lia |].
  exists c', j. split; [exact Hev|]. split; [rewrite length_app; lia|].
  split; [by rewrite take_app_le|]. split; [done|]. split; [done|]. split.
  - etrans; [exact Hsub|]. simpl. apply delete_subseteq.
  - intros b. by rewrite Hv', <- Hv.
Qed.

Lemma stor_evict_mono fuel : ∀ fuel' c c',
  stor_evict fuel c = Some c' → (fuel ≤ fuel')%nat →
  stor_evict fuel' c = Some c'.
Proof.
  induction fuel as [|fuel IH]; intros fuel' c c'; cbn [stor_evict].
  - destruct (sizeLimit c <? size c) eqn:Hcmp; [done|].
    intros [= <-] _. destruct fuel'; cbn [stor_evict]; by rewrite Hcmp.
  - intros Hev Hle. destruct fuel' as [|fuel']; [lia|]. cbn [stor_evict].
    destruct (sizeLimit c <? size c); [|done].
    destruct (tail (_lru c)) as [i|]; [|done].
    destruct (items c !! i) as [it|]; [|done].
    destruct (remove _ _ i) as [h ll]. apply IH; [done | lia].
Qed.


Lemma stor_update_wf c l id d sz e :
  wf_with c l →
  ∃ l', wf_with (stor_update c id d sz e) l'
    ∧ sizeLimit (stor_update c id d sz e) = sizeLimit c
    ∧ (length l' ≤ S (length l))%nat.
Proof.
  intros Hwf. pose proof Hwf as (HR & HA & HB & Hsz). unfold stor_update.
  destruct (_map c !! id) as [x|] eqn:Hid.
  - exists l. split; [|split; [done | lia]].
    split; [done|]. cbn [size sizeLimit _map items _lru]. split; [|split].
    + intros k x' Hk. apply lookup_insert_Some in Hk as [[<- <-]|[Hne Hk]].
      * apply (HA _ _ Hid).
      * apply (HA _ _ Hk).
    + intros a Ha. destruct (HB _ Ha) as (it & x0 & Hit & Hx0 & Hl).
      destruct (decide (value it = id)) as [Heq|Hne].
      * eexists it, _. split; [done|]. rewrite Heq, lookup_insert_eq.
        split; [done|]. simpl. congruence.
      * exists it, x0. by rewrite lookup_insert_ne.
    + rewrite (total_size_update _ _ x) by done. simpl. lia.
  - destruct (insert_value_Rep _ _ _ id HR)
      as (h' & ll' & a & Hins & Hfresh & HR' & Hva & Hv).
    rewrite Hins. exists (a :: l). split; [|split; [done | simpl; lia]].
    split; [done|]. cbn [size sizeLimit _map items _lru]. split; [|split].
    + intros k x' Hk. apply lookup_insert_Some in Hk as [[<- <-]|[Hne Hk]].
      * split; [left | done].
      * destruct (HA _ _ Hk) as [Hin Hval]. split; [by right|].
        rewrite Hv; [done|]. intros Heq. rewrite Heq, Hfresh in Hval. done.
    + intros b [->|Hb]%elem_of_cons.
      * destruct (h' !! a) as [it|] eqn:Hit; [|done]. injection Hva as Hva.
        eexists it, _. split; [done|]. by rewrite Hva, lookup_insert_eq.
      * destruct (HB _ Hb) as (it & x0 & Hit & Hx0 & Hl).
        assert (b ≠ a) by (intros ->; congruence).
        pose proof (Hv b H) as Hvb. rewrite Hit in Hvb.
        destruct (h' !! b) as [it'|] eqn:Hit'; [|done].
        injection Hvb as Hvb. rewrite <- Hvb in Hx0. exists it', x0.
        split; [done|]. split; [|done].
        rewrite lookup_insert_ne; [done|]. intros ->. congruence.
    + rewrite total_size_insert by done. simpl. lia.
Qed.

(** [retv] on an expired entry. *)
Lemma retv_expired_wf c l now k x :
  wf_with c l → _map c !! k = Some x →
  JS.ltb (Item.expire x) (JS.Num now) = true →
  ∃ l1 l2 c', l = l1 ++ Item.link x :: l2
    ∧ retv now c k = (None, c')
    ∧ wf_with c' (l1 ++ l2)
    ∧ _map c' = delete k (_map c)
    ∧ size c' = size c - Item.size x
    ∧ sizeLimit c' = sizeLimit c
    ∧ (∀ b, value <$> items c' !! b = value <$> items c !! b).
Proof.
  intros Hwf Hk Hexp. pose proof Hwf as (HR & HA & _).
  destruct (HA _ _ Hk) as [Hin _].
  apply list_elem_of_split in Hin as (l1 & l2 & ->).
  destruct (remove_Rep _ _ _ _ _ HR) as (h' & ll' & Hrem & _ & Hv).
  exists l1, l2. eexists. split; [done|]. unfold retv.
  rewrite Hk, Hexp, Hrem. split; [done|].
  split; [by eapply wf_with_remove|]. done.
Qed.

(** [retv] on a live entry. *)
Lemma retv_live_wf c l now k x :
  wf_with c l → _map c !! k = Some x →
  JS.ltb (Item.expire x) (JS.Num now) = false →
  ∃ l1 l2 c', l = l1 ++ Item.link x :: l2
    ∧ retv now c k = (Some (Item.data x), c')
    ∧ wf_with c' (Item.link x :: l1 ++ l2)
    ∧ _map c' = _map c
    ∧ size c' = size c
    ∧ sizeLimit c' = sizeLimit c.
Proof.
  intros Hwf Hk Hexp. pose proof Hwf as (HR & HA & _).
  destruct (HA _ _ Hk) as [Hin Hval].
  apply list_elem_of_split in Hin as (l1 & l2 & ->).
  destruct (remove_Rep _ _ _ _ _ HR) as (h1 & ll1 & Hrem & HR1 & Hv1).
  destruct HR as (Hnd & _).
  assert (Hni : Item.link x ∉ l1 ++ l2).
  { apply NoDup_app in Hnd as (_ & Hd & Hnd).
    apply NoDup_cons in Hnd as [Hni _].
    intros [Hi|Hi]%elem_of_app; [|done]. apply (Hd _ Hi). left. }
  destruct (insert_item_Rep _ _ _ _ HR1 Hni) as (h2 & ll2 & Hins & HR2 & Hv2).
  { pose proof (Hv1 (Item.link x)) as Hvx. rewrite Hval in Hvx.
    by destruct (h1 !! Item.link x). }
  exists l1, l2. eexists. split; [done|]. unfold retv.
  rewrite Hk, Hexp, Hrem, Hins. split; [done|]. split; [|done].
  eapply wf_with_relink; [exact Hwf | done | |].
  - intros b. by rewrite Hv2, Hv1.
  - intros b. rewrite !elem_of_cons, !elem_of_app, elem_of_cons. tauto.
Qed.

Lemma retv_absent c now k : _map c !! k = None → retv now c k = (None, c).
Proof. intros Hk. unfold retv. by rewrite Hk. Qed.

Lemma retv_wf c now k : wf c → wf (retv now c k).2.
Proof.
  intros [l Hwf]. destruct (_map c !! k) as [x|] eqn:Hk.
  - destruct (JS.ltb (Item.expire x) (JS.Num now)) eqn:Hexp.
    + destruct (retv_expired_wf _ _ _ _ _ Hwf Hk Hexp)
        as (l1 & l2 & c' & _ & -> & Hwf' & _). by eexists.
    + destruct (retv_live_wf _ _ _ _ _ Hwf Hk Hexp)
        as (l1 & l2 & c' & _ & -> & Hwf' & _). by eexists.
  - rewrite retv_absent by done. by exists l.
Qed.

Lemma retv_sizeLimit c now k : sizeLimit (retv now c k).2 = sizeLimit c.
Proof.
  unfold retv. destruct (_map c !! k) as [x|]; [|done].
  destruct (JS.ltb _ _).
  - by destruct (remove _ _ _).
  - destruct (remove _ _ _) as [h l]. by destruct (insert h l _) as [[??]?].
Qed.

Lemma stor_evict_sizeLimit fuel : ∀ c c',
  stor_evict fuel c = Some c' → sizeLimit c' = sizeLimit c.
Proof.
  induction fuel as [|fuel IH]; intros c c'; cbn [stor_evict].
  - destruct (_ <? _); [done|]. by intros [= <-].
  - destruct (_ <? _); [|by intros [= <-]].
    destruct (tail (_lru c)) as [i|]; [|by intros [= <-]].
    destruct (items c !! i) as [it|]; [|done].
    destruct (remove _ _ i) as [h ll]. intros Hev%IH. rewrite Hev.
    cbn [sizeLimit]. by destruct (_map c !! value it).
Qed.

Lemma stor_update_sizeLimit c id d sz e :
  sizeLimit (stor_update c id d sz e) = sizeLimit c.
Proof.
  unfold stor_update. destruct (_map c !! id); [done|].
  by destruct (insert _ _ _) as [[??]?].
Qed.

Lemma stor_sizeLimit fuel c id d sz e c' :
  stor fuel c id d sz e = Some c' → sizeLimit c' = sizeLimit c.
Proof.
  unfold stor. destruct (0 <? _).
  - intros Hev%stor_evict_sizeLimit. by rewrite Hev, stor_update_sizeLimit.
  - intros [= <-]. apply stor_update_sizeLimit.
Qed.

Lemma stor_wf fuel c id d sz e c' :
  wf c → stor fuel c id d sz e = Some c' → wf c'.
Proof.
  intros [l Hwf]. unfold stor.
  destruct (stor_update_wf c l id d sz e Hwf) as (l' & Hwf' & Hsl & _).
  destruct (0 <? sizeLimit (stor_update c id d sz e)) eqn:Hpos.
  2:{ intros [= <-]. by exists l'. }
  intros Hev. apply Z.ltb_lt in Hpos.
  destruct (stor_evict_wf (S (max fuel (length l'))) _ l' Hwf')
    as (c'' & j & Hev' & _ & Hwf'' & _); [lia | lia |].
  rewrite (stor_evict_mono fuel _ _ _ Hev) in Hev' by lia.
  injection Hev' as <-. by eexists.
Qed.

Lemma reachable_wf limit c :
  reachable limit c → wf c ∧ sizeLimit c = limit.
Proof.
  induction 1 as [|c fuel id d sz e c' _ [IHwf IHl] Hst|c now id _ [IHwf IHl]].
  - split; [|done]. eexists. apply wf_new.
  - split; [by eapply stor_wf|]. by rewrite (stor_sizeLimit _ _ _ _ _ _ _ Hst).
  - split; [by apply retv_wf|]. by rewrite retv_sizeLimit.
Qed.

(** Eviction never reads an expiry time. *)
Lemma stor_evict_restamp fuel : ∀ g c,
  stor_evict fuel (restamp g c) = restamp g <$> stor_evict fuel c.
Proof.
  induction fuel as [|fuel IH]; intros g c; cbn [stor_evict].
  - cbn [restamp size sizeLimit]. by destruct (_ <? _).
  - cbn [restamp size sizeLimit _map items _lru].
    destruct (_ <? _); [|done].
    destruct (tail (_lru c)) as [i|]; [|done].
    destruct (items c !! i) as [it|]; [|done].
    rewrite lookup_fmap. destruct (_map c !! value it) as [x|];
      cbn [fmap option_fmap option_map size sizeLimit _map items _lru
           Item.size Item.set_expire restamp].
    + destruct (remove (items c) (_lru c) i) as [h ll]. rewrite <- IH.
      unfold restamp. cbn [size sizeLimit _map items _lru].
      by rewrite fmap_delete.
    + destruct (remove (items c) (_lru c) i) as [h ll]. rewrite <- IH.
      reflexivity.
Qed.


Lemma stor_returns limit c id d sz e :
  reachable limit c →
  ∃ n, ∀ fuel, (n ≤ fuel)%nat → is_Some (stor fuel c id d sz e).
Proof.
  intros [[l Hwf] _]%reachable_wf.
  destruct (stor_update_wf c l id d sz e Hwf) as (l' & Hwf' & _).
  exists (S (length l')). intros fuel Hfuel. unfold stor.
  destruct (0 <? _) eqn:Hpos; [|by eexists]. apply Z.ltb_lt in Hpos.
  destruct (stor_evict_wf fuel _ l' Hwf') as (c' & _ & -> & _); [lia..|].
  by eexists.
Qed.

Lemma keys_of_lookup c l j k :
  wf_with c l →
  keys_of (items c) l !! j = Some k
  ↔ ∃ a, l !! j = Some a ∧ value <$> items c !! a = Some k.
Proof.
  intros (_ & _ & HB & _). revert j.
  induction l as [|a l IH]; intros j.
  { split; [done|]. by intros (a & Ha & _). }
  destruct (HB a) as (it & _ & Hit & _); [left|].
  unfold keys_of in *. cbn [omap list_omap]. rewrite Hit. cbn [fmap option_fmap option_map].
  destruct j as [|j]; cbn [lookup list_lookup].
  - split.
    + intros [= <-]. exists a. by rewrite Hit.
    + intros (a' & [= <-] & Hv). rewrite Hit in Hv. done.
  - apply IH. intros b Hb. apply HB. by right.
Qed.

Lemma keys_of_length c l :
  wf_with c l → length (keys_of (items c) l) = length l.
Proof.
  intros (_ & _ & HB & _).
  induction l as [|a l IH]; [done|].
  destruct (HB a) as (it & _ & Hit & _); [left|].
  unfold keys_of in *. cbn [omap list_omap]. rewrite Hit. simpl. f_equal.
  apply IH. intros b Hb. apply HB. by right.
Qed.

(** The eviction loop stops as soon as the size is within the limit: it
    drops nothing from a cache that fits, and the item it dropped last was
    dropped because the size exceeded the limit. *)
Lemma stor_evict_stops fuel : ∀ c l,
  wf_with c l → 0 ≤ sizeLimit c → (length l < fuel)%nat →
  ∃ c' j, stor_evict fuel c = Some c'
    ∧ (j ≤ length l)%nat
    ∧ wf_with c' (take j l)
    ∧ (j = length l → c' = c)
    ∧ (∀ a it x, l !! j = Some a → items c !! a = Some it →
         _map c !! value it = Some x → sizeLimit c < size c' + Item.size x).
Proof.
  induction fuel as [|fuel IH]; intros c l Hwf Hlim Hlen; [lia|].
  cbn [stor_evict]. destruct (sizeLimit c <? size c) eqn:Hcmp.
  2:{ exists c, (length l). rewrite firstn_all. split; [done|].
      split; [done|]. split; [done|]. split; [done|].
      intros a it x Ha. apply lookup_lt_Some in Ha. lia. }
  apply Z.ltb_lt in Hcmp.
  pose proof Hwf as (HR & HA & HB & Hsz).
  rewrite (Rep_tail _ _ _ HR).
  destruct l as [|i0 l0 _] using rev_ind.
  { simpl. exists c, 0%nat. split; [done|]. split; [done|].
    split; [exact Hwf|]. split; [done|]. intros a it x Ha. done. }
  rewrite last_snoc.
  destruct (HB i0) as (it0 & x0 & Hit0 & Hx0 & Hl0).
  { apply elem_of_app. right. left. }
  rewrite Hit0, Hx0. cbn [size sizeLimit _map items _lru].
  destruct (remove (items c) (_lru c) i0) as [h' ll'] eqn:Hrem.
  pose proof (wf_with_remove c l0 i0 [] _ x0 h' ll' Hwf Hx0 Hl0 Hrem) as Hwf'.
  rewrite app_nil_r in Hwf'.
  destruct (remove_Rep _ _ _ _ _ HR) as (h'' & ll'' & Hrem' & _ & Hv).
  rewrite Hrem in Hrem'. injection Hrem' as <- <-.
  rewrite length_app in Hlen. simpl in Hlen.
  destruct (IH _ l0 Hwf') as (c' & j & Hev & Hj & Hwf'' & Hsame & Hlast);
    [simpl; lia | lia |].
  exists c', j. split; [exact Hev|]. split; [rewrite length_app; lia|].
  split; [by rewrite take_app_le|]. split.
  { rewrite length_app. simpl. lia. }
  intros a it x Ha Hit Hx.
  destruct (decide (j = length l0)) as [->|Hne].
  - rewrite lookup_app_r, Nat.sub_diag in Ha by lia. injection Ha as <-.
    rewrite Hit0 in Hit. injection Hit as <-. rewrite Hx0 in Hx.
    injection Hx as <-. rewrite (Hsame eq_refl). cbn [size]. lia.
  - rewrite lookup_app_l in Ha by lia.
    assert (Hin : a ∈ l0) by (by eapply list_elem_of_lookup_2).
    assert (Hai : a ≠ i0).
    { intros ->. destruct HR as (Hnd & _).
      apply NoDup_app in Hnd as (_ & Hd & _). apply (Hd _ Hin). left. }
    assert (Hkey : value it ≠ value it0).
    { intros Heq. destruct (HB a) as (it' & x' & Hit' & Hx' & Hl').
      { apply elem_of_app. by left. }
      rewrite Hit in Hit'. injection Hit' as <-.
      rewrite Heq, Hx0 in Hx'. injection Hx' as <-. congruence. }
    pose proof (Hv a) as Hva. rewrite Hit in Hva.
    destruct (h' !! a) as [it1|] eqn:Hit1; [|done].
    injection Hva as Hva.
    apply (Hlast a it1 x Ha).
    + done.
    + cbn [_map]. rewrite Hva. by rewrite lookup_delete_ne.
Qed.

(** What [stor] keeps when the limit is positive. *)
Lemma stor_restores_bound limit c id d sz e :
  0 < limit → reachable limit c →
  ∃ n, ∀ fuel, (n ≤ fuel)%nat →
    ∃ c' j, stor fuel c id d sz e = Some c'
      ∧ size c' = total_size (_map c')
      ∧ size c' ≤ limit
      ∧ lru_keys c' = take j (lru_keys (stor_update c id d sz e))
      ∧ (∀ k, _map c' !! k =
              if decide (k ∈ lru_keys c')
              then _map (stor_update c id d sz e) !! k else None)
      ∧ (j = length (lru_keys (stor_update c id d sz e)) →
         c' = stor_update c id d sz e)
      ∧ (∀ k x, lru_keys (stor_update c id d sz e) !! j = Some k →
           _map (stor_update c id d sz e) !! k = Some x →
           limit < size c' + Item.size x)
      ∧ (∀ g, stor_evict fuel (restamp g (stor_update c id d sz e))
              = Some (restamp g c')).
Proof.
  intros Hpos [[l Hwf] Hlim]%reachable_wf.
  destruct (stor_update_wf c l id d sz e Hwf) as (l' & Hwf' & Hsl & _).
  exists (S (length l')). intros fuel Hfuel.
  destruct (stor_evict_wf fuel _ l' Hwf')
    as (c' & j & Hev & Hj & Hwf'' & Hsl' & Hbound & Hsub & Hv); [lia | lia |].
  destruct (stor_evict_stops fuel _ l' Hwf')
    as (c2 & j2 & Hev2 & Hj2 & Hwf2 & Hsame & Hlast); [lia | lia |].
  rewrite Hev in Hev2. injection Hev2 as <-.
  assert (Hjj : j2 = j).
  { pose proof Hwf'' as (HR1 & _). pose proof Hwf2 as (HR2 & _).
    pose proof (Rep_to_list _ _ _ HR1) as E1.
    rewrite (Rep_to_list _ _ _ HR2) in E1.
    apply (f_equal length) in E1. rewrite !length_take in E1. lia. }
  subst j2.
  exists c', j. unfold stor. rewrite Hsl, Hlim.
  replace (0 <? limit) with true by (symmetry; by apply Z.ltb_lt).
  split; [done|]. split; [apply Hwf''|]. split; [lia|].
  assert (Hkeys : lru_keys c' = take j (lru_keys (stor_update c id d sz e))).
  { rewrite (lru_keys_wf _ _ Hwf''), (lru_keys_wf _ _ Hwf').
    rewrite <- (keys_of_take _ _ _ Hwf'). by apply keys_of_ext. }
  split; [done|]. split; [|split; [|split]].
  - intros k. rewrite (lru_keys_wf _ _ Hwf'').
    case_decide as Hk.
    + apply (wf_key_in_map _ _ _ Hwf'') in Hk as [x Hx]. rewrite Hx.
      symmetry. by eapply lookup_weaken.
    + destruct (_map c' !! k) as [x|] eqn:Hx; [|done].
      exfalso. apply Hk, (wf_key_in_map _ _ _ Hwf''). by exists x.
  - rewrite (lru_keys_wf _ _ Hwf'), (keys_of_length _ _ Hwf'). exact Hsame.
  - intros k x Hk Hx. rewrite (lru_keys_wf _ _ Hwf') in Hk.
    apply (keys_of_lookup _ _ _ _ Hwf') in Hk as (a & Ha & Hval).
    destruct (items (stor_update c id d sz e) !! a) as [it|] eqn:Hit; [|done].
    injection Hval as <-. rewrite <- Hlim, <- Hsl.
    by apply (Hlast a it x).
  - intros g. by rewrite stor_evict_restamp, Hev.
Qed.

(** C9.  On a cache that the server can hold: [retv] of a key whose entry
    expired strictly before [now] reports absent, deletes the key from the
    map, unlinks it from the LRU list (the other keys keep their order) and
    lowers [size] by the size of the entry; [retv] of a key that is not in
    the cache reports absent and returns the cache unchanged. *)
Theorem retv_expired_or_absent limit c now k :
  reachable limit c →
  (∀ x t, _map c !! k = Some x → Item.expire x = JS.Num t → t < now →
     ∃ l1 l2, lru_keys c = l1 ++ k :: l2
       ∧ (retv now c k).1 = None
       ∧ _map (retv now c k).2 = delete k (_map c)
       ∧ lru_keys (retv now c k).2 = l1 ++ l2
       ∧ (k ∉ l1 ++ l2)
       ∧ size (retv now c k).2 = size c - Item.size x)
  ∧ (_map c !! k = None → retv now c k = (None, c)).
Proof.
  intros [[l Hwf] _]%reachable_wf. split; [|apply retv_absent].
  intros x t Hk Hexp Ht.
  destruct (retv_expired_wf c l now k x Hwf Hk)
    as (l1 & l2 & c' & -> & Hret & Hwf' & Hmap & Hsz & _ & Hv).
  { rewrite Hexp. by apply Z.ltb_lt. }
  rewrite Hret. cbn [fst snd].
  exists (keys_of (items c) l1), (keys_of (items c) l2).
  pose proof Hwf as (_ & HA & _). destruct (HA _ _ Hk) as [_ Hval].
  assert (Hk' : lru_keys c' = keys_of (items c) l1 ++ keys_of (items c) l2).
  { rewrite (lru_keys_wf _ _ Hwf'), (keys_of_ext _ _ _ Hv). apply keys_of_app. }
  split.
  { rewrite (lru_keys_wf _ _ Hwf), keys_of_app. f_equal.
    unfold keys_of at 1. simpl. by rewrite Hval. }
  split; [done|]. split; [done|]. split; [done|]. split; [|done].
  rewrite <- Hk', (lru_keys_wf _ _ Hwf').
  rewrite (wf_key_in_map _ _ _ Hwf'), Hmap, lookup_delete_eq.
  by intros [? ?].
Qed.

End CacheFacts.

Lemma retv_expired_or_absent_witness :
  (∀ x t, _map Examples.cache_AB !! "A" = Some x →
     Item.expire x = JS.Num t → t < 100 →
     ∃ l1 l2, lru_keys Examples.cache_AB = l1 ++ "A" :: l2
       ∧ (retv 100 Examples.cache_AB "A").1 = None
       ∧ _map (retv 100 Examples.cache_AB "A").2
         = delete "A" (_map Examples.cache_AB)
       ∧ lru_keys (retv 100 Examples.cache_AB "A").2 = l1 ++ l2
       ∧ ("A" ∉ l1 ++ l2)
       ∧ size (retv 100 Examples.cache_AB "A").2
         = size Examples.cache_AB - Item.size x)
  ∧ (_map Examples.cache_AB !! "A" = None →
     retv 100 Examples.cache_AB "A" = (None, Examples.cache_AB)).
Proof.
  apply (retv_expired_or_absent 1000 Examples.cache_AB 100 "A").
  apply (reach_stor 1000 Examples.cache_A 3 "B" () 100 (JS.Num 60));
    [|vm_compute; reflexivity].
  apply (reach_stor 1000 (new_ResponseCache 1000) 2 "A" () 100 (JS.Num 50));
    [apply reach_new | vm_compute; reflexivity].
Defined.

(** C1 (fails on the code).  On a cache that a server with a positive size
    limit can hold, every [stor] returns (any fuel above a bound gives the
    same result); afterwards the recorded [size] is the sum of the sizes of
    the stored entries and is at most the limit; the entries that were
    dropped are a suffix of the list [_lru], and no more of them than
    needed: nothing is dropped when the size fits, and the entry dropped
    last was dropped because the size still exceeded the limit; no expiry
    time is read.  But the list is not in the order of use, because [stor]
    of a key that is present leaves the key where it is.  With limit 1000
    and the entries [A], [B], [C] of 100 bytes each, stored in this order,
    storing [A] again leaves [A] at the tail, and storing [D] of 750 bytes
    then drops [A], the entry used last before [D], and keeps [B] and [C].
    Had [A] been read with [retv] instead, it would have moved to the head,
    and [B], the least recently used entry, would have been dropped. *)
Theorem stor_evicts_by_list_position :
  (∀ D limit (c : ResponseCache D) id d sz e,
     0 < limit → reachable limit c →
     ∃ n, ∀ fuel, (n ≤ fuel)%nat →
       ∃ c' j, stor fuel c id d sz e = Some c'
         ∧ size c' = total_size (_map c')
         ∧ size c' ≤ limit
         ∧ lru_keys c' = take j (lru_keys (stor_update c id d sz e))
         ∧ (∀ k, _map c' !! k =
                 if decide (k ∈ lru_keys c')
                 then _map (stor_update c id d sz e) !! k else None)
         ∧ (j = length (lru_keys (stor_update c id d sz e)) →
            c' = stor_update c id d sz e)
         ∧ (∀ k x, lru_keys (stor_update c id d sz e) !! j = Some k →
              _map (stor_update c id d sz e) !! k = Some x →
              limit < size c' + Item.size x)
         ∧ (∀ g, stor_evict fuel (restamp g (stor_update c id d sz e))
                 = Some (restamp g c')))
  ∧ lru_keys Examples.cache_ABC = ["C"; "B"; "A"]
  ∧ (lru_keys <$> stor 4 Examples.cache_ABC "A" () 100 (JS.Num 80))
    = Some ["C"; "B"; "A"]
  ∧ (lru_keys <$> (stor 4 Examples.cache_ABC "A" () 100 (JS.Num 80)
                   ≫= λ c, stor 5 c "D" () 750 (JS.Num 90)))
    = Some ["D"; "C"; "B"]
  ∧ (retv 10 Examples.cache_ABC "A").1 = Some ()
  ∧ lru_keys (retv 10 Examples.cache_ABC "A").2 = ["A"; "C"; "B"]
  ∧ (lru_keys <$> stor 5 (retv 10 Examples.cache_ABC "A").2 "D" () 750
                    (JS.Num 90))
    = Some ["D"; "A"; "C"].
Proof.
  split; [intros D limit c id d sz e; apply stor_restores_bound|].
  repeat split; vm_compute; reflexivity.
Qed.

Lemma stor_update_present_keeps_lru {D} (c : ResponseCache D) id d sz e x :
  _map c !! id = Some x →
  _lru (stor_update c id d sz e) = _lru c
  ∧ items (stor_update c id d sz e) = items c.
Proof. intros Hx. unfold stor_update. by rewrite Hx. Qed.

(** C3 (fails on the code).  When the key is present, [stor] replaces the
    descriptor, the size and the expiry of the entry and adjusts the total,
    but it leaves the LRU list as it is: the entry is not moved to the head.
    With limit 1000 and the entries [A] and [B] of 100 bytes each ([B] more
    recent), [stor("A", _, 950, _)] leaves [A] at the tail, and the eviction
    that follows drops [A], the entry that was just stored, and keeps [B]. *)
Theorem stor_update_keeps_lru_position :
  (∀ D (c : ResponseCache D) id d sz e x,
     _map c !! id = Some x →
     _lru (stor_update c id d sz e) = _lru c
     ∧ items (stor_update c id d sz e) = items c
     ∧ lru_keys (stor_update c id d sz e) = lru_keys c)
  ∧ lru_keys Examples.cache_AB = ["B"; "A"]
  ∧ lru_keys (stor_update Examples.cache_AB "A" () 950 (JS.Num 70)) = ["B"; "A"]
  ∧ (lru_keys <$> stor 3 Examples.cache_AB "A" () 950 (JS.Num 70)) = Some ["B"]
  ∧ ((λ c, _map c !! "A") <$> stor 3 Examples.cache_AB "A" () 950 (JS.Num 70))
    = Some None.
Proof.
  split.
  { intros D c id d sz e x Hx.
    destruct (stor_update_present_keeps_lru c id d sz e x Hx) as [Hl Hi].
    unfold lru_keys. by rewrite Hl, Hi. }
  split; [vm_compute; reflexivity|]. split; [vm_compute; reflexivity|].
  split; vm_compute; reflexivity.
Qed.

End CacheFacts.

(** ** Queue *)

Module QueueFacts.
Import Queue.

Lemma length_is_NaN {A} (q : Queue A) : __length q = JS.NaN.
Proof. unfold __length, head_property. by destruct (_tail q). Qed.

Lemma add_keeps_capacity {A} (q : Queue A) (x : A) :
  capacity (add q x) = capacity q ∧ _head (add q x) = _head q.
Proof. unfold add. by rewrite length_is_NaN. Qed.

(** C10 (fails on the code).  [add] never extends the ring buffer: the
    length it compares with the capacity is [NaN], so the capacity and the
    head never change.  A queue of capacity 2 that received two items looks
    empty ([fetch] gives [undefined], not the first item), and a third item
    overwrites the first one. *)
Theorem queue_add_never_extends :
  (∀ A (q : Queue A) (x : A), capacity (add q x) = capacity q)
  ∧ (fetch (add (add (new_Queue 2) 1) 2)).1 = None
  ∧ (fetch (add (add (add (new_Queue 2) 1) 2) 3)).1 = Some 3.
Proof.
  split; [intros; apply add_keeps_capacity|]. split; reflexivity.
Qed.

End QueueFacts.

(** ** Hooks: execution, reload and priorities *)

Module HooksFacts.
Import Hooks Examples.

Lemma delHooks_loop_keeps signature rest : ∀ kept,
  delHooks_loop signature kept rest = kept ++ rest.
Proof.
  induction rest as [|hook rest IH]; intros kept; simpl.
  - by rewrite app_nil_r.
  - rewrite IH. by rewrite <- app_assoc.
Qed.

(** C4 (fails on the code).  The continuation that [call] installs re-enters
    [call] with the argument list spread, so the resumed run receives the
    first argument of the original invocation in place of the argument
    list.  For the chain of an asynchronous and a synchronous function: with
    the arguments of a site-default hook (the first one a string) the resumed
    run throws before the synchronous function runs; with the arguments of a
    URI hook the synchronous function sees the continuation value as
    [_lastResult] but is applied to no arguments at all. *)
Theorem call_resume_loses_arguments :
  (∀ hooks ctx catMask l v tr,
     callback ctx = resume catMask (JS.VArray l) →
     invoke_callback hooks ctx v tr
     = call hooks catMask (set_lastResult v ctx) (List.nth 0 l JS.VUndefined) tr)
  ∧ (∃ ctx tr,
       callHook chain_async_sync 1 args_default = Suspended ctx tr
       ∧ tr = [mkInv 0 JS.VUndefined args_default]
       ∧ invoke_callback chain_async_sync ctx (JS.VObject 9) tr = Threw tr)
  ∧ (∃ ctx tr ctx',
       callHook chain_async_sync 1 args_uri = Suspended ctx tr
       ∧ tr = [mkInv 0 JS.VUndefined args_uri]
       ∧ invoke_callback chain_async_sync ctx (JS.VObject 9) tr
         = Finished ctx' (tr ++ [mkInv 1 (JS.VObject 9) []])).
Proof.
  split.
  { intros hooks ctx catMask l v tr Hcb. unfold invoke_callback.
    by rewrite Hcb. }
  split.
  - eexists _, _. split; [reflexivity|]. split; reflexivity.
  - eexists _, _, _. split; [reflexivity|]. split; reflexivity.
Qed.

(** C5 (fails on the code).  [delHooks] compares the [src] property of the
    array of hooks, which does not exist, with the signature, so it removes
    nothing.  After a module stops exporting its function for a hook, the
    reload leaves that function in the chain (the table of the chains being
    where the merge reads it, in the field [_hooks]). *)
Theorem reload_keeps_stale_functions :
  (∀ hooks signature, delHooks hooks signature = hooks)
  ∧ (let stale := hook "a.hook.js" "x" 0 (-1) in
     let table : gmap string (list HookFunc) := {[ "x" := [stale] ]} in
     (∃ table',
        __mergeHooksIntoTable (Some table) [("a.hook.js", Some [])]
        = Merged (Some table')
        ∧ table' !! "x" = Some [stale])
     ∧ (∃ table',
          __mergeHooksIntoTable (Some table)
            [("a.hook.js", Some [("hS_y", ExCallable (echo JS.VUndefined))])]
          = Merged (Some table')
          ∧ table' !! "x" = Some [stale])).
Proof.
  split; [intros; apply delHooks_loop_keeps|].
  split; (eexists; split; [reflexivity|]; vm_compute; reflexivity).
Qed.

Lemma hook_of_export_priority sign prio i e h :
  hook_of_export sign prio i e = Some h → priority h = JS.VNumber prio.
Proof.
  unfold hook_of_export. destruct (HOOK_FUNC_REGEX_V2_exec i); [|done].
  destruct e; [|done]. by intros [= <-].
Qed.

(** C6 (fails on the code).  The loader tests the type of the exported
    function, not of its [priority], so it gives every discovered function
    the module-wide priority, also when the function declares a numeric
    priority of its own: the echo hook of the examples declares 5 and is
    registered with 0. *)
Theorem declared_priority_is_overwritten :
  (∀ sign mod_ h,
     h ∈ __getHooksFromModule sign (Some mod_) →
     priority h =
     JS.VNumber match module_priority mod_ with
                | ExValue (JS.VNumber n) => n
                | _ => JS.Num 0
                end)
  ∧ (declared_priority ∘ fn) <$>
      __getHooksFromModule "echo.hook.js" (Some echo_module)
    = [JS.VNumber (JS.Num 5)]
  ∧ priority <$> __getHooksFromModule "echo.hook.js" (Some echo_module)
    = [JS.VNumber (JS.Num 0)].
Proof.
  split; [|split; reflexivity].
  intros sign mod_ h Hin. unfold __getHooksFromModule in Hin.
  apply list_elem_of_omap in Hin as ([i e] & _ & Hh).
  by eapply hook_of_export_priority.
Qed.

End HooksFacts.

(** ** Hooks: category matching *)

Module MatchFacts.
Import Hooks Examples.

Lemma toInt32_small z : - 2 ^ 31 <= z < 2 ^ 31 → JS.toInt32 z = z.
Proof. intros Hz. unfold JS.toInt32. rewrite Z.mod_small; lia. Qed.

Lemma included_inclusive catMask hook :
  included inclusive catMask hook = true
  ↔ Z.land (JS.toInt32 (cat hook)) (JS.toInt32 catMask) ≠ 0.
Proof.
  unfold included, compare, inclusiveMatchFunc, JS.and32. simpl.
  rewrite negb_true_iff, Z.eqb_neq. done.
Qed.

Lemma included_strict catMask hook :
  included strict catMask hook = true
  ↔ JS.toInt32 (cat hook) = JS.toInt32 catMask.
Proof.
  unfold included, compare, strictMatchFunc, JS.xor32. simpl.
  rewrite Z.eqb_eq. apply Z.lxor_eq_0_iff.
Qed.

Lemma set_lastResult_compare v ctx :
  _compareFunc (set_lastResult v ctx) = _compareFunc ctx.
Proof. done. Qed.

Lemma dispatch_loop_trace l catMask : ∀ hooks i ctx tr,
  Forall policy_ok hooks →
  ∃ ctx' tr',
    dispatch_loop hooks i catMask ctx (JS.VArray l) tr = Finished ctx' (tr ++ tr')
    ∧ inv_index <$> tr' = included_from i (_compareFunc ctx) catMask hooks.
Proof.
  induction hooks as [|hook rest IH]; intros i ctx tr Hok.
  { exists ctx, []. by rewrite app_nil_r. }
  apply Forall_cons in Hok as [Hp Hok]. cbn [dispatch_loop included_from].
  fold (included (_compareFunc ctx) catMask hook).
  destruct (included (_compareFunc ctx) catMask hook); cbn [app].
  2:{ apply IH; done. }
  destruct Hp as [Hp|[Hp|Hp]]; rewrite Hp; cbn [apply_args].
  - edestruct (IH (S i)) as (ctx' & tr' & -> & Htr); [done|].
    eexists ctx', (_ :: tr'). rewrite <- app_assoc. split; [done|].
    rewrite fmap_cons, Htr. done.
  - edestruct (IH (S i)) as (ctx' & tr' & -> & Htr); [done|].
    eexists ctx', (_ :: tr'). rewrite <- app_assoc. split; [done|].
    rewrite fmap_cons, Htr. done.
  - edestruct (IH (S i)) as (ctx' & tr' & -> & Htr); [done|].
    eexists ctx', (_ :: tr'). rewrite <- app_assoc. split; [done|].
    rewrite fmap_cons, Htr. done.
Qed.

Lemma call_loop_trace l catMask : ∀ hooks i ctx tr,
  Forall policy_ok hooks →
  ∃ k,
    inv_index <$> trace_of (call_loop hooks i catMask ctx (JS.VArray l) tr)
    = (inv_index <$> tr)
      ++ take k (included_from i (_compareFunc ctx) catMask hooks)
    ∧ (∀ ctx' tr',
         call_loop hooks i catMask ctx (JS.VArray l) tr = Finished ctx' tr' →
         take k (included_from i (_compareFunc ctx) catMask hooks)
         = included_from i (_compareFunc ctx) catMask hooks).
Proof.
  induction hooks as [|hook rest IH]; intros i ctx tr Hok.
  { exists 0%nat. simpl. by rewrite app_nil_r. }
  apply Forall_cons in Hok as [Hp Hok]. cbn [call_loop included_from].
  fold (included (_compareFunc ctx) catMask hook).
  destruct (included (_compareFunc ctx) catMask hook); cbn [app].
  2:{ apply IH; done. }
  destruct Hp as [Hp|[Hp|Hp]]; rewrite Hp; cbn [apply_args].
  - edestruct (IH (S i)) as (k & Htr & Hfin); [done|].
    exists (S k). rewrite Htr, fmap_app, <- app_assoc. split; [done|].
    intros ctx' tr' Hfin'. cbn [take]. f_equal. by eapply Hfin.
  - edestruct (IH (S i)) as (k & Htr & Hfin); [done|].
    exists (S k). rewrite Htr, fmap_app, <- app_assoc. split; [done|].
    intros ctx' tr' Hfin'. cbn [take]. f_equal. by eapply Hfin.
  - exists 1%nat. cbn [trace_of]. rewrite fmap_app. split; [|done].
    done.
Qed.

(** C8, as the code has it.  For a chain whose functions carry the
    execution policies that the loader assigns, and every requested mask:
    inclusive matching includes a function iff the bitwise AND of its mask
    and the requested mask (as 32-bit integers) is not zero, so a function
    without categories (mask -1) is included iff the requested mask is not
    zero; strict matching includes it iff the two masks are equal as 32-bit
    integers (numbers in the 32-bit range are such integers themselves).
    [runHook] and [runHookStrict] run exactly the included functions, in
    chain order; [callHook] and [callHookStrict] run them in chain order up
    to the first asynchronous one, and all of them when the run finishes.
    For the chain with masks 1, 2, 3 and -1 and the requested mask 1,
    inclusive matching selects 1, 3 and -1, and strict matching selects 1. *)
Theorem chain_includes_matching_functions hooks catMask args :
  Forall policy_ok hooks →
  (∀ hook, included inclusive catMask hook = true
           ↔ Z.land (JS.toInt32 (cat hook)) (JS.toInt32 catMask) ≠ 0)
  ∧ (∀ hook, cat hook = -1 →
       included inclusive catMask hook = true ↔ JS.toInt32 catMask ≠ 0)
  ∧ (∀ hook, included strict catMask hook = true
             ↔ JS.toInt32 (cat hook) = JS.toInt32 catMask)
  ∧ (∀ z, - 2 ^ 31 <= z < 2 ^ 31 → JS.toInt32 z = z)
  ∧ (∃ ctx tr, runHook hooks catMask args = Finished ctx tr
       ∧ inv_index <$> tr = included_from 0 inclusive catMask hooks)
  ∧ (∃ ctx tr, runHookStrict hooks catMask args = Finished ctx tr
       ∧ inv_index <$> tr = included_from 0 strict catMask hooks)
  ∧ (∃ k, inv_index <$> trace_of (callHook hooks catMask args)
          = take k (included_from 0 inclusive catMask hooks)
       ∧ ∀ ctx tr, callHook hooks catMask args = Finished ctx tr →
           inv_index <$> tr = included_from 0 inclusive catMask hooks)
  ∧ (∃ k, inv_index <$> trace_of (callHookStrict hooks catMask args)
          = take k (included_from 0 strict catMask hooks)
       ∧ ∀ ctx tr, callHookStrict hooks catMask args = Finished ctx tr →
           inv_index <$> tr = included_from 0 strict catMask hooks)
  ∧ cat <$> filter (λ h, included inclusive 1 h = true) chain_masks
    = [1; 3; -1]
  ∧ cat <$> filter (λ h, included strict 1 h = true) chain_masks = [1].
Proof.
  intros Hok.
  split; [intros; apply included_inclusive|].
  split.
  { intros hook Hcat. rewrite included_inclusive, Hcat.
    change (JS.toInt32 (-1)) with (-1). by rewrite Z.land_m1_l. }
  split; [intros; apply included_strict|].
  split; [apply toInt32_small|].
  split.
  { destruct (dispatch_loop_trace args catMask hooks 0
                (createContext JS.VUndefined) [] Hok) as (ctx & tr & Hd & Htr).
    by exists ctx, tr. }
  split.
  { destruct (dispatch_loop_trace args catMask hooks 0
                (mkContext JS.VUndefined dummy 0 strict) [] Hok)
      as (ctx & tr & Hd & Htr).
    by exists ctx, tr. }
  split.
  { change (callHook hooks catMask args)
      with (call_loop hooks 0 catMask (createContext JS.VUndefined)
              (JS.VArray args) []).
    destruct (call_loop_trace args catMask hooks 0
                (createContext JS.VUndefined) [] Hok) as (k & Htr & Hfin).
    cbn [createContext _compareFunc] in Htr, Hfin.
    rewrite fmap_nil, app_nil_l in Htr.
    exists k. split; [exact Htr|]. intros ctx tr Hf.
    rewrite <- (Hfin _ _ Hf), <- Htr, Hf. done. }
  split.
  { change (callHookStrict hooks catMask args)
      with (call_loop hooks 0 catMask (mkContext JS.VUndefined dummy 0 strict)
              (JS.VArray args) []).
    destruct (call_loop_trace args catMask hooks 0
                (mkContext JS.VUndefined dummy 0 strict) [] Hok)
      as (k & Htr & Hfin).
    cbn [createContext _compareFunc] in Htr, Hfin.
    rewrite fmap_nil, app_nil_l in Htr.
    exists k. split; [exact Htr|]. intros ctx tr Hf.
    rewrite <- (Hfin _ _ Hf), <- Htr, Hf. done. }
  split; reflexivity.
Qed.

(** C8, as stated, fails for the requested mask 0: a function without
    categories is not included, and nothing runs. *)
Lemma categoryless_not_included_for_mask_0 :
  included inclusive 0 (hook "m" "t" 0 (-1)) = false
  ∧ trace_of (runHook [hook "m" "t" 0 (-1)] 0 []) = [].
Proof. split; reflexivity. Qed.

Lemma chain_includes_matching_functions_witness :
  ∃ ctx tr, runHook chain_masks 1 [] = Finished ctx tr
    ∧ inv_index <$> tr = included_from 0 inclusive 1 chain_masks.
Proof.
  refine (proj1 (proj2 (proj2 (proj2 (proj2
    (chain_includes_matching_functions chain_masks 1 [] _)))))).
  repeat constructor.
Defined.

End MatchFacts.

(** ** Hooks: names of hook functions *)

Module NameFacts.
Import Hooks.

Local Arguments is_letter : simpl never.
Local Arguments is_line_terminator : simpl never.
Local Arguments is_policy_letter : simpl never.

Lemma span_letters_spec s :
  s = (span_letters s).1 +:+ (span_letters s).2
  ∧ all_letters (span_letters s).1 = true
  ∧ match (span_letters s).2 with
    | String c _ => is_letter c = false
    | EmptyString => True
    end.
Proof.
  induction s as [|c s IH]; [done|]. simpl.
  destruct (is_letter c) eqn:Hc; [|done].
  destruct (span_letters s) as [l r]. simpl in *. rewrite Hc.
  destruct IH as (-> & Hl & Hr). done.
Qed.

Lemma span_letters_app cats rest :
  all_letters cats = true →
  match rest with String c _ => is_letter c = false | EmptyString => True end →
  span_letters (cats +:+ rest) = (cats, rest).
Proof.
  intros Hc Hr. induction cats as [|c cats IH]; simpl in *.
  - destruct rest as [|c r]; [done|]. simpl. by rewrite Hr.
  - apply andb_true_iff in Hc as [Hc Hcs]. rewrite Hc, IH by done. done.
Qed.

Lemma take_line_one_line s : one_line (take_line s) = true.
Proof.
  induction s as [|c s IH]; [done|]. simpl.
  destruct (is_line_terminator c) eqn:Hc; [done|]. simpl. by rewrite Hc.
Qed.

Lemma take_line_id s : one_line s = true → take_line s = s.
Proof.
  induction s as [|c s IH]; [done|]. simpl.
  intros [Hc Hs]%andb_true_iff. apply negb_true_iff in Hc. rewrite Hc.
  by rewrite IH.
Qed.

Lemma match_here_complete p cats name :
  is_policy_letter p = true → all_letters cats = true →
  match_here (String "h" (String p (cats +:+ String "_" name)))
  = Some {| m1 := p;
            m2 := if String.eqb cats "" then None else Some cats;
            m3 := take_line name |}.
Proof.
  intros Hp Hc. unfold match_here. rewrite Hp.
  by rewrite span_letters_app.
Qed.

Lemma match_here_sound s m :
  match_here s = Some m →
  ∃ cats name,
    s = String "h" (String (m1 m) (cats +:+ String "_" name))
    ∧ is_policy_letter (m1 m) = true ∧ all_letters cats = true
    ∧ m2 m = (if String.eqb cats "" then None else Some cats)
    ∧ m3 m = take_line name.
Proof.
  unfold match_here. destruct s as [|h s]; [done|].
  destruct (Ascii.eqb_spec h "h") as [->|Hne].
  2:{ destruct h as [[] [] [] [] [] [] [] []]; try done. }
  destruct s as [|p s]; [done|].
  destruct (is_policy_letter p) eqn:Hp; [|done].
  pose proof (span_letters_spec s) as (Hs & Hl & _).
  destruct (span_letters s) as [cats r]. simpl in *.
  destruct r as [|u name]; [done|].
  destruct (Ascii.eqb_spec u "_") as [->|Hne].
  2:{ destruct u as [[] [] [] [] [] [] [] []]; try done. }
  intros [= <-]. exists cats, name. simpl. by rewrite Hs.
Qed.

Lemma exec_sound s m :
  HOOK_FUNC_REGEX_V2_exec s = Some m →
  ∃ pre s', s = pre +:+ s' ∧ match_here s' = Some m.
Proof.
  induction s as [|c s IH].
  - simpl. done.
  - cbn [HOOK_FUNC_REGEX_V2_exec].
    destruct (match_here (String c s)) as [m'|] eqn:Hm.
    + intros [= <-]. by exists EmptyString, (String c s).
    + intros (pre & s' & -> & Hs')%IH. by exists (String c pre), s'.
Qed.

Lemma exec_complete pre s' m :
  match_here s' = Some m → is_Some (HOOK_FUNC_REGEX_V2_exec (pre +:+ s')).
Proof.
  intros Hm. induction pre as [|c pre IH].
  - destruct s' as [|c s']; [done|].
    change ("" +:+ String c s') with (String c s').
    cbn [HOOK_FUNC_REGEX_V2_exec]. by rewrite Hm.
  - change (String c pre +:+ s') with (String c (pre +:+ s')).
    cbn [HOOK_FUNC_REGEX_V2_exec].
    destruct (match_here (String c (pre +:+ s'))); [by eexists | exact IH].
Qed.


(** **** Category masks *)

Lemma log2_lt_pow2_0 x n : 0 < n → 0 <= x < 2 ^ n → Z.log2 x < n.
Proof.
  intros Hn Hx. destruct (Z.eq_dec x 0) as [->|Hx0]; [done|].
  apply Z.log2_lt_pow2; lia.
Qed.

Lemma lor_range a b n :
  0 <= n → 0 <= a < 2 ^ n → 0 <= b < 2 ^ n → 0 <= Z.lor a b < 2 ^ n.
Proof.
  intros Hn Ha Hb. pose proof (proj2 (Z.lor_nonneg a b)) as Hnn.
  split; [lia|].
  destruct (Z.eq_dec n 0) as [->|Hn0].
  { assert (a = 0) as -> by lia. assert (b = 0) as -> by lia. done. }
  destruct (Z.eq_dec (Z.lor a b) 0) as [->|Hne]; [lia|].
  apply Z.log2_lt_pow2; [lia|]. rewrite Z.log2_lor by lia.
  apply Z.max_lub_lt; apply log2_lt_pow2_0; lia.
Qed.

Lemma category_bit cat k :
  0 <= cat < 2 ^ 26 → 0 <= k <= 25 →
  JS.or32 cat (JS.shl32 1 k) = Z.lor cat (2 ^ k).
Proof.
  intros Hc Hk. unfold JS.or32, JS.shl32.
  assert (Hp : 0 < 2 ^ k <= 2 ^ 25).
  { split; [apply Z.pow_pos_nonneg; lia|]. apply Z.pow_le_mono_r; lia. }
  rewrite (MatchFacts.toInt32_small 1) by lia. rewrite Z.mod_small by lia.
  rewrite Z.shiftl_1_l.
  rewrite !(MatchFacts.toInt32_small (2 ^ k)) by lia. by rewrite (MatchFacts.toInt32_small cat) by lia.
Qed.

Lemma decodeCategory_loop_bits s : ∀ cat,
  0 <= cat < 2 ^ 26 →
  0 <= decodeCategory_loop s cat < 2 ^ 26
  ∧ ∀ i, 0 <= i →
      Z.testbit (decodeCategory_loop s cat) i
      = Z.testbit cat i || existsb (bit_of i) (String.list_ascii_of_string s).
Proof.
  induction s as [|c s IH]; intros cat Hcat.
  - simpl. split; [done|]. intros i _. by rewrite orb_false_r.
  - cbn [decodeCategory_loop String.list_ascii_of_string existsb].
    fold (is_upper c). unfold bit_of at 1.
    destruct (is_upper c) eqn:Hu.
    + unfold is_upper in Hu. apply andb_true_iff in Hu as [H1 H2].
      apply Z.leb_le in H1, H2.
      rewrite category_bit by lia.
      assert (Hr : 0 <= Z.lor cat (2 ^ (charCode c - 65)) < 2 ^ 26).
      { apply lor_range; [lia | done |]. split; [apply Z.pow_nonneg; lia|].
        apply Z.pow_lt_mono_r; lia. }
      destruct (IH _ Hr) as [Hrange Hbits]. split; [done|].
      intros i Hi. rewrite Hbits, Z.lor_spec by done.
      rewrite Z.pow2_bits_eqb by lia. cbn [andb]. by rewrite orb_assoc.
    + destruct (IH _ Hcat) as [Hrange Hbits]. split; [done|].
      intros i Hi. by rewrite Hbits.
Qed.


Lemma bit_of_upper_char i c : bit_of i (upper_char c) = category_letter i c.
Proof.
  unfold bit_of, category_letter. f_equal.
  destruct c as [[] [] [] [] [] [] [] []]; reflexivity.
Qed.

Lemma list_ascii_toUpperCase s :
  String.list_ascii_of_string (toUpperCase s)
  = upper_char <$> String.list_ascii_of_string s.
Proof. induction s as [|c s IH]; [done|]. simpl. f_equal. apply IH. Qed.

Lemma existsb_fmap {A B} (f : A → B) (p : B → bool) l :
  existsb p (f <$> l) = existsb (p ∘ f) l.
Proof. induction l as [|x l IH]; [done|]. simpl. f_equal. apply IH. Qed.

Lemma existsb_ext' {A} (p q : A → bool) l :
  (∀ x, p x = q x) → existsb p l = existsb q l.
Proof. intros H. induction l as [|x l IH]; [done|]. simpl. by rewrite H, IH. Qed.

(** The mask of a string of category letters: its range and its bits. *)
Lemma decodeCategory_bits cats :
  0 <= decodeCategory (Some cats) < 2 ^ 26
  ∧ ∀ i, 0 <= i →
      Z.testbit (decodeCategory (Some cats)) i
      = existsb (category_letter i) (String.list_ascii_of_string cats).
Proof.
  unfold decodeCategory.
  destruct (decodeCategory_loop_bits (toUpperCase cats) 0) as [Hr Hb]; [lia|].
  split; [done|]. intros i Hi.
  rewrite Hb, Z.bits_0, list_ascii_toUpperCase, existsb_fmap by done.
  simpl. apply existsb_ext'. intros c. apply bit_of_upper_char.
Qed.

Lemma decodeCategory_nonzero cats :
  all_letters cats = true → cats ≠ EmptyString →
  decodeCategory (Some cats) ≠ 0.
Proof.
  intros Hl Hne. destruct cats as [|c cats]; [done|]. clear Hne.
  simpl in Hl. apply andb_true_iff in Hl as [Hc _].
  destruct (decodeCategory_bits (String c cats)) as [_ Hb].
  intros H0. 
  assert (Hi : 0 <= charCode (upper_char c) - 65).
  { revert Hc. destruct c as [[] [] [] [] [] [] [] []]; vm_compute; congruence. }
  specialize (Hb _ Hi). rewrite H0, Z.bits_0 in Hb.
  simpl in Hb. unfold category_letter at 1 in Hb.
  rewrite Hc, Z.eqb_refl in Hb. done.
Qed.


(** **** The letters of a mask *)

Lemma upper_letter_code (j : nat) :
  (j < 26)%nat →
  is_upper (ascii_of_nat (65 + j)) = true
  ∧ charCode (ascii_of_nat (65 + j)) = 65 + Z.of_nat j.
Proof.
  intros Hj. do 26 (destruct j as [|j]; [by vm_compute|]). lia.
Qed.

Lemma mask_letters_seq m n : ∀ a,
  (a + n ≤ 26)%nat →
  Forall (λ c, is_upper c = true) (mask_letters m (seq a n))
  ∧ ∀ i, 0 <= i →
      existsb (bit_of i) (mask_letters m (seq a n))
      = (Z.of_nat a <=? i) && (i <? Z.of_nat (a + n)) && Z.testbit m i.
Proof.
  induction n as [|n IH]; intros a Ha.
  - split; [constructor|]. intros i Hi. simpl.
    destruct (Z.leb_spec (Z.of_nat a) i), (Z.ltb_spec i (Z.of_nat (a + 0)));
      simpl; try done; lia.
  - destruct (IH (S a)) as [Hup Hbits]; [lia|].
    destruct (upper_letter_code a) as [Hu Hc]; [lia|].
    unfold mask_letters in *. cbn [seq omap list_omap].
    destruct (Z.testbit m (Z.of_nat a)) eqn:Hbit.
    + split; [by constructor|]. intros i Hi. cbn [existsb].
      rewrite Hbits by done. unfold bit_of at 1. rewrite Hu, Hc. cbn [andb].
      destruct (Z.eqb_spec (65 + Z.of_nat a - 65) i) as [Heq|Hne].
      * assert (i = Z.of_nat a) as -> by lia. rewrite Hbit.
        destruct (Z.leb_spec (Z.of_nat a) (Z.of_nat a)); [|lia].
        destruct (Z.ltb_spec (Z.of_nat a) (Z.of_nat (a + S n))); [done|lia].
      * cbn [orb]. f_equal.
        destruct (Z.leb_spec (Z.of_nat (S a)) i), (Z.leb_spec (Z.of_nat a) i),
          (Z.ltb_spec i (Z.of_nat (S a + n))),
          (Z.ltb_spec i (Z.of_nat (a + S n))); simpl; try done; lia.
    + split; [done|]. intros i Hi. rewrite Hbits by done.
      destruct (Z.eq_dec i (Z.of_nat a)) as [->|Hne].
      * rewrite Hbit. by rewrite !andb_false_r.
      * f_equal.
        destruct (Z.leb_spec (Z.of_nat (S a)) i), (Z.leb_spec (Z.of_nat a) i),
          (Z.ltb_spec i (Z.of_nat (S a + n))),
          (Z.ltb_spec i (Z.of_nat (a + S n))); simpl; try done; lia.
Qed.

Lemma upper_char_upper c : is_upper c = true → upper_char c = c.
Proof.
  unfold is_upper, upper_char. intros [H1 H2]%andb_true_iff.
  apply Z.leb_le in H2. destruct (Z.leb_spec 97 (charCode c)); [lia|done].
Qed.

Lemma is_upper_letter c : is_upper c = true → is_letter c = true.
Proof. unfold is_upper, is_letter. by intros ->. Qed.

Lemma upper_string l :
  Forall (λ c, is_upper c = true) l →
  toUpperCase (String.string_of_list_ascii l) = String.string_of_list_ascii l
  ∧ all_letters (String.string_of_list_ascii l) = true.
Proof.
  induction 1 as [|c l Hc _ [IH1 IH2]]; [done|]. simpl.
  by rewrite IH1, IH2, upper_char_upper, is_upper_letter.
Qed.

Lemma category_letter_upper i c :
  is_upper c = true → category_letter i c = bit_of i c.
Proof.
  intros Hc. unfold category_letter, bit_of.
  by rewrite upper_char_upper, Hc, is_upper_letter.
Qed.

Lemma existsb_ext_Forall {A} (p q : A → bool) l :
  Forall (λ x, p x = q x) l → existsb p l = existsb q l.
Proof. induction 1 as [|x l Hx _ IH]; [done|]. simpl. by rewrite Hx, IH. Qed.

Lemma mask_letters_bits m i :
  0 <= m < 2 ^ 26 → 0 <= i →
  existsb (category_letter i) (mask_letters m (seq 0 26)) = Z.testbit m i.
Proof.
  intros Hm Hi. destruct (mask_letters_seq m 26 0) as [Hup Hbits]; [lia|].
  rewrite (existsb_ext_Forall _ (bit_of i)).
  2:{ eapply Forall_impl; [exact Hup|]. intros c. apply category_letter_upper. }
  rewrite Hbits by done.
  destruct (Z.leb_spec (Z.of_nat 0) i); [|lia].
  destruct (Z.ltb_spec i (Z.of_nat (0 + 26))); [done|]. simpl.
  symmetry. apply Z.bits_above_log2; [lia|].
  pose proof (log2_lt_pow2_0 m 26). lia.
Qed.

(** Decoding the letters of a mask gives the mask back. *)
Lemma decodeCategory_letters m :
  0 <= m < 2 ^ 26 →
  decodeCategory (Some (spec_category_letters m)) = m
  ∧ all_letters (spec_category_letters m) = true
  ∧ (m ≠ 0 → spec_category_letters m ≠ EmptyString).
Proof.
  intros Hm. unfold spec_category_letters.
  destruct (Z.eqb_spec m (-1)) as [->|_]; [lia|].
  destruct (mask_letters_seq m 26 0) as [Hup _]; [lia|].
  destruct (upper_string _ Hup) as [_ Hletters].
  split; [|split; [done|]].
  - apply Z.bits_inj'. intros i Hi.
    destruct (decodeCategory_bits
      (String.string_of_list_ascii (mask_letters m (seq 0 26)))) as [_ Hb].
    rewrite Hb by done. rewrite String.list_ascii_of_string_of_list_ascii.
    by apply mask_letters_bits.
  - intros Hne Hempty. apply Hne, Z.bits_inj_0. intros i.
    destruct (Z.lt_ge_cases i 0) as [Hneg|Hi]; [by apply Z.testbit_neg_r|].
    rewrite <- (mask_letters_bits m i) by done.
    destruct (mask_letters m (seq 0 26)); [done|discriminate].
Qed.


(** **** Decoding an export name *)

Lemma hook_of_export_match sign prio name f m :
  HOOK_FUNC_REGEX_V2_exec name = Some m →
  hook_of_export sign prio name (ExCallable f)
  = Some {| priority := JS.VNumber prio; src := sign; type := m3 m;
            cat := decodeCategory (m2 m);
            execPolicy := policy_number (m1 m); fn := f |}.
Proof. intros Hm. unfold hook_of_export. by rewrite Hm. Qed.

Lemma exec_here s m :
  match_here s = Some m → HOOK_FUNC_REGEX_V2_exec s = Some m.
Proof. intros Hm. destruct s; cbn [HOOK_FUNC_REGEX_V2_exec]; by rewrite Hm. Qed.

Lemma decodeCategory_None : decodeCategory None = -1.
Proof. reflexivity. Qed.

Lemma string_eqb_empty s :
  String.eqb s "" = true ↔ s = EmptyString.
Proof. apply String.eqb_eq. Qed.

Lemma policy_letter_roundtrip p :
  is_policy_letter p = true →
  is_policy_letter (spec_policy_letter (policy_number p)) = true
  ∧ policy_number (spec_policy_letter (policy_number p)) = policy_number p.
Proof.
  destruct p as [[] [] [] [] [] [] [] []]; try discriminate; by vm_compute.
Qed.

Lemma hook_roundtrip sign prio name f h :
  hook_of_export sign prio name (ExCallable f) = Some h →
  hook_of_export sign prio
    (spec_encode (execPolicy h) (cat h) (type h)) (ExCallable f) = Some h.
Proof.
  unfold hook_of_export at 1.
  destruct (HOOK_FUNC_REGEX_V2_exec name) as [m|] eqn:Hexec; [|done].
  intros [= <-]. cbn [execPolicy cat type].
  apply exec_sound in Hexec as (pre & s' & _ & Hm).
  apply match_here_sound in Hm as (cats & rest & _ & Hp & Hl & Hm2 & Hm3).
  destruct (policy_letter_roundtrip _ Hp) as [Hp' Hpn].
  fold (policy_number (m1 m)).
  assert (Hcat : all_letters (spec_category_letters (decodeCategory (m2 m)))
                 = true
    ∧ decodeCategory
        (if String.eqb (spec_category_letters (decodeCategory (m2 m))) ""
         then None
         else Some (spec_category_letters (decodeCategory (m2 m))))
      = decodeCategory (m2 m)).
  { rewrite Hm2. destruct (String.eqb cats "") eqn:Hce.
    - by vm_compute.
    - destruct (decodeCategory_bits cats) as [Hr _].
      destruct (decodeCategory_letters _ Hr) as (Hd & Hal & Hne).
      split; [done|].
      destruct (String.eqb (spec_category_letters _) "") eqn:He; [|done].
      apply string_eqb_empty in He. exfalso. apply Hne; [|done].
      apply decodeCategory_nonzero; [done|].
      intros ->. by rewrite String.eqb_refl in Hce. }
  destruct Hcat as [Hal Hdec].
  unfold spec_encode.
  rewrite (hook_of_export_match _ _ _ _ _
             (exec_here _ _ (match_here_complete _ _ _ Hp' Hal))).
  cbn [m1 m2 m3]. rewrite Hdec, Hpn, Hm3.
  by rewrite (take_line_id _ (take_line_one_line rest)).
Qed.


Lemma policy_number_cases p :
  is_policy_letter p = true →
  (p = "S"%char ∨ p = "s"%char → policy_number p = 0)
  ∧ (p = "E"%char ∨ p = "e"%char → policy_number p = 1)
  ∧ (p = "A"%char ∨ p = "a"%char → policy_number p = 2)
  ∧ (policy_number p = 0 ∨ policy_number p = 1 ∨ policy_number p = 2).
Proof.
  intros _. split; [by intros [-> | ->]|]. split; [by intros [-> | ->]|].
  split; [by intros [-> | ->]|]. unfold policy_number.
  destruct (Ascii.eqb _ "S"); [by left|].
  destruct (Ascii.eqb _ "E"); [right; by left | right; by right].
Qed.

Lemma match_here_decorated s : is_Some (match_here s) ↔ decorated s.
Proof.
  split.
  - intros [m Hm]. apply match_here_sound in Hm
      as (cats & name & -> & Hp & Hl & _). by exists (m1 m), cats, name.
  - intros (p & cats & rest & -> & Hp & Hl).
    rewrite (match_here_complete p cats rest Hp Hl). by eexists.
Qed.

Lemma exec_leftmost pre s m :
  match_here s = Some m → leftmost pre s →
  HOOK_FUNC_REGEX_V2_exec (pre +:+ s) = Some m.
Proof.
  intros Hm. induction pre as [|c pre IH]; intros Hleft.
  - by apply exec_here.
  - change (String c pre +:+ s) with (String c (pre +:+ s)).
    cbn [HOOK_FUNC_REGEX_V2_exec].
    destruct (match_here (String c (pre +:+ s))) as [m'|] eqn:Hm'.
    + exfalso. apply (Hleft EmptyString c pre eq_refl).
      apply match_here_decorated. by eexists.
    + apply IH. intros pre1 c' pre2 ->.
      by apply (Hleft (String c pre1) c' pre2).
Qed.

Lemma exec_sound_leftmost s m :
  HOOK_FUNC_REGEX_V2_exec s = Some m →
  ∃ pre s', s = pre +:+ s' ∧ match_here s' = Some m ∧ leftmost pre s'.
Proof.
  induction s as [|c s IH].
  - simpl. done.
  - cbn [HOOK_FUNC_REGEX_V2_exec].
    destruct (match_here (String c s)) as [m'|] eqn:Hm.
    + intros [= <-]. exists EmptyString, (String c s).
      split; [done|]. split; [done|].
      intros pre1 c' pre2 Heq. by destruct pre1.
    + intros (pre & s' & -> & Hs' & Hleft)%IH.
      exists (String c pre), s'. split; [done|]. split; [done|].
      intros pre1 c' pre2 Heq. destruct pre1 as [|c1 pre1].
      * injection Heq as <- <-. intros Hdec%match_here_decorated.
        change (String c pre +:+ s') with (String c (pre +:+ s')) in Hdec.
        rewrite Hm in Hdec. by destruct Hdec.
      * injection Heq as <- ->. by apply (Hleft pre1 c' pre2).
Qed.

(** C7 (fails on the code).  The expression that decodes an export name is
    not anchored: an export becomes a hook function exactly when it is
    callable and its name contains, at any position, [h], a policy letter,
    zero or more letters and [_], and the leftmost such place is decoded.
    There the policy letter gives the execution policy ([S]/[s] synchronous
    0, [E]/[e] event 1, [A]/[a] asynchronous 2); without category letters
    the mask is -1; with category letters the mask is a non-zero 26-bit
    number whose bit [i] is set iff the letter of category [i] occurs among
    them in either case; the hook name is what follows [_] up to the first
    line terminator, taken verbatim, and it may be empty.  Encoding a
    decoded record by the grammar and decoding it again gives the same
    record.  So names that do not follow the scheme are registered:
    [washes_up] as the event function of hook [up] in category [S], and
    [xhS_hA_y] as the synchronous function of hook [hA_y]; [hS_] is the
    synchronous function of the hook with the empty name. *)
Theorem hook_name_is_matched_anywhere sign prio f :
  (∀ name v, hook_of_export sign prio name (ExValue v) = None)
  ∧ (∀ name,
       is_Some (hook_of_export sign prio name (ExCallable f))
       ↔ ∃ pre p cats rest,
           name = pre +:+ String "h" (String p (cats +:+ String "_" rest))
           ∧ is_policy_letter p = true ∧ all_letters cats = true)
  ∧ (∀ name h,
       hook_of_export sign prio name (ExCallable f) = Some h →
       ∃ pre p cats rest,
         name = pre +:+ String "h" (String p (cats +:+ String "_" rest))
         ∧ is_policy_letter p = true ∧ all_letters cats = true
         ∧ leftmost pre (String "h" (String p (cats +:+ String "_" rest))))
  ∧ (∀ pre p cats rest,
       is_policy_letter p = true → all_letters cats = true →
       leftmost pre (String "h" (String p (cats +:+ String "_" rest))) →
       ∃ h,
         hook_of_export sign prio
           (pre +:+ String "h" (String p (cats +:+ String "_" rest)))
           (ExCallable f)
         = Some h
         ∧ src h = sign ∧ fn h = f
         ∧ type h = take_line rest
         ∧ (one_line rest = true → type h = rest)
         ∧ (p = "S"%char ∨ p = "s"%char → execPolicy h = 0)
         ∧ (p = "E"%char ∨ p = "e"%char → execPolicy h = 1)
         ∧ (p = "A"%char ∨ p = "a"%char → execPolicy h = 2)
         ∧ (cats = EmptyString → cat h = -1)
         ∧ (cats ≠ EmptyString →
            0 < cat h < 2 ^ 26
            ∧ ∀ i, 0 <= i < 26 →
                Z.testbit (cat h) i = true
                ↔ ∃ c, c ∈ String.list_ascii_of_string cats
                       ∧ category_letter i c = true))
  ∧ (∀ name h,
       hook_of_export sign prio name (ExCallable f) = Some h →
       hook_of_export sign prio
         (spec_encode (execPolicy h) (cat h) (type h)) (ExCallable f)
       = Some h)
  ∧ (λ h, (execPolicy h, cat h, type h)) <$>
      hook_of_export sign prio "washes_up" (ExCallable f)
    = Some (1, 2 ^ 18, "up")
  ∧ (λ h, (execPolicy h, cat h, type h)) <$>
      hook_of_export sign prio "xhS_hA_y" (ExCallable f)
    = Some (0, -1, "hA_y")
  ∧ (λ h, (execPolicy h, cat h, type h)) <$>
      hook_of_export sign prio "hS_" (ExCallable f)
    = Some (0, -1, EmptyString).
Proof.
  split; [|split; [|split; [|split; [|split]]]].
  - intros name v. unfold hook_of_export.
    by destruct (HOOK_FUNC_REGEX_V2_exec name).
  - intros name. split.
    + intros [h Hh]. unfold hook_of_export in Hh.
      destruct (HOOK_FUNC_REGEX_V2_exec name) as [m|] eqn:Hexec; [|done].
      apply exec_sound in Hexec as (pre & s' & -> & Hm).
      apply match_here_sound in Hm as (cats & rest & -> & Hp & Hl & _).
      by exists pre, (m1 m), cats, rest.
    + intros (pre & p & cats & rest & -> & Hp & Hl).
      destruct (exec_complete pre _ _ (match_here_complete p cats rest Hp Hl))
        as [m Hm].
      rewrite (hook_of_export_match _ _ _ _ _ Hm). by eexists.
  - intros name h Hh. unfold hook_of_export in Hh.
    destruct (HOOK_FUNC_REGEX_V2_exec name) as [m|] eqn:Hexec; [|done].
    apply exec_sound_leftmost in Hexec as (pre & s' & -> & Hm & Hleft).
    apply match_here_sound in Hm as (cats & rest & -> & Hp & Hl & _).
    by exists pre, (m1 m), cats, rest.
  - intros pre p cats rest Hp Hl Hleft.
    rewrite (hook_of_export_match _ _ _ _ _
               (exec_leftmost pre _ _ (match_here_complete p cats rest Hp Hl)
                  Hleft)).
    eexists. split; [reflexivity|]. cbn [src fn type execPolicy cat m1 m2 m3].
    destruct (policy_number_cases p Hp) as (HS & HE & HA & _).
    split; [done|]. split; [done|]. split; [done|].
    split; [apply take_line_id|]. split; [done|]. split; [done|].
    split; [done|]. split.
    + by intros ->.
    + intros Hne. destruct (String.eqb cats "") eqn:He.
      { by apply String.eqb_eq in He. }
      destruct (decodeCategory_bits cats) as [Hr Hb].
      pose proof (decodeCategory_nonzero cats Hl Hne). split; [lia|].
      intros i Hi. rewrite Hb by lia. rewrite existsb_exists.
      split; intros (c & Hc & Hcl); exists c; by rewrite ?list_elem_of_In in *.
  - intros name h. apply hook_roundtrip.
  - split; [|split]; reflexivity.
Qed.

End NameFacts.

(** ** The server: insertion into the cache *)

Module ServerFacts.
Import Server.

Lemma elem_of_is_stor k d sz ex l :
  CacheStor k d sz ex ∈ l → existsb is_stor l = true.
Proof.
  intros Hin. apply existsb_exists. exists (CacheStor k d sz ex).
  by rewrite <- list_elem_of_In.
Qed.

Lemma user_headers_no_stor env hs :
  existsb is_stor (set_user_headers env hs) = false.
Proof.
  unfold set_user_headers. induction hs as [|h hs IH]; [done|].
  cbn [flat_map]. rewrite existsb_app, IH. by destruct (header_ok _ _ _).
Qed.

Lemma content_type_no_stor env p :
  existsb is_stor (content_type_header env p) = false.
Proof.
  unfold content_type_header. destruct (JS.is_string _); [|done].
  by destruct (header_ok _ _ _).
Qed.

Lemma etag_headers_no_stor env p c c' l :
  etag_headers env p c = Some (c', l) → existsb is_stor l = false.
Proof.
  unfold etag_headers. destruct (JS.is_string _); [|by intros [= <- <-]].
  destruct (header_ok _ _ _); [|done]. intros [= <- <-].
  by destruct (JS.is_number _).
Qed.

Lemma etag_headers_cacheable env p c' l :
  etag_headers env p true = Some (c', l) →
  c' = JS.is_string (entityTag p)
  ∧ (c' = true → header_ok env "ETag" (entityTag p) = true).
Proof.
  unfold etag_headers. destruct (JS.is_string _); [|by intros [= <- <-]].
  destruct (header_ok _ _ _); [|done]. by intros [= <- <-].
Qed.

Lemma headers_no_stor env p :
  existsb is_stor match headers p with
                  | Some hs => set_user_headers env hs
                  | None => []
                  end = false.
Proof. destruct (headers p); [apply user_headers_no_stor|done]. Qed.

Lemma head_no_stor env st p :
  existsb is_stor
    ([SetStatus st] ++ match headers p with
                       | Some hs => set_user_headers env hs
                       | None => []
                       end) = false.
Proof. simpl. destruct (headers p); [apply user_headers_no_stor|done]. Qed.

(** A body that is not a buffer is sent without touching the cache. *)
Lemma send_body_keeps fuel env cache url hosts p st c log :
  existsb is_stor log = false →
  (c = false ∨ ∀ b, data p ≠ JS.VBuffer b) →
  keeps_cache cache (send_body fuel env cache url hosts p st c log).
Proof.
  intros Hlog Hc. unfold send_body, keeps_cache.
  destruct (data p) as [| |?|?|?|b| |?|?|?] eqn:Hd.
  6:{ destruct Hc as [->|Hc]; [|by destruct (Hc b)].
      eexists. split; [done|]. split; [done|].
      cbn [log_of]. by rewrite existsb_app, Hlog. }
  6:{ eexists. split; [done|]. split; [done|]. cbn [log_of].
      rewrite !existsb_app, Hlog. destruct (dataLength p); try done.
      by destruct (JS.ltb _ _). }
  all: eexists; (split; [done|]); (split; [done|]); cbn [log_of];
    by rewrite !existsb_app, Hlog.
Qed.


Lemma cacheable_spec env p :
  cacheable env p = true
  ↔ is_error (error p) = false
    ∧ (∃ st, status p = JS.VNumber (JS.Num st) ∧ 100 <= st < 600)
    ∧ (∃ b, body_bytes (data p) = Some b
            ∧ (JS.is_string (data p) = true → b ≠ EmptyString))
    ∧ JS.is_string (entityTag p) = true
    ∧ header_ok env "ETag" (entityTag p) = true.
Proof.
  unfold cacheable. rewrite !andb_true_iff, negb_true_iff. split.
  - intros ((((He & Hs) & Hd) & Ht) & Hh). split; [done|]. split; [|split; [|done]].
    + destruct (status p) as [| |?|[st|]|?|?| |?|?|?]; try done.
      exists st. apply andb_true_iff in Hs as [?%Z.leb_le ?%Z.ltb_lt]. done.
    + destruct (data p) as [| |?|?|s|b| |?|?|?]; try done.
      * exists s. split; [done|]. intros _ ->. done.
      * by exists b.
  - intros (He & (st & Hs & H1 & H2) & (b & Hb & Hne) & Ht & Hh).
    split; [split; [split; [split; [done|]|]|done]|done].
    + rewrite Hs. apply andb_true_iff. by rewrite Z.leb_le, Z.ltb_lt.
    + destruct (data p) as [| |?|?|s|?| |?|?|?]; try done.
      injection Hb as ->. apply negb_true_iff, String.eqb_neq. by apply Hne.
Qed.

Lemma handle_not_cacheable fuel env cache url hosts target error_ p :
  cacheable env p = false →
  keeps_cache cache
    (__handleHookResponse fuel env cache url hosts target error_ (Some p)).
Proof.
  unfold cacheable, __handleHookResponse. intros Hc.
  destruct (is_error (error p)) eqn:Herr.
  { by eexists. }
  destruct (status p) as [| |?|st|?|?| |?|?|?] eqn:Hst.
  4:{ destruct st as [st|]; [|by eexists].
      cbn [JS.leb JS.ltb]. destruct ((100 <=? st) && (st <? 600)) eqn:Hr.
      2:{ by eexists. }
      destruct (JS.truthy (data p) || JS.loosely_null (data p)) eqn:Hdata.
      2:{ eexists. split; [done|]. split; [done|]. cbn [log_of].
          by rewrite existsb_app, head_no_stor. }
      destruct (etag_headers env p true) as [[c' l]|] eqn:He.
      2:{ eexists. split; [done|]. split; [done|]. apply head_no_stor. }
      apply send_body_keeps.
      { rewrite !existsb_app, headers_no_stor, content_type_no_stor.
        by rewrite (etag_headers_no_stor _ _ _ _ _ He). }
      destruct (etag_headers_cacheable _ _ _ _ He) as [Hc' Hok].
      destruct c'; [right|by left]. rewrite <- Hc', Hok in Hc by done.
      simpl in Hc. rewrite !andb_true_r in Hc.
      intros b Hb. unfold buffer_body in Hb.
      destruct (data p) as [| |?|?|s|?| |?|?|?] eqn:Hdp;
        rewrite ?Hdp in Hb; try done.
      simpl in Hdata. rewrite orb_false_r in Hdata. congruence. }
  all: destruct (manual p) as [| |?|?|m|?| |?|?|?]; try by eexists.
  all: destruct (negb (String.eqb m "") && checkTarget env m); by eexists.
Qed.

Lemma handle_cacheable fuel env cache url hosts target error_ p seconds :
  cacheable env p = true → JS.to_number (maxAge p) = Some seconds →
  ∃ log b,
    existsb is_stor log = false
    ∧ body_bytes (data p) = Some b
    ∧ __handleHookResponse fuel env cache url hosts target error_ (Some p)
      = match Cache.stor fuel cache (cache_key hosts url) (buffer_body p)
                (Z.of_nat (String.length b))
                (JS.add (JS.Num (now env)) (JS.mul seconds (JS.Num 1000))) with
        | Some c' =>
            Some (Returned c'
                    (log ++ [CacheStor (cache_key hosts url) (buffer_body p)
                               (Z.of_nat (String.length b))
                               (JS.add (JS.Num (now env))
                                  (JS.mul seconds (JS.Num 1000)))]))
        | None => None
        end.
Proof.
  unfold cacheable, __handleHookResponse. rewrite !andb_true_iff, negb_true_iff.
  intros ((((He & Hs) & Hd) & Ht) & Hh) Hsec. rewrite He.
  destruct (status p) as [| |?|[st|]|?|?| |?|?|?]; try done.
  cbn [JS.leb JS.ltb]. rewrite Hs.
  assert (Hdata : JS.truthy (data p) || JS.loosely_null (data p) = true).
  { destruct (data p); try done. simpl. by rewrite Hd. }
  rewrite Hdata. unfold etag_headers. rewrite Ht, Hh.
  assert (Hbody : ∃ b, body_bytes (data p) = Some b
                       ∧ data (buffer_body p) = JS.VBuffer b
                       ∧ maxAge (buffer_body p) = maxAge p).
  { unfold buffer_body. destruct (data p) as [| |?|?|s|b| |?|?|?] eqn:Hdp;
      try done; [by exists s | by exists b]. }
  destruct Hbody as (b & Hb & Hbb & Hma).
  eexists _, b. split; [|split; [done|]].
  2:{ unfold send_body. rewrite Hbb, Hma, Hsec. reflexivity. }
  rewrite !existsb_app, headers_no_stor, content_type_no_stor.
  by destruct (JS.is_number _).
Qed.


Lemma no_stor_elem l :
  existsb is_stor l = false → ∀ k d sz ex, CacheStor k d sz ex ∉ l.
Proof. intros Hl k d sz ex Hin%elem_of_is_stor. congruence. Qed.

(** C2, as the code has it.  On a cache that the server can hold, rendering
    a hook response returns (for any fuel above a bound), and it calls
    [stor] iff the descriptor is present and carries no [Error], its status
    is a number in [100,600), its body is bytes or a non-empty string, and
    its [entityTag] is a string that [setHeader] accepts; [maxAge] is not
    consulted.  The call has the key [hosts[0] + "$" + url], the descriptor
    with its body as a buffer, the byte length of the body as size and
    [now + maxAge * 1000] as expiry, with [maxAge] converted to a number:
    [now + a * 1000] for the number [a] and for a string that denotes [a],
    [NaN] for [undefined] and for a string that denotes no number.  The cache
    afterwards is the result of that [stor]; without the call the cache is
    unchanged.  (Hypothesis: the model holds the numeric value of the
    [maxAge] of a descriptor that is inserted, see [JS.to_number].) *)
Theorem cache_insertion limit env cache url hosts target error_
    responseProto :
  Cache.reachable limit cache →
  (∀ p, responseProto = Some p → cacheable env p = true →
        is_Some (JS.to_number (maxAge p))) →
  ∃ n, ∀ fuel, (n ≤ fuel)%nat →
    ∃ r,
      __handleHookResponse fuel env cache url hosts target error_
        responseProto = Some r
      ∧ ((∃ k d sz ex, CacheStor k d sz ex ∈ log_of r)
         ↔ ∃ p, responseProto = Some p
             ∧ is_error (error p) = false
             ∧ (∃ st, status p = JS.VNumber (JS.Num st) ∧ 100 <= st < 600)
             ∧ (∃ b, body_bytes (data p) = Some b
                     ∧ (JS.is_string (data p) = true → b ≠ EmptyString))
             ∧ JS.is_string (entityTag p) = true
             ∧ header_ok env "ETag" (entityTag p) = true)
      ∧ (∀ k d sz ex, CacheStor k d sz ex ∈ log_of r →
           ∃ p b seconds, responseProto = Some p
             ∧ body_bytes (data p) = Some b
             ∧ k = cache_key hosts url
             ∧ d = buffer_body p
             ∧ data d = JS.VBuffer b
             ∧ sz = Z.of_nat (String.length b)
             ∧ JS.to_number (maxAge p) = Some seconds
             ∧ ex = JS.add (JS.Num (now env)) (JS.mul seconds (JS.Num 1000))
             ∧ (∀ a, maxAge p = JS.VNumber (JS.Num a) →
                     ex = JS.Num (now env + a * 1000))
             ∧ (∀ s a, maxAge p = JS.VString s →
                       JS.StringToNumber s = JS.Integer a →
                       ex = JS.Num (now env + a * 1000))
             ∧ (∀ s, maxAge p = JS.VString s →
                     JS.StringToNumber s = JS.NotNumeric → ex = JS.NaN)
             ∧ (maxAge p = JS.VUndefined → ex = JS.NaN)
             ∧ Cache.stor fuel cache k d sz ex = Some (cache_of r))
      ∧ ((∀ k d sz ex, CacheStor k d sz ex ∉ log_of r) → cache_of r = cache).
Proof.
  intros Hreach Hnum.
  assert (Hkeep : ∀ o,
    keeps_cache cache o →
    (∀ p, responseProto = Some p → cacheable env p = false) →
    ∃ r, o = Some r
      ∧ ((∃ k d sz ex, CacheStor k d sz ex ∈ log_of r)
         ↔ ∃ p, responseProto = Some p
             ∧ is_error (error p) = false
             ∧ (∃ st, status p = JS.VNumber (JS.Num st) ∧ 100 <= st < 600)
             ∧ (∃ b, body_bytes (data p) = Some b
                     ∧ (JS.is_string (data p) = true → b ≠ EmptyString))
             ∧ JS.is_string (entityTag p) = true
             ∧ header_ok env "ETag" (entityTag p) = true)
      ∧ (∀ k d sz ex, CacheStor k d sz ex ∈ log_of r → False)
      ∧ cache_of r = cache).
  { intros o (r & -> & Hcache & Hlog) Hnc. exists r. split; [done|].
    pose proof (no_stor_elem _ Hlog) as Hno. split; [split|split; [|done]].
    - intros (k & d & sz & ex & Hin). by destruct (Hno _ _ _ _ Hin).
    - intros (p & Hp & Hcond). apply cacheable_spec in Hcond.
      rewrite (Hnc _ Hp) in Hcond. done.
    - intros k d sz ex Hin. by destruct (Hno _ _ _ _ Hin). }
  destruct responseProto as [p|].
  2:{ exists 0%nat. intros fuel _.
      destruct (Hkeep (__handleHookResponse fuel env cache url hosts target
                         error_ None)) as (r & Hr & Hiff & Hno & Hc).
      { unfold __handleHookResponse. destruct (is_error error_); by eexists. }
      { done. }
      exists r. split; [done|]. split; [done|]. split; [|done].
      intros k d sz ex Hin. by destruct (Hno _ _ _ _ Hin). }
  destruct (cacheable env p) eqn:Hcb.
  2:{ exists 0%nat. intros fuel _.
      destruct (Hkeep (__handleHookResponse fuel env cache url hosts target
                         error_ (Some p))) as (r & Hr & Hiff & Hno & Hc).
      { by apply handle_not_cacheable. }
      { by intros ? [= <-]. }
      exists r. split; [done|]. split; [done|]. split; [|done].
      intros k d sz ex Hin. by destruct (Hno _ _ _ _ Hin). }
  destruct (Hnum p eq_refl Hcb) as [seconds Hsec].
  destruct (handle_cacheable 0 env cache url hosts target error_ p seconds
              Hcb Hsec) as (_ & b & _ & Hb & _).
  destruct (CacheFacts.stor_returns limit cache (cache_key hosts url)
              (buffer_body p) (Z.of_nat (String.length b))
              (JS.add (JS.Num (now env)) (JS.mul seconds (JS.Num 1000)))
              Hreach)
    as [n Hn].
  exists n. intros fuel Hfuel.
  destruct (handle_cacheable fuel env cache url hosts target error_ p seconds
              Hcb Hsec) as (log & b' & Hlog & Hb' & ->).
  rewrite Hb in Hb'. injection Hb' as <-.
  destruct (Hn fuel Hfuel) as [c' Hc']. rewrite Hc'.
  eexists. split; [reflexivity|]. cbn [log_of cache_of].
  split; [split|split].
  - intros _. exists p. split; [done|]. by apply cacheable_spec.
  - intros _. eexists _, _, _, _. apply elem_of_app. right. left.
  - intros k d sz ex [Hin|Hin]%elem_of_app.
    { by destruct (no_stor_elem _ Hlog _ _ _ _ Hin). }
    apply list_elem_of_singleton in Hin. injection Hin as -> -> -> ->.
    exists p, b, seconds. split; [done|]. split; [done|]. split; [done|].
    split; [done|]. split.
    { unfold buffer_body.
      destruct (data p) eqn:Hdp; try done; simpl in *; congruence. }
    split; [done|]. split; [done|]. split; [done|].
    split; [|split; [|split; [|split; [|done]]]].
    + intros a Ha. rewrite Ha in Hsec. by injection Hsec as <-.
    + intros s a Ha Hs. rewrite Ha in Hsec. cbn [JS.to_number] in Hsec.
      rewrite Hs in Hsec. by injection Hsec as <-.
    + intros s Ha Hs. rewrite Ha in Hsec. cbn [JS.to_number] in Hsec.
      rewrite Hs in Hsec. by injection Hsec as <-.
    + intros Ha. rewrite Ha in Hsec. by injection Hsec as <-.
  - intros Hno. exfalso. eapply Hno. apply elem_of_app. right. left.
Qed.


(** C2, as stated, fails: a descriptor without a numeric [maxAge] is
    inserted all the same (without [maxAge] its entry never expires; with
    the string ["5"] it expires after five seconds), and a descriptor whose
    body is the empty string is not inserted. *)
Lemma insertion_ignores_maxAge :
  JS.is_number (maxAge Examples.proto_no_maxAge) = false
  ∧ (__handleHookResponse 2 Examples.env0 (Cache.new_ResponseCache 1000)
       "/x" ["foo.bar"] "foo.bar$x" JS.VUndefined
       (Some Examples.proto_no_maxAge) ≫= λ r, last (log_of r))
    = Some (CacheStor "foo.bar$/x" Examples.proto_no_maxAge 5 JS.NaN)
  ∧ JS.is_number (maxAge Examples.proto_string_maxAge) = false
  ∧ (__handleHookResponse 2 Examples.env0 (Cache.new_ResponseCache 1000)
       "/x" ["foo.bar"] "foo.bar$x" JS.VUndefined
       (Some Examples.proto_string_maxAge) ≫= λ r, last (log_of r))
    = Some (CacheStor "foo.bar$/x" Examples.proto_string_maxAge 5
              (JS.Num 6000))
  ∧ (__handleHookResponse 2 Examples.env0 (Cache.new_ResponseCache 1000)
       "/x" ["foo.bar"] "foo.bar$x" JS.VUndefined
       (Some (set_data (JS.VString "") Examples.proto_ok))
       ≫= λ r, Some (existsb is_stor (log_of r)))
    = Some false.
Proof.
  split; [reflexivity|]. split; [vm_compute; reflexivity|].
  split; [reflexivity|]. split; vm_compute; reflexivity.
Qed.

Lemma cache_insertion_witness :
  Cache.reachable (D := ResponsePrototype) 1000 (Cache.new_ResponseCache 1000)
  ∧ (∀ p, Some Examples.proto_ok = Some p → cacheable Examples.env0 p = true →
          is_Some (JS.to_number (maxAge p)))
  ∧ ∃ n, ∀ fuel, (n ≤ fuel)%nat →
      ∃ r,
        __handleHookResponse fuel Examples.env0
          (Cache.new_ResponseCache 1000) "/x" ["foo.bar"] "foo.bar$x"
          JS.VUndefined (Some Examples.proto_ok) = Some r
        ∧ ∃ k d sz ex, CacheStor k d sz ex ∈ log_of r.
Proof.
  assert (Hnum : ∀ p, Some Examples.proto_ok = Some p →
                      cacheable Examples.env0 p = true →
                      is_Some (JS.to_number (maxAge p))).
  { intros p Hp _. injection Hp as <-. eexists. reflexivity. }
  split; [apply Cache.reach_new|]. split; [exact Hnum|].
  destruct (cache_insertion 1000 Examples.env0 (Cache.new_ResponseCache 1000)
              "/x" ["foo.bar"] "foo.bar$x" JS.VUndefined
              (Some Examples.proto_ok) (Cache.reach_new 1000) Hnum) as [n Hn].
  exists n. intros fuel Hfuel. destruct (Hn fuel Hfuel) as (r & Hr & Hiff & _).
  exists r. split; [exact Hr|]. apply Hiff. exists Examples.proto_ok.
  split; [reflexivity|]. split; [reflexivity|].
  split; [exists 200; split; [reflexivity | lia]|].
  split; [exists "hello"; split; [reflexivity | discriminate]|].
  split; reflexivity.
Defined.

End ServerFacts.

(** * Further properties

    ** Queue: first in, first out below the capacity *)

Module QueueRuns.
Import Queue.

Section QueueRuns.
Context {A : Type}.
Implicit Types (q : Queue A) (l : list A) (buf : jsarray A).

Lemma array_get_set buf i j (x : A) :
  array_get (array_set buf i x) j
  = if decide (i = j) then Some x else array_get buf j.
Proof.
  unfold array_get, array_set, jsarray in *.
  destruct (decide (i < length buf)%nat) as [Hi|Hi].
  - destruct (decide (i = j)) as [<-|Hij].
    + by rewrite list_lookup_insert_eq.
    + by rewrite list_lookup_insert_ne.
  - destruct (decide (i = j)) as [<-|Hij].
    + rewrite lookup_app_r by lia.
      rewrite lookup_app_r; rewrite length_replicate; [|lia].
      by replace (i - length buf - (i - length buf))%nat with 0%nat by lia.
    + destruct (decide (j < length buf)%nat).
      * by rewrite lookup_app_l.
      * rewrite (lookup_ge_None_2 buf j) by lia. simpl.
        rewrite lookup_app_r by lia.
        destruct (decide (j < i)%nat).
        -- rewrite lookup_app_l by (rewrite length_replicate; lia).
           rewrite lookup_replicate_2; [done|lia].
        -- rewrite lookup_app_r by (rewrite length_replicate; lia).
           rewrite length_replicate.
           rewrite lookup_ge_None_2; [done|simpl; lia].
Qed.

Lemma holds_new n : holds (new_Queue n) ([] : list A).
Proof.
  unfold holds, new_Queue. cbn [capacity _head _tail _buffer length].
  assert (0 < (if n <=? 0 then 10 else n)).
  { destruct (n <=? 0) eqn:Hn; [lia|]. by apply Z.leb_gt in Hn. }
  split; [done|]. split; [lia|]. split; [by rewrite Z.mod_0_l by lia|].
  split; [done|]. by intros i x.
Qed.

Lemma add_unfold q (x : A) :
  add q x = {| capacity := capacity q;
               _buffer := array_set (_buffer q) (Z.to_nat (_tail q)) x;
               _head := _head q;
               _tail := Z.rem (_tail q + 1) (capacity q) |}.
Proof.
  unfold add. by rewrite QueueFacts.length_is_NaN.
Qed.

Lemma holds_add q l (x : A) :
  holds q l → Z.of_nat (length l) + 1 < capacity q →
  holds (add q x) (l ++ [x]).
Proof.
  intros (Hc & Hh & Ht & Hl & Hb) Hfit. rewrite add_unfold.
  unfold holds. simpl. rewrite length_app. simpl.
  assert (Htr : 0 ≤ _tail q < capacity q).
  { rewrite Ht. apply Z.mod_pos_bound. lia. }
  split; [done|]. split; [done|]. split.
  { rewrite Z.rem_mod_nonneg by lia. rewrite Ht.
    rewrite Zplus_mod_idemp_l. f_equal. lia. }
  split; [lia|].
  intros i y Hi. rewrite array_get_set.
  destruct (decide (i < length l)%nat) as [Hlt|Hge].
  - rewrite lookup_app_l in Hi by done.
    case_decide as Heq; [|by apply Hb].
    exfalso. apply Z2Nat.inj in Heq; [| lia | apply Z.mod_pos_bound; lia].
    rewrite Ht in Heq.
    (* (h + len) mod c = (h + i) mod c with i < len < c *)
    assert (Hd : ((_head q + Z.of_nat (length l)) - (_head q + Z.of_nat i)) `mod` capacity q = 0).
    { rewrite Zminus_mod, Heq, Z.sub_diag. apply Z.mod_0_l. lia. }
    rewrite Z.mod_small in Hd by lia. lia.
  - rewrite lookup_app_r in Hi by lia.
    destruct (i - length l)%nat eqn:Hil; [|done]. simpl in Hi.
    injection Hi as <-.
    assert (i = length l) by lia. subst i.
    rewrite <- Ht. by rewrite decide_True.
Qed.

Lemma holds_fetch_nil q : holds q ([] : list A) → fetch q = (None, q).
Proof.
  intros (Hc & Hh & Ht & _). unfold fetch. simpl in Ht.
  rewrite Z.add_0_r, Z.mod_small in Ht by lia.
  by rewrite decide_False by (intros ?; congruence).
Qed.

Lemma holds_fetch_cons q (x : A) l :
  holds q (x :: l) → ∃ q', fetch q = (Some x, q') ∧ holds q' l
    ∧ capacity q' = capacity q.
Proof.
  intros (Hc & Hh & Ht & Hl & Hb). unfold fetch. simpl in Ht, Hl.
  assert (Hne : _head q ≠ _tail q).
  { intros Heq. rewrite Ht in Heq.
    assert (Hd : ((_head q + Z.of_nat (S (length l))) - _head q) `mod` capacity q = 0).
    { rewrite Zminus_mod, <- Heq, (Z.mod_small (_head q)) by lia.
      rewrite Z.sub_diag. apply Z.mod_0_l. lia. }
    rewrite Z.mod_small in Hd by lia. lia. }
  rewrite decide_True by done.
  eexists. split.
  { f_equal. specialize (Hb 0%nat x eq_refl). simpl in Hb.
    rewrite Z.add_0_r, Z.mod_small in Hb by lia. done. }
  split; [|done].
  unfold holds. simpl. rewrite Z.rem_mod_nonneg by lia.
  split; [done|]. split; [apply Z.mod_pos_bound; lia|]. split.
  { rewrite Ht, Zplus_mod_idemp_l. f_equal. lia. }
  split; [lia|].
  intros i y Hi. specialize (Hb (S i) y Hi).
  rewrite Zplus_mod_idemp_l.
  by replace (_head q + 1 + Z.of_nat i) with (_head q + Z.of_nat (S i)) by lia.
Qed.

Lemma add_capacity q (x : A) : capacity (add q x) = capacity q.
Proof. by rewrite add_unfold. Qed.

Lemma queue_run_holds ops : ∀ q l,
  holds q l →
  below (Z.to_nat (capacity q)) ops (length l) = true →
  run ops q = run_fifo ops l.
Proof.
  induction ops as [|[x|] ops IH]; intros q l Hq Hb; simpl in *; [done| |].
  - apply andb_prop in Hb as [Hfit Hb]. apply Nat.ltb_lt in Hfit.
    apply IH.
    + apply holds_add; [done|]. destruct Hq as (Hc & _). lia.
    + rewrite add_capacity, length_app. simpl.
      by replace (length l + 1)%nat with (S (length l)) by lia.
  - destruct l as [|y l].
    + rewrite holds_fetch_nil by done. f_equal. by apply IH.
    + destruct (holds_fetch_cons q y l Hq) as (q' & -> & Hq' & Hcap).
      f_equal. apply IH; [done|]. by rewrite Hcap.
Qed.

End QueueRuns.

(** X1.  A queue created with capacity [n] behaves as a first-in-first-out
    queue for every run of [add] and [fetch] during which fewer than [n]
    items are pending at any time: each [fetch] returns the oldest pending
    item, and [undefined] when none is pending. *)
Theorem queue_fifo_below_capacity {A} n (ops : list (op A)) :
  below (Z.to_nat (capacity (new_Queue (A := A) n))) ops 0 = true →
  run ops (new_Queue n) = run_fifo ops [].
Proof. intros Hb. apply queue_run_holds; [apply holds_new|done]. Qed.

Lemma queue_fifo_below_capacity_witness :
  run [Add 1; Add 2; Fetch; Add 3; Fetch; Fetch; Fetch] (new_Queue 3)
  = [Some 1; Some 2; Some 3; None].
Proof.
  apply (queue_fifo_below_capacity 3
           [Add 1; Add 2; Fetch; Add 3; Fetch; Fetch; Fetch]).
  reflexivity.
Defined.

End QueueRuns.

(** ** LinkedList: the operations act on the list of values *)

Module ListRuns.
Import LinkedList LinkedListFacts.

Local Arguments remove : simpl never.
Local Arguments insert : simpl never.
Local Arguments append : simpl never.

Lemma shape_tail_snoc2 l b a : shape_tail ((l ++ [b]) ++ [a]) = Some a.
Proof.
  destruct l as [|p l]; [done|].
  change (shape_tail (p :: (l ++ [b]) ++ [a]) = Some a).
  by rewrite shape_tail_cons, last_snoc.
Qed.

Lemma shape_tail_snoc l b :
  shape_tail (l ++ [b]) = match l with [] => None | _ => Some b end.
Proof.
  destruct l as [|p l]; [done|].
  change (shape_tail (p :: l ++ [b]) = Some b).
  by rewrite shape_tail_cons, last_snoc.
Qed.

(** Linking an unlinked item [a] behind [l]. *)
Lemma link_last_Rep h h0 ll l a v :
  Rep h ll l → a ∉ l →
  h0 !! a = Some {| value := v; prev := None; next := None |} →
  (∀ b, b ≠ a → h0 !! b = h !! b) →
  ∃ h' ll', link_last h0 ll a = (h', ll', a)
    ∧ Rep h' ll' (l ++ [a])
    ∧ (∀ b, value <$> h' !! b = value <$> h0 !! b).
Proof.
  intros (Hnd & Hseg & Hh & Ht) Hni Ha Hfr. unfold link_last.
  destruct l as [|b0 l0] using rev_ind.
  { rewrite Ht, Hh. simpl. eexists _, _. split; [done|]. split; [|done].
    split; [apply NoDup_singleton|]. split; [|done].
    simpl. split; [|done]. eexists. by rewrite Ha. }
  clear IHl0. rename l0 into l', b0 into tl.
  apply NoDup_app in Hnd as (Hnd' & Hdisj & _).
  assert (Htl : tl ∉ l') by (intros Hin; apply (Hdisj _ Hin); left).
  assert (Hatl : tl ≠ a) by (intros ->; apply Hni, elem_of_app; right; left).
  assert (Hal : a ∉ l') by (intros Hin; apply Hni, elem_of_app; by left).
  set (h' := alter (set_prev (Some tl)) a (alter (set_next (Some a)) tl h0)).
  assert (HR : ∀ ll', _head ll' = _head ll → _tail ll' = Some a →
                 Rep h' ll' ((l' ++ [tl]) ++ [a])).
  { intros ll' Hh' Ht'. split.
    { apply NoDup_app. split; [|split; [|apply NoDup_singleton]].
      - apply NoDup_app. split; [done|]. split; [done|apply NoDup_singleton].
      - intros x Hx ->%list_elem_of_singleton. by apply Hni. }
    split.
    { apply seg_app. split.
      - apply seg_frame with (h := alter (set_next (Some a)) tl h0).
        { intros b Hb. unfold h'. rewrite lookup_alter_ne; [done|].
          by intros ->. }
        simpl. apply seg_set_next with (n := None); [done|].
        eapply seg_frame; [|exact Hseg].
        intros b Hb. apply Hfr. by intros ->.
      - unfold last_or. rewrite last_snoc. simpl. split; [|done].
        eexists. unfold h'.
        rewrite lookup_alter_eq, lookup_alter_ne, Ha by done. done. }
    split.
    { rewrite Hh', Hh, !hd_or_app. by destruct l'. }
    by rewrite Ht', shape_tail_snoc2. }
  rewrite Ht, Hh, shape_tail_snoc.
  destruct l' as [|p l'].
  - simpl. eexists _, _. split; [done|]. split.
    + apply HR; [by rewrite Hh|done].
    + intros b. by rewrite !value_alter.
  - eexists _, _. split; [done|]. split.
    + apply HR; done.
    + intros b. by rewrite !value_alter.
Qed.

Lemma append_value_Rep h ll l s :
  Rep h ll l →
  ∃ h' ll' a, append h ll (Value s) = (h', ll', a)
    ∧ h !! a = None ∧ Rep h' ll' (l ++ [a])
    ∧ value <$> h' !! a = Some s
    ∧ (∀ b, b ≠ a → value <$> h' !! b = value <$> h !! b).
Proof.
  intros HR. unfold append, as_item. set (a := fresh (dom h)).
  assert (Hfresh : h !! a = None) by (apply not_elem_of_dom, is_fresh).
  assert (Hni : a ∉ l).
  { intros Hin. eapply Rep_lookup in Hin; [|done].
    rewrite Hfresh in Hin. by destruct Hin. }
  destruct (link_last_Rep h
    (<[a := {| value := s; prev := None; next := None |}]> h) ll l a s HR Hni)
    as (h' & ll' & Heq & HR' & Hv).
  { by rewrite lookup_insert_eq. }
  { intros b Hb. by rewrite lookup_insert_ne. }
  exists h', ll', a. rewrite Heq. split; [done|]. split; [done|].
  split; [done|]. split.
  - by rewrite Hv, lookup_insert_eq.
  - intros b Hb. by rewrite Hv, lookup_insert_ne.
Qed.

Lemma append_item_Rep h ll l a :
  Rep h ll l → a ∉ l → is_Some (h !! a) →
  ∃ h' ll', append h ll (Item a) = (h', ll', a)
    ∧ Rep h' ll' (l ++ [a])
    ∧ (∀ b, value <$> h' !! b = value <$> h !! b).
Proof.
  intros HR Hni [it Hit]. unfold append, as_item.
  destruct (link_last_Rep h (alter unlink a h) ll l a (value it) HR Hni)
    as (h' & ll' & Heq & HR' & Hv).
  { by rewrite lookup_alter_eq, Hit. }
  { intros b Hb. by rewrite lookup_alter_ne. }
  exists h', ll'. rewrite Heq. split; [done|]. split; [done|].
  intros b. by rewrite Hv, value_alter.
Qed.

Lemma walk_back_seg h l : ∀ n fuel,
  seg h None l n → (length l ≤ fuel)%nat →
  walk_back fuel h (last l) = reverse l.
Proof.
  induction l as [|a l IH] using rev_ind; intros n fuel.
  - by destruct fuel.
  - rewrite seg_app, length_app, last_snoc, reverse_snoc. simpl.
    intros (Hl & (it & Ha & Hp & _) & _) Hlen.
    destruct fuel as [|fuel]; [lia|]. simpl. rewrite Ha, Hp. f_equal.
    replace (last_or None l) with (last l)
      by (unfold last_or; by destruct (last l)).
    eapply IH; [done|lia].
Qed.

(** The invariant of a run: the list object holds items whose values are
    [vs]. *)
Local Abbreviation run_inv st vs :=
  (∃ l, Rep st.1 st.2 l
        ∧ Forall2 (λ a v, value <$> st.1 !! a = Some v) l vs).

Lemma Forall2_values (h : store) l vs :
  Forall2 (λ a v, value <$> h !! a = Some v) l vs → values_of h l = vs.
Proof.
  induction 1 as [|a v l vs Hv _ IH]; [done|].
  change (values_of h (a :: l))
    with (match value <$> h !! a with
          | Some y => y :: values_of h l
          | None => values_of h l
          end).
  by rewrite Hv, IH.
Qed.

Lemma Forall2_values_ext (h h' : store) l vs :
  (∀ b, b ∈ l → value <$> h' !! b = value <$> h !! b) →
  Forall2 (λ a v, value <$> h !! a = Some v) l vs →
  Forall2 (λ a v, value <$> h' !! a = Some v) l vs.
Proof.
  intros Hext HF. induction HF as [|a v l vs Hv _ IH]; constructor.
  - rewrite Hext; [done|left].
  - apply IH. intros b Hb. apply Hext. by right.
Qed.

(** Splitting the run invariant at position [n]. *)
Lemma Forall2_split_at (h : store) l vs n i :
  Forall2 (λ a v, value <$> h !! a = Some v) l vs → l !! n = Some i →
  ∃ l1 l2 vs1 v vs2,
    l = l1 ++ i :: l2 ∧ vs = vs1 ++ v :: vs2
    ∧ length l1 = n ∧ length vs1 = n
    ∧ value <$> h !! i = Some v
    ∧ Forall2 (λ a v, value <$> h !! a = Some v) l1 vs1
    ∧ Forall2 (λ a v, value <$> h !! a = Some v) l2 vs2.
Proof.
  intros HF Hn.
  apply list_elem_of_split_length in Hn as (l1 & l2 & -> & Hlen).
  apply Forall2_app_inv_l in HF as (vs1 & vs' & HF1 & HF2 & ->).
  apply Forall2_cons_inv_l in HF2 as (v & vs2 & Hv & HF2 & ->).
  exists l1, l2, vs1, v, vs2.
  pose proof (Forall2_length _ _ _ HF1). repeat split; try done; lia.
Qed.

Lemma delete_middle {A} (l1 l2 : list A) x :
  delete (length l1) (l1 ++ x :: l2) = l1 ++ l2.
Proof. induction l1 as [|y l1 IH]; simpl; [done|]. by rewrite IH. Qed.

Lemma delete_past_end {A} (l : list A) n :
  (length l ≤ n)%nat → delete n l = l.
Proof.
  revert n. induction l as [|x l IH]; intros [|n] Hn; simpl in *;
    [done | done | lia |].
  f_equal. apply IH. lia.
Qed.

Lemma lookup_None_Forall2 (h : store) l vs n :
  Forall2 (λ a v, value <$> h !! a = Some v) l vs →
  l !! n = None → vs !! n = None.
Proof.
  intros HF Hn. apply lookup_ge_None. apply lookup_ge_None in Hn.
  by rewrite <- (Forall2_length _ _ _ HF).
Qed.

Lemma step_unfold h ll o :
  step (h, ll) o =
  match o with
  | Insert v => (insert h ll (Value v)).1
  | Append v => (append h ll (Value v)).1
  | Remove n =>
      match to_list h ll !! n with
      | Some i => remove h ll i
      | None => (h, ll)
      end
  | ToFront n =>
      match to_list h ll !! n with
      | Some i => (insert (remove h ll i).1 (remove h ll i).2 (Item i)).1
      | None => (h, ll)
      end
  | ToBack n =>
      match to_list h ll !! n with
      | Some i => (append (remove h ll i).1 (remove h ll i).2 (Item i)).1
      | None => (h, ll)
      end
  end.
Proof. destruct o; reflexivity. Qed.

Lemma step_holds st vs o : run_inv st vs → run_inv (step st o) (step_list vs o).
Proof.
  destruct st as [h ll]. intros (l & HR & HF). cbn [fst snd] in HR, HF.
  rewrite step_unfold. destruct o as [v|v|n|n|n]; unfold step_list.
  - destruct (insert_value_Rep h ll l v HR)
      as (h' & ll' & a & -> & Hfr & HR' & Hv & Hext).
    simpl. exists (a :: l). split; [done|]. constructor; [done|].
    eapply Forall2_values_ext; [|done]. intros b Hb. apply Hext.
    intros ->. eapply Rep_lookup in Hb; [|done].
    rewrite Hfr in Hb. by destruct Hb.
  - destruct (append_value_Rep h ll l v HR)
      as (h' & ll' & a & -> & Hfr & HR' & Hv & Hext).
    simpl. exists (l ++ [a]). split; [done|].
    apply Forall2_app; [|by repeat constructor].
    eapply Forall2_values_ext; [|done]. intros b Hb. apply Hext.
    intros ->. eapply Rep_lookup in Hb; [|done].
    rewrite Hfr in Hb. by destruct Hb.
  - rewrite (Rep_to_list _ _ _ HR).
    destruct (l !! n) as [i|] eqn:Hn.
    + destruct (Forall2_split_at h l vs n i HF Hn)
        as (l1 & l2 & vs1 & v & vs2 & -> & -> & Hl1 & Hvs1 & Hv & HF1 & HF2).
      destruct (remove_Rep h ll l1 i l2 HR) as (h' & ll' & -> & HR' & Hext).
      simpl. exists (l1 ++ l2). split; [done|].
      rewrite <- Hvs1, delete_middle.
      apply Forall2_app; (eapply Forall2_values_ext; [|done]); by intros.
    + simpl. exists l. split; [done|].
      rewrite delete_past_end; [done|].
      apply lookup_ge_None. by eapply lookup_None_Forall2.
  - rewrite (Rep_to_list _ _ _ HR).
    destruct (l !! n) as [i|] eqn:Hn.
    + destruct (Forall2_split_at h l vs n i HF Hn)
        as (l1 & l2 & vs1 & v & vs2 & -> & -> & Hl1 & Hvs1 & Hv & HF1 & HF2).
      pose proof HR as (Hnd & _).
      destruct (remove_Rep h ll l1 i l2 HR) as (h' & ll' & -> & HR' & Hext).
      cbn [fst snd].
      destruct (insert_item_Rep h' ll' (l1 ++ l2) i HR')
        as (h'' & ll'' & -> & HR'' & Hext').
      { apply NoDup_app in Hnd as (_ & Hd & Hnd2).
        apply NoDup_cons in Hnd2 as [Hi2 _].
        intros [Hin|Hin]%elem_of_app; [|done].
        apply (Hd _ Hin). left. }
      { apply (fmap_is_Some value). rewrite Hext, Hv. by eexists. }
      simpl. exists (i :: l1 ++ l2). split; [done|].
      rewrite <- Hvs1 at 1. rewrite lookup_app_r, Nat.sub_diag by lia. simpl.
      rewrite <- Hvs1, delete_middle.
      constructor; [by rewrite Hext', Hext|].
      apply Forall2_app; (eapply Forall2_values_ext; [|done]);
        intros; by rewrite Hext', Hext.
    + simpl. exists l. split; [done|].
      by rewrite (lookup_None_Forall2 _ _ _ _ HF Hn).
  - rewrite (Rep_to_list _ _ _ HR).
    destruct (l !! n) as [i|] eqn:Hn.
    + destruct (Forall2_split_at h l vs n i HF Hn)
        as (l1 & l2 & vs1 & v & vs2 & -> & -> & Hl1 & Hvs1 & Hv & HF1 & HF2).
      pose proof HR as (Hnd & _).
      destruct (remove_Rep h ll l1 i l2 HR) as (h' & ll' & -> & HR' & Hext).
      cbn [fst snd].
      destruct (append_item_Rep h' ll' (l1 ++ l2) i HR')
        as (h'' & ll'' & -> & HR'' & Hext').
      { apply NoDup_app in Hnd as (_ & Hd & Hnd2).
        apply NoDup_cons in Hnd2 as [Hi2 _].
        intros [Hin|Hin]%elem_of_app; [|done].
        apply (Hd _ Hin). left. }
      { apply (fmap_is_Some value). rewrite Hext, Hv. by eexists. }
      simpl. exists ((l1 ++ l2) ++ [i]). split; [done|].
      rewrite <- Hvs1 at 1. rewrite lookup_app_r, Nat.sub_diag by lia. simpl.
      rewrite <- Hvs1, delete_middle.
      apply Forall2_app; [|repeat constructor; by rewrite Hext', Hext].
      apply Forall2_app; (eapply Forall2_values_ext; [|done]);
        intros; by rewrite Hext', Hext.
    + simpl. exists l. split; [done|].
      by rewrite (lookup_None_Forall2 _ _ _ _ HF Hn).
Qed.

Lemma list_run_holds ops : ∀ st vs,
  run_inv st vs → run_inv (foldl step st ops) (foldl step_list vs ops).
Proof.
  induction ops as [|o ops IH]; intros st vs Hst; [done|].
  simpl. apply IH. by apply step_holds.
Qed.

Lemma Forall2_reverse_values (h : store) l vs :
  Forall2 (λ a v, value <$> h !! a = Some v) l vs →
  Forall2 (λ a v, value <$> h !! a = Some v) (reverse l) (reverse vs).
Proof.
  induction 1; [constructor|].
  rewrite !reverse_cons. apply Forall2_app; [done|by repeat constructor].
Qed.

(** X2.  After any run of [insert], [append], [remove] and re-linking of
    removed items on a new list, the values read from [head()] along [next]
    are those of the same run on a plain list ([insert] in front, [append]
    behind, [remove] deleting the position), the values read from [tail()]
    along [prev] are the same in reverse, and [head()] and [tail()] are the
    first and the last item. *)
Theorem list_operations_act_on_values ops :
  let st := foldl step (∅, new_LinkedList) ops in
  let vs := foldl step_list [] ops in
  values st = vs
  ∧ values_back st = reverse vs
  ∧ (value <$> (head st.2 ≫= (st.1 !!.))) = list.head vs
  ∧ (value <$> (tail st.2 ≫= (st.1 !!.))) = last vs.
Proof.
  intros st vs.
  destruct (list_run_holds ops (∅, new_LinkedList) []) as (l & HR & HF).
  { exists []. split; [apply Rep_new|constructor]. }
  fold st in HR, HF. fold vs in HF.
  pose proof (Rep_length _ _ _ HR) as Hlen.
  pose proof HR as (_ & Hseg & Hh & _).
  split; [|split; [|split]].
  - unfold values. change (walk _ _ _) with (to_list st.1 st.2).
    rewrite (Rep_to_list _ _ _ HR). by apply Forall2_values.
  - unfold values_back. rewrite (Rep_tail _ _ _ HR).
    rewrite (walk_back_seg _ _ None) by done.
    by apply Forall2_values, Forall2_reverse_values.
  - unfold head. rewrite Hh. destruct HF as [|a v l vs' Hv _]; [done|]. 
    simpl. by rewrite <- Hv; destruct (st.1 !! a).
  - rewrite (Rep_tail _ _ _ HR).
    apply Forall2_reverse_values in HF.
    rewrite <- !head_reverse.
    destruct HF as [|a v l' vs' Hv _]; [done|].
    simpl. by rewrite <- Hv; destruct (st.1 !! a).
Qed.

End ListRuns.

(** ** ResponseCache: hits, round trips and oversized entries *)

Module CacheUse.
Import LinkedList LinkedListFacts Cache CacheFacts.

Local Arguments remove : simpl never.
Local Arguments insert : simpl never.

Section CacheUse.
Context {D : Type}.
Implicit Types (c : ResponseCache D) (x : Item.ResponseCacheItem D).

Lemma keys_of_ext_in (h h' : store) l :
  (∀ b, b ∈ l → value <$> h' !! b = value <$> h !! b) →
  keys_of h' l = keys_of h l.
Proof.
  induction l as [|a l IH]; intros Hext; [done|].
  change (keys_of ?h (a :: l))
    with (match value <$> h !! a with
          | Some y => y :: keys_of h l
          | None => keys_of h l
          end).
  rewrite Hext by left. rewrite IH; [done|].
  intros b Hb. apply Hext. by right.
Qed.

(** Two well-formed caches with the same map give every item the same
    key. *)
Lemma wf_same_map_values c c' l l' a :
  wf_with c l → wf_with c' l' → _map c' = _map c → a ∈ l' →
  value <$> items c' !! a = value <$> items c !! a.
Proof.
  intros (_ & HA & _) (_ & _ & HB' & _) Hm Ha.
  destruct (HB' _ Ha) as (it & x & Hit & Hx & Hl).
  rewrite Hm in Hx. destruct (HA _ _ Hx) as [_ Hv].
  rewrite Hl in Hv. by rewrite Hit, Hv.
Qed.

Lemma total_size_nonneg (m : gmap string (Item.ResponseCacheItem D)) :
  (∀ k x, m !! k = Some x → 0 ≤ Item.size x) → 0 ≤ total_size m.
Proof.
  induction m as [|k x m Hk _ IH] using map_first_key_ind.
  - intros _. by rewrite (total_size_empty (D := D)).
  - intros Hnn. rewrite total_size_insert by done.
    assert (0 ≤ Item.size x) by (apply (Hnn k); by rewrite lookup_insert_eq).
    assert (0 ≤ total_size m); [|lia].
    apply IH. intros k' x' Hk'. apply (Hnn k').
    rewrite lookup_insert_ne; [done|]. by intros ->; congruence.
Qed.

Lemma total_size_ge (m : gmap string (Item.ResponseCacheItem D)) k x :
  (∀ k x, m !! k = Some x → 0 ≤ Item.size x) →
  m !! k = Some x → Item.size x ≤ total_size m.
Proof.
  intros Hnn Hk. pose proof (total_size_delete m k x Hk) as Hd.
  assert (0 ≤ total_size (delete k m)); [|lia].
  apply total_size_nonneg. intros k' x' [_ Hk']%lookup_delete_Some. eauto.
Qed.

(** A cache whose list is the one item of [k] holds [k] alone. *)
Lemma wf_single c a k x :
  wf_with c [a] → _map c !! k = Some x → _map c = {[ k := x ]}.
Proof.
  intros (_ & HA & _) Hk. apply map_eq. intros k'.
  destruct (decide (k' = k)) as [->|Hne].
  { by rewrite lookup_singleton_eq. }
  rewrite lookup_singleton_ne by done.
  destruct (_map c !! k') as [x'|] eqn:Hk'; [|done]. exfalso.
  destruct (HA _ _ Hk) as [Hin Hv]. destruct (HA _ _ Hk') as [Hin' Hv'].
  apply list_elem_of_singleton in Hin, Hin'.
  rewrite Hin in Hv. rewrite Hin' in Hv'. congruence.
Qed.

(** The eviction loop keeps the first entry of the list when that entry
    alone fits. *)
Lemma stor_evict_keeps_head fuel : ∀ c a l k x c',
  wf_with c (a :: l) → _map c !! k = Some x → Item.link x = a →
  Item.size x ≤ sizeLimit c →
  stor_evict fuel c = Some c' → _map c' !! k = Some x.
Proof.
  induction fuel as [|fuel IH]; intros c a l k x c' Hwf Hk Hl Hfit;
    cbn [stor_evict]; destruct (sizeLimit c <? size c) eqn:Hcmp;
    [done | by intros [= <-] | | by intros [= <-]].
  apply Z.ltb_lt in Hcmp.
  pose proof Hwf as (HR & HA & HB & Hsz).
  rewrite (Rep_tail _ _ _ HR).
  destruct l as [|i0 l0 _] using rev_ind.
  { exfalso. rewrite (wf_single c a k x Hwf Hk) in Hsz.
    unfold singletonM, map_singleton in Hsz.
    rewrite total_size_insert, total_size_empty in Hsz by done. lia. }
  rewrite app_comm_cons, last_snoc.
  destruct (HB i0) as (it & x0 & Hit & Hx0 & Hl0).
  { apply elem_of_cons. right. apply elem_of_app. right. left. }
  assert (Hne : value it ≠ k).
  { intros Heq. rewrite Heq, Hk in Hx0. injection Hx0 as <-.
    destruct HR as (Hnd & _). apply NoDup_cons in Hnd as [Hni _].
    apply Hni, elem_of_app. right. rewrite <- Hl, Hl0. left. }
  rewrite Hit, Hx0. cbn [size sizeLimit _map items _lru].
  destruct (remove (items c) (_lru c) i0) as [h' ll'] eqn:Hrem.
  rewrite app_comm_cons in Hwf.
  pose proof (wf_with_remove c (a :: l0) i0 [] _ x0 h' ll' Hwf Hx0 Hl0 Hrem)
    as Hwf'.
  rewrite app_nil_r in Hwf'.
  apply IH with (a := a) (l := l0); [exact Hwf' | | done | done].
  cbn [_map]. by rewrite lookup_delete_ne.
Qed.

(** The eviction loop empties the cache when its first entry alone exceeds
    the limit and no entry has a negative size. *)
Lemma stor_evict_flush fuel : ∀ c a l k x,
  wf_with c (a :: l) → _map c !! k = Some x → Item.link x = a →
  0 ≤ sizeLimit c < Item.size x →
  (∀ k x, _map c !! k = Some x → 0 ≤ Item.size x) →
  (S (length l) < fuel)%nat →
  ∃ c', stor_evict fuel c = Some c' ∧ _map c' = ∅ ∧ size c' = 0
    ∧ wf_with c' [].
Proof.
  induction fuel as [|fuel IH]; intros c a l k x Hwf Hk Hl Hbig Hnn Hlen;
    [lia|].
  pose proof Hwf as (HR & HA & HB & Hsz).
  pose proof (total_size_ge _ _ _ Hnn Hk) as Hge.
  cbn [stor_evict].
  replace (sizeLimit c <? size c) with true by (symmetry; apply Z.ltb_lt; lia).
  rewrite (Rep_tail _ _ _ HR).
  destruct l as [|i0 l0 _] using rev_ind.
  - (* the entry itself is the tail *)
    cbn [last]. destruct (HB a) as (it & x0 & Hit & Hx0 & Hl0); [left|].
    rewrite Hit, Hx0. cbn [size sizeLimit _map items _lru].
    destruct (remove (items c) (_lru c) a) as [h' ll'] eqn:Hrem.
    pose proof (wf_with_remove c [] a [] _ x0 h' ll' Hwf Hx0 Hl0 Hrem) as Hwf'.
    simpl in Hwf'. pose proof (wf_map_empty _ Hwf') as Hm.
    pose proof Hwf' as (_ & _ & _ & Hsz'). rewrite Hm, total_size_empty in Hsz'.
    destruct fuel as [|fuel]; [simpl in Hlen; lia|].
    cbn [stor_evict size sizeLimit]. cbn [size] in Hsz'.
    replace (sizeLimit c <? size c - Item.size x0) with false
      by (rewrite Hsz'; symmetry; apply Z.ltb_ge; lia).
    eexists. split; [done|]. split; [exact Hm|].
    split; [exact Hsz' | exact Hwf'].
  - rewrite app_comm_cons, last_snoc.
    destruct (HB i0) as (it & x0 & Hit & Hx0 & Hl0).
    { apply elem_of_cons. right. apply elem_of_app. right. left. }
    assert (Hne : value it ≠ k).
    { intros Heq. rewrite Heq, Hk in Hx0. injection Hx0 as <-.
      destruct HR as (Hnd & _). apply NoDup_cons in Hnd as [Hni _].
      apply Hni, elem_of_app. right. rewrite <- Hl, Hl0. left. }
    rewrite Hit, Hx0. cbn [size sizeLimit _map items _lru].
    destruct (remove (items c) (_lru c) i0) as [h' ll'] eqn:Hrem.
    rewrite app_comm_cons in Hwf.
    pose proof (wf_with_remove c (a :: l0) i0 [] _ x0 h' ll' Hwf Hx0 Hl0 Hrem)
      as Hwf'.
    rewrite app_nil_r in Hwf'.
    rewrite length_app in Hlen. simpl in Hlen.
    apply IH with (a := a) (l := l0) (k := k) (x := x);
      [exact Hwf' | | done | done | | lia].
    + cbn [_map]. by rewrite lookup_delete_ne.
    + cbn [_map]. intros k' x' [_ Hk']%lookup_delete_Some. eauto.
Qed.

(** After [stor_update] of a new key, its entry is the first of the list. *)
Lemma stor_update_new_head c l id d sz e :
  wf_with c l → _map c !! id = None →
  ∃ a x, wf_with (stor_update c id d sz e) (a :: l)
    ∧ _map (stor_update c id d sz e) !! id = Some x
    ∧ _map (stor_update c id d sz e) = <[id := x]> (_map c)
    ∧ Item.link x = a ∧ Item.data x = d ∧ Item.size x = sz
    ∧ Item.expire x = e ∧ Item.id x = id.
Proof.
  intros Hwf Hid. pose proof Hwf as (HR & HA & HB & Hsz).
  destruct (insert_value_Rep _ _ _ id HR)
    as (h' & ll' & a & Hins & Hfresh & HR' & Hva & Hv).
  destruct (stor_update_wf c l id d sz e Hwf) as (l' & Hwf' & _).
  exists a. revert Hwf'. unfold stor_update. rewrite Hid, Hins.
  intros Hwf'. eexists. split; [|cbn [_map]; rewrite lookup_insert_eq; done].
  (* the list of the updated cache is [a :: l] *)
  pose proof Hwf' as (HR'' & _).
  cbn [items _lru] in HR''.
  assert (l' = a :: l) as ->; [|done].
  by rewrite <- (Rep_to_list _ _ _ HR''), (Rep_to_list _ _ _ HR').
Qed.

End CacheUse.

Lemma retv_live_moves_to_head {D} limit (c : ResponseCache D) now k x :
  reachable limit c → _map c !! k = Some x →
  JS.ltb (Item.expire x) (JS.Num now) = false →
  ∃ l1 l2, lru_keys c = l1 ++ k :: l2
    ∧ (retv now c k).1 = Some (Item.data x)
    ∧ lru_keys (retv now c k).2 = k :: l1 ++ l2
    ∧ _map (retv now c k).2 = _map c
    ∧ size (retv now c k).2 = size c.
Proof.
  intros [[l Hwf] _]%reachable_wf Hk Hexp.
  destruct (retv_live_wf c l now k x Hwf Hk Hexp)
    as (l1 & l2 & c' & -> & Hret & Hwf' & Hmap & Hsz & _).
  rewrite Hret. cbn [fst snd].
  pose proof Hwf as (_ & HA & _). destruct (HA _ _ Hk) as [_ Hval].
  exists (keys_of (items c) l1), (keys_of (items c) l2).
  split.
  { rewrite (lru_keys_wf _ _ Hwf), keys_of_app. f_equal.
    unfold keys_of at 1. simpl. by rewrite Hval. }
  split; [done|]. split; [|done].
  rewrite (lru_keys_wf _ _ Hwf').
  rewrite (keys_of_ext_in (items c) (items c')).
  2:{ intros b Hb. by eapply wf_same_map_values. }
  change (keys_of (items c) (Item.link x :: l1 ++ l2))
    with (match value <$> items c !! Item.link x with
          | Some y => y :: keys_of (items c) (l1 ++ l2)
          | None => keys_of (items c) (l1 ++ l2)
          end).
  by rewrite Hval, keys_of_app.
Qed.

(** X3.  On a cache that the server can hold, [retv] of a key whose entry
    has not expired ([expire < now] is false: the expiry time is [now] or
    later, or is [NaN]) returns the stored data and moves the key to the
    head of the LRU list, the other keys keeping their order; the entries
    and the total size are unchanged. *)
Theorem retv_live_hit {D} limit (c : ResponseCache D) now k x :
  reachable limit c → _map c !! k = Some x →
  JS.ltb (Item.expire x) (JS.Num now) = false →
  ∃ l1 l2, lru_keys c = l1 ++ k :: l2
    ∧ (retv now c k).1 = Some (Item.data x)
    ∧ lru_keys (retv now c k).2 = k :: l1 ++ l2
    ∧ _map (retv now c k).2 = _map c
    ∧ size (retv now c k).2 = size c.
Proof. apply retv_live_moves_to_head. Qed.

Lemma retv_live_hit_witness :
  ∃ l1 l2, lru_keys Examples.cache_AB = l1 ++ "A" :: l2
    ∧ (retv 50 Examples.cache_AB "A").1 = Some ()
    ∧ lru_keys (retv 50 Examples.cache_AB "A").2 = "A" :: l1 ++ l2
    ∧ _map (retv 50 Examples.cache_AB "A").2 = _map Examples.cache_AB
    ∧ size (retv 50 Examples.cache_AB "A").2 = size Examples.cache_AB.
Proof.
  refine (retv_live_hit 1000 Examples.cache_AB 50 "A"
            (Item.mk () 100 "A" (JS.Num 50) 1%positive) _ _ _).
  - apply (reach_stor 1000 Examples.cache_A 3 "B" () 100 (JS.Num 60));
      [|vm_compute; reflexivity].
    apply (reach_stor 1000 (new_ResponseCache 1000) 2 "A" () 100 (JS.Num 50));
      [apply reach_new | vm_compute; reflexivity].
  - vm_compute. reflexivity.
  - reflexivity.
Defined.

Lemma stor_retv_round_trip {D} limit (c : ResponseCache D) k d sz e now :
  reachable limit c →
  (_map c !! k = None ∧ sz ≤ limit)
  ∨ size (stor_update c k d sz e) ≤ limit
  ∨ limit ≤ 0 →
  ∃ n, ∀ fuel, (n ≤ fuel)%nat →
    ∃ c' x, stor fuel c k d sz e = Some c'
      ∧ _map c' !! k = Some x
      ∧ Item.data x = d ∧ Item.size x = sz ∧ Item.expire x = e
      ∧ (JS.ltb e (JS.Num now) = false → (retv now c' k).1 = Some d).
Proof.
  intros Hreach Hfit. pose proof Hreach as [[l Hwf] Hlim]%reachable_wf.
  destruct (stor_returns limit c k d sz e Hreach) as (n & Hn).
  exists n. intros fuel Hfuel. destruct (Hn fuel Hfuel) as [c' Hst].
  assert (Hx : ∃ x, _map (stor_update c k d sz e) !! k = Some x
                 ∧ Item.data x = d ∧ Item.size x = sz ∧ Item.expire x = e).
  { unfold stor_update. destruct (_map c !! k) as [x0|].
    - eexists. cbn [_map]. by rewrite lookup_insert_eq.
    - destruct (insert _ _ _) as [[h ll] lk]. eexists. cbn [_map].
      by rewrite lookup_insert_eq. }
  destruct Hx as (x & Hx & Hd & Hs & He).
  assert (Hk' : _map c' !! k = Some x).
  { unfold stor in Hst. rewrite stor_update_sizeLimit, Hlim in Hst.
    destruct (0 <? limit) eqn:Hpos; [|by injection Hst as <-].
    apply Z.ltb_lt in Hpos.
    destruct Hfit as [[Hnew Hsz]|[Htot|Hno]]; [| |lia].
    - destruct (stor_update_new_head c l k d sz e Hwf Hnew)
        as (a & x' & Hwf' & Hx' & _ & Hl' & _).
      rewrite Hx in Hx'. injection Hx' as <-.
      eapply stor_evict_keeps_head; [exact Hwf' | done | done | | exact Hst].
      rewrite stor_update_sizeLimit, Hlim. lia.
    - destruct fuel; cbn [stor_evict] in Hst;
        rewrite stor_update_sizeLimit, Hlim in Hst;
        replace (limit <? size (stor_update c k d sz e)) with false in Hst
          by (symmetry; apply Z.ltb_ge; lia);
        by injection Hst as <-. }
  exists c', x. split; [done|]. split; [done|].
  split; [done|]. split; [done|]. split; [done|].
  intros Hlive.
  assert (Hwf' : wf c') by (eapply stor_wf; [by exists l | exact Hst]).
  destruct Hwf' as [l' Hwf'].
  destruct (retv_live_wf c' l' now k x Hwf' Hk')
    as (l1 & l2 & c'' & _ & -> & _); [by rewrite He|].
  by rewrite <- Hd.
Qed.

(** X4.  [stor] followed by [retv] is a round trip whenever the entry
    is sure to stay: for a key that is not in the cache and a size within
    the limit (the new entry is the last one the eviction would reach), or
    when the total after the update is within the limit, or when the cache
    has no limit.  [stor] returns, the entry of the key holds the given
    data, size and expiry time, and [retv] returns the data as long as the
    entry has not expired. *)
Theorem stor_then_retv {D} limit (c : ResponseCache D) k d sz e now :
  reachable limit c →
  (_map c !! k = None ∧ sz ≤ limit)
  ∨ size (stor_update c k d sz e) ≤ limit
  ∨ limit ≤ 0 →
  ∃ n, ∀ fuel, (n ≤ fuel)%nat →
    ∃ c' x, stor fuel c k d sz e = Some c'
      ∧ _map c' !! k = Some x
      ∧ Item.data x = d ∧ Item.size x = sz ∧ Item.expire x = e
      ∧ (JS.ltb e (JS.Num now) = false → (retv now c' k).1 = Some d).
Proof. apply stor_retv_round_trip. Qed.

Lemma stor_then_retv_witness :
  ∃ n, ∀ fuel, (n ≤ fuel)%nat →
    ∃ c' x, stor fuel Examples.cache_AB "C" () 900 (JS.Num 70) = Some c'
      ∧ _map c' !! "C" = Some x
      ∧ Item.data x = () ∧ Item.size x = 900 ∧ Item.expire x = JS.Num 70
      ∧ (JS.ltb (JS.Num 70) (JS.Num 60) = false →
         (retv 60 c' "C").1 = Some ()).
Proof.
  apply (stor_then_retv 1000 Examples.cache_AB "C" () 900 (JS.Num 70) 60).
  - apply (reach_stor 1000 Examples.cache_A 3 "B" () 100 (JS.Num 60));
      [|vm_compute; reflexivity].
    apply (reach_stor 1000 (new_ResponseCache 1000) 2 "A" () 100 (JS.Num 50));
      [apply reach_new | vm_compute; reflexivity].
  - left. split; [vm_compute; reflexivity | lia].
Defined.

(** X5.  Storing, under a key that is not in the cache, an entry that is
    larger than a positive limit empties the cache: when no stored entry
    has a negative size, [stor] evicts every other entry and then the new
    one. *)
Theorem stor_oversized_flushes {D} limit (c : ResponseCache D) k d sz e :
  reachable limit c → 0 < limit < sz → _map c !! k = None →
  (∀ k x, _map c !! k = Some x → 0 ≤ Item.size x) →
  ∃ n, ∀ fuel, (n ≤ fuel)%nat →
    ∃ c', stor fuel c k d sz e = Some c'
      ∧ _map c' = ∅ ∧ size c' = 0 ∧ lru_keys c' = [].
Proof.
  intros [[l Hwf] Hlim]%reachable_wf Hbig Hnew Hnn.
  destruct (stor_update_new_head c l k d sz e Hwf Hnew)
    as (a & x & Hwf' & Hx & Hmap & Hl & _ & Hs & _).
  exists (S (S (S (length l)))). intros fuel Hfuel. unfold stor.
  rewrite stor_update_sizeLimit, Hlim.
  replace (0 <? limit) with true by (symmetry; apply Z.ltb_lt; lia).
  destruct (stor_evict_flush fuel _ a l k x Hwf' Hx Hl)
    as (c' & Hev & Hm & Hsz & Hwf''); [| |lia|].
  { rewrite stor_update_sizeLimit, Hlim. lia. }
  { rewrite Hmap. intros k' x' [[<- <-]|[_ Hk']]%lookup_insert_Some; [lia|].
    eauto. }
  exists c'. split; [done|]. split; [done|]. split; [done|].
  by rewrite (lru_keys_wf _ _ Hwf'').
Qed.

Lemma stor_oversized_flushes_witness :
  ∃ n, ∀ fuel, (n ≤ fuel)%nat →
    ∃ c', stor fuel Examples.cache_AB "C" () 2000 (JS.Num 70) = Some c'
      ∧ _map c' = ∅ ∧ size c' = 0 ∧ lru_keys c' = [].
Proof.
  apply (stor_oversized_flushes 1000 Examples.cache_AB "C" () 2000 (JS.Num 70)).
  - apply (reach_stor 1000 Examples.cache_A 3 "B" () 100 (JS.Num 60));
      [|vm_compute; reflexivity].
    apply (reach_stor 1000 (new_ResponseCache 1000) 2 "A" () 100 (JS.Num 50));
      [apply reach_new | vm_compute; reflexivity].
  - lia.
  - vm_compute. reflexivity.
  - intros k x. 
    destruct (decide (k = "A")) as [->|HA];
      [vm_compute; intros [= <-]; discriminate|].
    destruct (decide (k = "B")) as [->|HB];
      [vm_compute; intros [= <-]; discriminate|].
    intros Hk. exfalso. revert Hk.
    change (_map Examples.cache_AB) with
      (<["B" := Item.mk () 100 "B" (JS.Num 60) 2%positive]>
         (<["A" := Item.mk () 100 "A" (JS.Num 50) 1%positive]>
            (∅ : gmap string (Item.ResponseCacheItem unit)))).
    by rewrite !lookup_insert_ne, lookup_empty by done.
Defined.

End CacheUse.

(** ** HookExecutor: what the three ways to run a chain compute *)

Module ChainFacts.
Import Hooks MatchFacts.

Ltac policy_cases p :=
  destruct p as [|[[?|?|]|[?|?|]|]|?].

Lemma call_loop_cons hook rest i m ctx args tr :
  call_loop (hook :: rest) i m ctx (JS.VArray args) tr =
  if included (_compareFunc ctx) m hook then
    if execPolicy hook =? 0 then
      call_loop rest (S i) m
        (set_lastResult (code (fn hook) (_lastResult ctx) args) ctx)
        (JS.VArray args) (tr ++ [mkInv i (_lastResult ctx) args])
    else if execPolicy hook =? 1 then
      call_loop rest (S i) m (set_lastResult (_lastResult ctx) ctx)
        (JS.VArray args) (tr ++ [mkInv i (_lastResult ctx) args])
    else if execPolicy hook =? 2 then
      Suspended {| _lastResult := _lastResult ctx;
                   callback := resume m (JS.VArray args);
                   _nextHook := S i;
                   _compareFunc := _compareFunc ctx |}
        (tr ++ [mkInv i (_lastResult ctx) args])
    else call_loop rest (S i) m ctx (JS.VArray args) tr
  else call_loop rest (S i) m ctx (JS.VArray args) tr.
Proof.
  cbn [call_loop]. unfold included.
  destruct (JS.truthy _); [|done]. by policy_cases (execPolicy hook).
Qed.

Lemma callSync_loop_cons hook rest i m ctx args tr :
  callSync_loop (hook :: rest) i m ctx (JS.VArray args) tr =
  if included (_compareFunc ctx) m hook then
    if execPolicy hook =? 0 then
      callSync_loop rest (S i) m
        (set_lastResult (code (fn hook) (_lastResult ctx) args) ctx)
        (JS.VArray args) (tr ++ [mkInv i (_lastResult ctx) args])
    else if execPolicy hook =? 1 then
      callSync_loop rest (S i) m (set_lastResult (_lastResult ctx) ctx)
        (JS.VArray args) (tr ++ [mkInv i (_lastResult ctx) args])
    else callSync_loop rest (S i) m ctx (JS.VArray args) tr
  else callSync_loop rest (S i) m ctx (JS.VArray args) tr.
Proof.
  cbn [callSync_loop]. unfold included.
  destruct (JS.truthy _); [|done]. by policy_cases (execPolicy hook).
Qed.

Lemma after_hook_cases f m args lr hook :
  after_hook f m args lr hook =
  if included f m hook then
    if execPolicy hook =? 0 then code (fn hook) lr args else lr
  else lr.
Proof. unfold after_hook. by destruct (included f m hook). Qed.

(** [call] from a position of the chain: the run goes on to the first
    included asynchronous function, or to the end. *)
Lemma call_loop_result args m : ∀ hooks i ctx tr,
  match findIndex (suspends (_compareFunc ctx) m) hooks with
  | None =>
      ∃ ctx' tr',
        call_loop hooks i m ctx (JS.VArray args) tr = Finished ctx' tr'
        ∧ _lastResult ctx'
          = foldl (after_hook (_compareFunc ctx) m args) (_lastResult ctx) hooks
        ∧ callback ctx' = callback ctx ∧ _nextHook ctx' = _nextHook ctx
        ∧ _compareFunc ctx' = _compareFunc ctx
  | Some j =>
      ∃ ctx' tr',
        call_loop hooks i m ctx (JS.VArray args) tr = Suspended ctx' tr'
        ∧ _lastResult ctx'
          = foldl (after_hook (_compareFunc ctx) m args) (_lastResult ctx)
              (take j hooks)
        ∧ callback ctx' = resume m (JS.VArray args)
        ∧ _nextHook ctx' = S (i + j)
        ∧ _compareFunc ctx' = _compareFunc ctx
  end.
Proof.
  induction hooks as [|hook rest IH]; intros i ctx tr.
  { simpl. by eexists _, _. }
  rewrite call_loop_cons. cbn [findIndex].
  assert (Hrun : ∀ c0 t0, _compareFunc c0 = _compareFunc ctx →
    match findIndex (suspends (_compareFunc ctx) m) rest with
    | None =>
        ∃ ctx' tr',
          call_loop rest (S i) m c0 (JS.VArray args) t0 = Finished ctx' tr'
          ∧ _lastResult ctx'
            = foldl (after_hook (_compareFunc ctx) m args) (_lastResult c0) rest
          ∧ callback ctx' = callback c0 ∧ _nextHook ctx' = _nextHook c0
          ∧ _compareFunc ctx' = _compareFunc ctx
    | Some j =>
        ∃ ctx' tr',
          call_loop rest (S i) m c0 (JS.VArray args) t0 = Suspended ctx' tr'
          ∧ _lastResult ctx'
            = foldl (after_hook (_compareFunc ctx) m args) (_lastResult c0)
                (take j rest)
          ∧ callback ctx' = resume m (JS.VArray args)
          ∧ _nextHook ctx' = S (i + S j)
          ∧ _compareFunc ctx' = _compareFunc ctx
    end).
  { intros c0 t0 Hc0. specialize (IH (S i) c0 t0). rewrite Hc0 in IH.
    destruct (findIndex _ rest) as [j|]; [|done].
    destruct IH as (ctx' & tr' & Heq & Hlr & Hcb & Hnh & Hcf).
    exists ctx', tr'. rewrite Heq, Hnh. repeat split; try done; f_equal; lia. }
  unfold suspends at 1.
  destruct (included (_compareFunc ctx) m hook) eqn:Hinc; cbn [andb].
  2:{ specialize (Hrun ctx tr eq_refl).
      destruct (findIndex _ rest) as [j|]; cbn [fmap option_fmap option_map take foldl];
        rewrite after_hook_cases, Hinc; exact Hrun. }
  destruct (execPolicy hook =? 0) eqn:H0.
  { apply Z.eqb_eq in H0. rewrite H0. cbn [Z.eqb].
    specialize (Hrun
      (set_lastResult (code (fn hook) (_lastResult ctx) args) ctx)
      (tr ++ [mkInv i (_lastResult ctx) args]) eq_refl).
    destruct (findIndex _ rest) as [j|]; cbn [fmap option_fmap option_map take foldl];
      rewrite after_hook_cases, Hinc, H0; exact Hrun. }
  destruct (execPolicy hook =? 1) eqn:H1.
  { apply Z.eqb_eq in H1. rewrite H1. cbn [Z.eqb Pos.eqb].
    specialize (Hrun (set_lastResult (_lastResult ctx) ctx)
      (tr ++ [mkInv i (_lastResult ctx) args]) eq_refl).
    destruct (findIndex _ rest) as [j|]; cbn [fmap option_fmap option_map take foldl];
      rewrite after_hook_cases, Hinc, H1; exact Hrun. }
  destruct (execPolicy hook =? 2) eqn:H2.
  { eexists _, _. split; [done|]. simpl. repeat split. f_equal. lia. }
  specialize (Hrun ctx tr eq_refl).
  destruct (findIndex _ rest) as [j|]; cbn [fmap option_fmap option_map take foldl];
    rewrite after_hook_cases, Hinc, H0; exact Hrun.
Qed.

Lemma callSync_loop_result args m : ∀ hooks i ctx tr,
  ∃ ctx' tr',
    callSync_loop hooks i m ctx (JS.VArray args) tr = Finished ctx' (tr ++ tr')
    ∧ _lastResult ctx'
      = foldl (after_hook (_compareFunc ctx) m args) (_lastResult ctx) hooks
    ∧ Forall (λ inv, ∃ p h,
               inv_index inv = (i + p)%nat ∧ hooks !! p = Some h
               ∧ included (_compareFunc ctx) m h = true
               ∧ (execPolicy h = 0 ∨ execPolicy h = 1)
               ∧ inv_args inv = args) tr'.
Proof.
  induction hooks as [|hook rest IH]; intros i ctx tr.
  { exists ctx, []. by rewrite app_nil_r. }
  rewrite callSync_loop_cons. cbn [foldl]. rewrite after_hook_cases.
  assert (Hshift : ∀ tr',
    Forall (λ inv, ∃ p h,
              inv_index inv = (S i + p)%nat ∧ rest !! p = Some h
              ∧ included (_compareFunc ctx) m h = true
              ∧ (execPolicy h = 0 ∨ execPolicy h = 1)
              ∧ inv_args inv = args) tr' →
    Forall (λ inv, ∃ p h,
              inv_index inv = (i + p)%nat ∧ (hook :: rest) !! p = Some h
              ∧ included (_compareFunc ctx) m h = true
              ∧ (execPolicy h = 0 ∨ execPolicy h = 1)
              ∧ inv_args inv = args) tr').
  { intros tr' HF. eapply Forall_impl; [exact HF|].
    intros inv (p & h & Hi & Hp & Hrest).
    exists (S p), h. split; [lia|]. done. }
  assert (Hskip : ∃ ctx' tr',
    callSync_loop rest (S i) m ctx (JS.VArray args) tr = Finished ctx' (tr ++ tr')
    ∧ _lastResult ctx'
      = foldl (after_hook (_compareFunc ctx) m args) (_lastResult ctx) rest
    ∧ Forall (λ inv, ∃ p h,
               inv_index inv = (i + p)%nat ∧ (hook :: rest) !! p = Some h
               ∧ included (_compareFunc ctx) m h = true
               ∧ (execPolicy h = 0 ∨ execPolicy h = 1)
               ∧ inv_args inv = args) tr').
  { destruct (IH (S i) ctx tr) as (ctx' & tr' & Heq & Hlr & HF).
    exists ctx', tr'. split; [done|]. split; [done|]. by apply Hshift. }
  assert (Hrun : ∀ v, included (_compareFunc ctx) m hook = true →
    execPolicy hook = 0 ∨ execPolicy hook = 1 →
    ∃ ctx' tr',
      callSync_loop rest (S i) m (set_lastResult v ctx) (JS.VArray args)
        (tr ++ [mkInv i (_lastResult ctx) args]) = Finished ctx' (tr ++ tr')
      ∧ _lastResult ctx' = foldl (after_hook (_compareFunc ctx) m args) v rest
      ∧ Forall (λ inv, ∃ p h,
                 inv_index inv = (i + p)%nat ∧ (hook :: rest) !! p = Some h
                 ∧ included (_compareFunc ctx) m h = true
                 ∧ (execPolicy h = 0 ∨ execPolicy h = 1)
                 ∧ inv_args inv = args) tr').
  { intros v Hinc Hpol.
    destruct (IH (S i) (set_lastResult v ctx)
                (tr ++ [mkInv i (_lastResult ctx) args]))
      as (ctx' & tr' & Heq & Hlr & HF).
    rewrite set_lastResult_compare in Hlr, HF.
    exists ctx', (mkInv i (_lastResult ctx) args :: tr').
    split; [by rewrite Heq, <- app_assoc|]. split; [done|].
    constructor; [|by apply Hshift].
    exists 0%nat, hook. simpl. split; [lia|]. done. }
  destruct (included (_compareFunc ctx) m hook) eqn:Hinc; [|done].
  destruct (execPolicy hook =? 0) eqn:H0.
  { apply Z.eqb_eq in H0. apply Hrun; [done|by left]. }
  destruct (execPolicy hook =? 1) eqn:H1; [|done].
  apply Z.eqb_eq in H1. apply Hrun; [done|by right].
Qed.

Lemma dispatch_loop_cons hook rest i m ctx args tr :
  dispatch_loop (hook :: rest) i m ctx (JS.VArray args) tr =
  if included (_compareFunc ctx) m hook then
    if execPolicy hook =? 0 then
      dispatch_loop rest (S i) m
        (set_lastResult (code (fn hook) JS.VUndefined args)
           (set_lastResult JS.VUndefined ctx))
        (JS.VArray args) (tr ++ [mkInv i JS.VUndefined args])
    else if execPolicy hook =? 1 then
      dispatch_loop rest (S i) m (set_lastResult JS.VUndefined ctx)
        (JS.VArray args) (tr ++ [mkInv i JS.VUndefined args])
    else if execPolicy hook =? 2 then
      dispatch_loop rest (S i) m
        {| _lastResult := JS.VUndefined; callback := dummy;
           _nextHook := S i; _compareFunc := _compareFunc ctx |}
        (JS.VArray args) (tr ++ [mkInv i JS.VUndefined args])
    else dispatch_loop rest (S i) m ctx (JS.VArray args) tr
  else dispatch_loop rest (S i) m ctx (JS.VArray args) tr.
Proof.
  cbn [dispatch_loop]. unfold included.
  destruct (JS.truthy _); [|done]. by policy_cases (execPolicy hook).
Qed.

Lemma dispatch_loop_unchained args m : ∀ hooks i ctx tr,
  ∃ ctx' tr',
    dispatch_loop hooks i m ctx (JS.VArray args) tr = Finished ctx' (tr ++ tr')
    ∧ Forall (λ inv, inv_lastResult inv = JS.VUndefined
                     ∧ inv_args inv = args) tr'.
Proof.
  induction hooks as [|hook rest IH]; intros i ctx tr.
  { exists ctx, []. by rewrite app_nil_r. }
  rewrite dispatch_loop_cons.
  assert (Hrun : ∀ c0, ∃ ctx' tr',
    dispatch_loop rest (S i) m c0 (JS.VArray args)
      (tr ++ [mkInv i JS.VUndefined args]) = Finished ctx' (tr ++ tr')
    ∧ Forall (λ inv, inv_lastResult inv = JS.VUndefined
                     ∧ inv_args inv = args) tr').
  { intros c0.
    destruct (IH (S i) c0 (tr ++ [mkInv i JS.VUndefined args]))
      as (ctx' & tr' & Heq & HF).
    exists ctx', (mkInv i JS.VUndefined args :: tr').
    split; [by rewrite Heq, <- app_assoc|]. by constructor. }
  destruct (included _ _ _); [|apply IH].
  destruct (_ =? 0); [apply Hrun|].
  destruct (_ =? 1); [apply Hrun|].
  destruct (_ =? 2); [apply Hrun|apply IH].
Qed.

Lemma findIndex_is_Some {A} (f : A → bool) l :
  is_Some (findIndex f l) ↔ ∃ x, x ∈ l ∧ f x = true.
Proof.
  induction l as [|x l IH]; simpl.
  - split; [by intros [? ?]|]. by intros (x & ?%elem_of_nil & _).
  - destruct (f x) eqn:Hx.
    + split; [|by eexists]. intros _. exists x. split; [left|done].
    + rewrite fmap_is_Some, IH. split.
      * intros (y & Hy & Hfy). exists y. split; [by right|done].
      * intros (y & [->|Hy]%elem_of_cons & Hfy); [congruence|by exists y].
Qed.

Lemma findIndex_bound {A} (f : A → bool) l j :
  findIndex f l = Some j → (j < length l)%nat.
Proof.
  revert j. induction l as [|x l IH]; intros j; simpl; [done|].
  destruct (f x); [intros [= <-]; lia|].
  destruct (findIndex f l) as [j'|]; [|done]. intros [= <-].
  specialize (IH j' eq_refl). lia.
Qed.

Lemma check_included hooks m :
  check hooks m = true ↔ ∃ h, h ∈ hooks ∧ included inclusive m h = true.
Proof.
  unfold check.
  transitivity (is_Some (findIndex
    (λ hook, negb (JS.and32 m (cat hook) =? 0)) hooks)).
  { destruct (findIndex _ hooks); split; try done; try (by eexists); by intros []. }
  rewrite findIndex_is_Some. apply exist_proper. intros h.
  unfold included, compare, inclusiveMatchFunc, JS.truthy, JS.and32.
  by rewrite Z.land_comm.
Qed.

Lemma checkStrict_included hooks m :
  checkStrict hooks m = true ↔ ∃ h, h ∈ hooks ∧ included strict m h = true.
Proof.
  unfold checkStrict.
  transitivity (is_Some (findIndex
    (λ hook, JS.xor32 m (cat hook) =? 0) hooks)).
  { destruct (findIndex _ hooks); split; try done; try (by eexists); by intros []. }
  rewrite findIndex_is_Some. apply exist_proper. intros h.
  unfold included, compare, strictMatchFunc, JS.truthy, JS.xor32.
  by rewrite Z.lxor_comm.
Qed.

Lemma included_from_nonempty f m : ∀ hooks i,
  included_from i f m hooks ≠ [] ↔ ∃ h, h ∈ hooks ∧ included f m h = true.
Proof.
  induction hooks as [|hook rest IH]; intros i; simpl.
  - split; [done|]. by intros (h & ?%elem_of_nil & _).
  - destruct (included f m hook) eqn:Hinc; simpl.
    + split; [|done]. intros _. exists hook. split; [left|done].
    + rewrite IH. split.
      * intros (h & Hh & Hi). exists h. split; [by right|done].
      * intros (h & [->|Hh]%elem_of_cons & Hi); [congruence|by exists h].
Qed.

(** X6.  [call] (the mode of [callHook] and [callHookStrict]) from any
    context: the run goes from [_nextHook] to the first included
    asynchronous function and is suspended there, with [_nextHook] just
    past it and the continuation installed, or it goes to the end of the
    chain and finishes.  In both cases [_lastResult] is what results when
    every included synchronous function on the way, in chain order,
    replaces it with its return value; event functions and functions that
    are not included leave it as it is. *)
Theorem call_runs_to_first_async hooks m ctx args tr :
  match findIndex (suspends (_compareFunc ctx) m)
          (drop (_nextHook ctx) hooks) with
  | None =>
      ∃ ctx' tr',
        call hooks m ctx (JS.VArray args) tr = Finished ctx' tr'
        ∧ _lastResult ctx'
          = foldl (after_hook (_compareFunc ctx) m args) (_lastResult ctx)
              (drop (_nextHook ctx) hooks)
  | Some j =>
      ∃ ctx' tr',
        call hooks m ctx (JS.VArray args) tr = Suspended ctx' tr'
        ∧ _lastResult ctx'
          = foldl (after_hook (_compareFunc ctx) m args) (_lastResult ctx)
              (take j (drop (_nextHook ctx) hooks))
        ∧ _nextHook ctx' = S (_nextHook ctx + j)
        ∧ callback ctx' = resume m (JS.VArray args)
  end.
Proof.
  unfold call.
  pose proof (call_loop_result args m (drop (_nextHook ctx) hooks)
                (_nextHook ctx) ctx tr) as H.
  destruct (findIndex _ _) as [j|].
  - destruct H as (ctx' & tr' & -> & ? & ? & ? & ?). by exists ctx', tr'.
  - destruct H as (ctx' & tr' & -> & ? & _). by exists ctx', tr'.
Qed.

(** X7.  [callSync] never suspends and never invokes an asynchronous
    function: it finishes, every function it applied is an included
    synchronous or event function of the chain and received the arguments
    of the call, and [_lastResult] is what results when every included
    synchronous function from [_nextHook] on replaces it, in chain order,
    with its return value. *)
Theorem callSync_skips_async hooks m ctx args :
  ∃ ctx' tr,
    callSync hooks m ctx (JS.VArray args) = Finished ctx' tr
    ∧ _lastResult ctx'
      = foldl (after_hook (_compareFunc ctx) m args) (_lastResult ctx)
          (drop (_nextHook ctx) hooks)
    ∧ Forall (λ inv, ∃ h,
               hooks !! inv_index inv = Some h
               ∧ included (_compareFunc ctx) m h = true
               ∧ (execPolicy h = 0 ∨ execPolicy h = 1)
               ∧ inv_args inv = args) tr.
Proof.
  unfold callSync.
  destruct (callSync_loop_result args m (drop (_nextHook ctx) hooks)
              (_nextHook ctx) ctx []) as (ctx' & tr' & -> & Hlr & HF).
  exists ctx', tr'. split; [done|]. split; [done|].
  eapply Forall_impl; [exact HF|]. intros inv (p & h & -> & Hp & Hrest).
  exists h. by rewrite lookup_drop in Hp.
Qed.

(** X8.  [dispatch] (the mode of [runHook] and [runHookStrict]) always
    runs to the end of the chain, and nothing is chained: every function it
    applies sees [_lastResult] undefined and receives the arguments of the
    call. *)
Theorem dispatch_chains_nothing hooks m ctx args :
  ∃ ctx' tr,
    dispatch hooks m ctx (JS.VArray args) = Finished ctx' tr
    ∧ Forall (λ inv, inv_lastResult inv = JS.VUndefined
                     ∧ inv_args inv = args) tr.
Proof.
  unfold dispatch.
  destruct (dispatch_loop_unchained args m (drop (_nextHook ctx) hooks)
              (_nextHook ctx) ctx []) as (ctx' & tr' & -> & HF).
  by exists ctx', tr'.
Qed.

(** X9.  [check] and [checkStrict] tell whether running the chain would
    apply any function: on a chain whose functions carry the execution
    policies that the loader assigns, [check(catMask)] holds iff
    [runHook] with that mask applies at least one function, and
    [checkStrict(catMask)] holds iff [runHookStrict] does. *)
Theorem check_tells_whether_anything_runs hooks m args :
  Forall policy_ok hooks →
  (check hooks m = true ↔ trace_of (runHook hooks m args) ≠ [])
  ∧ (checkStrict hooks m = true ↔ trace_of (runHookStrict hooks m args) ≠ []).
Proof.
  intros Hpol. split.
  - rewrite check_included, <- (included_from_nonempty inclusive m hooks 0).
    destruct (dispatch_loop_trace args m hooks 0
                (createContext JS.VUndefined) [] Hpol)
      as (ctx' & tr' & Heq & Htr).
    unfold runHook, dispatch.
    change (_nextHook (createContext JS.VUndefined)) with 0%nat.
    rewrite drop_0, Heq. cbn [trace_of app]. cbn [createContext _compareFunc] in Htr.
    rewrite <- Htr. by destruct tr'.
  - rewrite checkStrict_included, <- (included_from_nonempty strict m hooks 0).
    unfold runHookStrict, dispatch.
    cbn [createContext _nextHook _lastResult callback]. rewrite drop_0.
    destruct (dispatch_loop_trace args m hooks 0
                {| _lastResult := JS.VUndefined; callback := dummy;
                   _nextHook := 0; _compareFunc := strict |} [] Hpol)
      as (ctx' & tr' & Heq & Htr).
    rewrite Heq. cbn [trace_of app]. cbn [_compareFunc] in Htr.
    rewrite <- Htr. by destruct tr'.
Qed.

Lemma check_tells_whether_anything_runs_witness :
  (check Examples.chain_masks 4 = true
   ↔ trace_of (runHook Examples.chain_masks 4 []) ≠ [])
  ∧ (checkStrict Examples.chain_masks 4 = true
     ↔ trace_of (runHookStrict Examples.chain_masks 4 []) ≠ []).
Proof.
  apply (check_tells_whether_anything_runs Examples.chain_masks 4 []).
  repeat constructor.
Defined.

End ChainFacts.

(** ** Hooks: categories of loaded functions *)

Module CategoryFacts.
Import Hooks MatchFacts NameFacts ChainFacts.

Local Arguments is_letter : simpl never.
Local Arguments is_line_terminator : simpl never.
Local Arguments is_policy_letter : simpl never.

(** What the loader gives to every function it discovers. *)
Lemma loaded_hook sign mod_ h :
  h ∈ __getHooksFromModule sign mod_ →
  src h = sign ∧ policy_ok h ∧ (cat h = -1 ∨ 0 < cat h < 2 ^ 26).
Proof.
  destruct mod_ as [mod_|]; [|by intros ?%elem_of_nil].
  unfold __getHooksFromModule.
  intros ([i e] & _ & Hh)%list_elem_of_omap. cbn [fst snd] in Hh.
  destruct (HOOK_FUNC_REGEX_V2_exec i) as [m|] eqn:Hm;
    [|by unfold hook_of_export in Hh; rewrite Hm in Hh].
  destruct e as [f|v];
    [|by unfold hook_of_export in Hh; rewrite Hm in Hh].
  rewrite (hook_of_export_match _ _ _ _ _ Hm) in Hh. injection Hh as <-.
  cbn [src execPolicy cat].
  destruct (exec_sound _ _ Hm) as (pre & s' & _ & Hhere).
  destruct (match_here_sound _ _ Hhere)
    as (cats & name & _ & Hp & Hcats & Hm2 & _).
  split; [done|]. split.
  { apply (policy_number_cases _ Hp). }
  rewrite Hm2. destruct (String.eqb cats "") eqn:He.
  - left. apply decodeCategory_None.
  - right. assert (cats ≠ EmptyString).
    { intros ->. done. }
    pose proof (decodeCategory_bits cats) as [Hr _].
    pose proof (decodeCategory_nonzero cats Hcats H). lia.
Qed.

Lemma included_default h :
  cat h = -1 ∨ 0 < cat h < 2 ^ 26 → included inclusive (-1) h = true.
Proof.
  intros Hc. apply included_inclusive.
  rewrite (toInt32_small (-1)) by lia. rewrite Z.land_m1_r.
  rewrite toInt32_small by lia. lia.
Qed.

Lemma included_from_all f m : ∀ hooks i,
  Forall (λ h, included f m h = true) hooks →
  included_from i f m hooks = seq i (length hooks).
Proof.
  induction hooks as [|h hooks IH]; intros i HF; [done|].
  apply Forall_cons in HF as [Hh HF]. simpl. rewrite Hh. simpl.
  f_equal. by apply IH.
Qed.

(** X10.  The default mask -1 (what [callHook] and [runHook] use when no
    mask is given) includes every function that the loader discovers,
    whatever its categories: on a chain of such functions, [runHook] with
    mask -1 applies every function, in chain order. *)
Theorem default_mask_runs_every_function hooks args :
  Forall (λ h, ∃ sign mod_, h ∈ __getHooksFromModule sign mod_) hooks →
  Forall (λ h, included inclusive (-1) h = true) hooks
  ∧ ∃ ctx tr, runHook hooks (-1) args = Finished ctx tr
      ∧ inv_index <$> tr = seq 0 (length hooks).
Proof.
  intros HF.
  assert (Hinc : Forall (λ h, included inclusive (-1) h = true) hooks).
  { eapply Forall_impl; [exact HF|]. intros h (sign & mod_ & Hh).
    apply included_default. by apply (loaded_hook sign mod_). }
  split; [done|].
  assert (Hpol : Forall policy_ok hooks).
  { eapply Forall_impl; [exact HF|]. intros h (sign & mod_ & Hh).
    by apply (loaded_hook sign mod_). }
  destruct (dispatch_loop_trace args (-1) hooks 0
              (createContext JS.VUndefined) [] Hpol)
    as (ctx' & tr' & Heq & Htr).
  exists ctx', tr'. unfold runHook, dispatch.
  change (_nextHook (createContext JS.VUndefined)) with 0%nat.
  rewrite drop_0, Heq. split; [done|]. rewrite Htr.
  by apply included_from_all.
Qed.

Lemma default_mask_runs_every_function_witness :
  Forall (λ h, included inclusive (-1) h = true)
    (__getHooksFromModule "echo.hook.js" (Some Examples.echo_module))
  ∧ ∃ ctx tr,
      runHook (__getHooksFromModule "echo.hook.js" (Some Examples.echo_module))
        (-1) [] = Finished ctx tr
      ∧ inv_index <$> tr
        = seq 0 (length (__getHooksFromModule "echo.hook.js"
                           (Some Examples.echo_module))).
Proof.
  apply (default_mask_runs_every_function
           (__getHooksFromModule "echo.hook.js" (Some Examples.echo_module)) []).
  apply Forall_forall. intros h Hh.
  by exists "echo.hook.js", (Some Examples.echo_module).
Defined.

Lemma category_letter_range i c : category_letter i c = true → 0 <= i < 26.
Proof.
  unfold category_letter. intros [Hl Hi]%andb_prop. apply Z.eqb_eq in Hi.
  assert (65 <= charCode (upper_char c) <= 90); [|lia].
  clear Hi. revert Hl.
  destruct c as [[] [] [] [] [] [] [] []]; vm_compute; intros; 
    (discriminate || (split; discriminate)).
Qed.

(** X11.  The mask that [decodeCategory] gives depends on the set of
    letters alone: two groups of category characters decode to the same
    mask iff, for each of the 26 categories, both contain a letter of that
    category (in either case) or neither does.  Order, case and repetition
    do not matter. *)
Theorem category_mask_is_a_letter_set s1 s2 :
  decodeCategory (Some s1) = decodeCategory (Some s2)
  ↔ ∀ i, 0 <= i < 26 →
      existsb (category_letter i) (String.list_ascii_of_string s1)
      = existsb (category_letter i) (String.list_ascii_of_string s2).
Proof.
  destruct (decodeCategory_bits s1) as [Hr1 Hb1].
  destruct (decodeCategory_bits s2) as [Hr2 Hb2].
  split.
  - intros Heq i [Hi _]. by rewrite <- Hb1, <- Hb2, Heq.
  - intros Hset. apply Z.bits_inj'. intros i Hi. rewrite Hb1, Hb2 by done.
    destruct (decide (i < 26)) as [Hlt|Hge]; [by apply Hset|].
    assert (Hnone : ∀ s, existsb (category_letter i)
                           (String.list_ascii_of_string s) = false).
    { intros s. apply not_true_is_false. intros Hex.
      apply existsb_exists in Hex as (c & _ & Hc).
      apply category_letter_range in Hc. lia. }
    by rewrite !Hnone.
Qed.

End CategoryFacts.

(** ** HookExecutor and HookLoader: registration *)

Module RegistrationFacts.
Import Hooks ChainFacts.

Lemma sort_insert_perm x l : sort_insert x l ≡ₚ x :: l.
Proof.
  induction l as [|y l IH]; simpl; [done|].
  destruct (priority_gtb y x); [done|]. rewrite IH. apply Permutation_swap.
Qed.

Lemma sort_acc_perm l : ∀ acc,
  foldl (λ acc x, sort_insert x acc) acc l ≡ₚ acc ++ l.
Proof.
  induction l as [|x l IH]; intros acc; simpl.
  - by rewrite app_nil_r.
  - rewrite IH, sort_insert_perm. simpl. apply Permutation_middle.
Qed.

Lemma sort_perm l : sort l ≡ₚ l.
Proof. unfold sort. by rewrite sort_acc_perm. Qed.

(** A function whose priority is an integer. *)
Local Abbreviation numeric h := (∃ p, priority h = JS.VNumber (JS.Num p)).

Lemma priority_gtb_num a b pa pb :
  priority a = JS.VNumber (JS.Num pa) → priority b = JS.VNumber (JS.Num pb) →
  priority_gtb a b = (pb <? pa).
Proof.
  intros Ha Hb. unfold priority_gtb. rewrite Ha, Hb. simpl.
  destruct (pb <? pa) eqn:E.
  - apply Z.ltb_lt in E. apply Z.ltb_lt. lia.
  - apply Z.ltb_ge in E. apply Z.ltb_ge. lia.
Qed.

Lemma sort_insert_sorted x l :
  numeric x → Forall (λ h, numeric h) l →
  in_priority_order l → in_priority_order (sort_insert x l).
Proof.
  intros [px Hx] Hnum. induction l as [|y l IH]; simpl.
  { done. }
  intros [Hy Hs].
  apply Forall_cons in Hnum as [[py Hpy] Hnum].
  destruct (priority_gtb y x) eqn:Hyx.
  - rewrite (priority_gtb_num _ _ _ _ Hpy Hx) in Hyx. apply Z.ltb_lt in Hyx.
    split; [|done]. constructor.
    + rewrite (priority_gtb_num _ _ _ _ Hx Hpy). apply Z.ltb_ge. lia.
    + rewrite Forall_forall in Hy, Hnum |- *. intros z Hz.
      destruct (Hnum z Hz) as [pz Hpz]. specialize (Hy z Hz). simpl in Hy.
      rewrite (priority_gtb_num _ _ _ _ Hpy Hpz) in Hy. apply Z.ltb_ge in Hy.
      rewrite (priority_gtb_num _ _ _ _ Hx Hpz). apply Z.ltb_ge. lia.
  - split; [|by apply IH].
    rewrite sort_insert_perm. by constructor.
Qed.

Lemma sort_acc_sorted l : ∀ acc,
  Forall (λ h, numeric h) acc → Forall (λ h, numeric h) l →
  in_priority_order acc →
  in_priority_order (foldl (λ acc x, sort_insert x acc) acc l).
Proof.
  induction l as [|x l IH]; intros acc Hacc Hl Hs; simpl; [done|].
  apply Forall_cons in Hl as [Hx Hl]. apply IH; [|done|].
  - rewrite sort_insert_perm. by constructor.
  - by apply sort_insert_sorted.
Qed.

Lemma sort_sorted l :
  Forall (λ h, numeric h) l → in_priority_order (sort l).
Proof. intros Hl. by apply sort_acc_sorted. Qed.

(** The array before it is sorted. *)
Lemma setHook_perm hooks f :
  setHook hooks f ≡ₚ
  match findIndex (λ hook, String.eqb (src hook) (src f)) hooks with
  | Some i => <[i := f]> hooks
  | None => hooks ++ [f]
  end.
Proof.
  unfold setHook. rewrite sort_perm.
  assert (Hext : findIndex (λ hook, String.eqb (src hook) (src f)
                                    && String.eqb (type hook) (type hook))
                   hooks
                 = findIndex (λ hook, String.eqb (src hook) (src f)) hooks).
  { induction hooks as [|h hooks IH]; simpl; [done|].
    rewrite String.eqb_refl, andb_true_r. by rewrite IH. }
  by rewrite Hext.
Qed.

Lemma findIndex_Some {A} (g : A → bool) l i :
  findIndex g l = Some i →
  ∃ x, l !! i = Some x ∧ g x = true ∧ ∀ j y, (j < i)%nat → l !! j = Some y → g y = false.
Proof.
  revert i. induction l as [|x l IH]; intros i; simpl; [done|].
  destruct (g x) eqn:Hx.
  - intros [= <-]. exists x. split; [done|]. split; [done|]. intros; lia.
  - destruct (findIndex g l) as [i'|]; [|done]. intros [= <-].
    destruct (IH i' eq_refl) as (y & Hy & Hgy & Hbefore).
    exists y. split; [done|]. split; [done|].
    intros [|j] z Hj; simpl; [by intros [= <-]|]. apply Hbefore. lia.
Qed.

Lemma findIndex_None {A} (g : A → bool) l :
  findIndex g l = None → ∀ x, x ∈ l → g x = false.
Proof.
  intros Hn x Hx. apply not_true_is_false. intros Hg.
  assert (is_Some (findIndex g l)) as [? ?]; [|congruence].
  apply findIndex_is_Some. by exists x.
Qed.

(** [setHook] keeps one function for each source. *)
Lemma setHook_sources hooks f :
  NoDup (src <$> hooks) →
  NoDup (src <$> setHook hooks f)
  ∧ f ∈ setHook hooks f
  ∧ (∀ h, h ∈ setHook hooks f ↔ h = f ∨ (h ∈ hooks ∧ src h ≠ src f)).
Proof.
  intros Hnd. pose proof (setHook_perm hooks f) as Hp.
  destruct (findIndex _ hooks) as [i|] eqn:Hfi.
  - apply findIndex_Some in Hfi as (x & Hx & Hsrc & _).
    apply String.eqb_eq in Hsrc.
    assert (Hsrcs : src <$> <[i := f]> hooks = src <$> hooks).
    { rewrite list_fmap_insert, <- Hsrc. apply list_insert_id.
      by rewrite list_lookup_fmap, Hx. }
    assert (Hmem : ∀ h, h ∈ <[i := f]> hooks
                     ↔ h = f ∨ (h ∈ hooks ∧ src h ≠ src f)).
    { intros h. split.
      - intros (j & Hj)%list_elem_of_lookup.
        destruct (decide (j = i)) as [->|Hne].
        + rewrite list_lookup_insert_eq in Hj
            by (by eapply lookup_lt_Some). left. congruence.
        + rewrite list_lookup_insert_ne in Hj by done. right.
          split; [by eapply list_elem_of_lookup_2|].
          intros Heq. apply Hne. eapply NoDup_lookup; [exact Hnd| |].
          * by rewrite list_lookup_fmap, Hj.
          * rewrite list_lookup_fmap, Hx. simpl. congruence.
      - intros [->|[Hh Hne]].
        + eapply list_elem_of_lookup_2. apply list_lookup_insert_eq.
          by eapply lookup_lt_Some.
        + apply list_elem_of_lookup in Hh as (j & Hj).
          eapply list_elem_of_lookup_2 with (i := j).
          rewrite list_lookup_insert_ne; [done|].
          intros ->. rewrite Hx in Hj. injection Hj as ->. congruence. }
    split; [by rewrite Hp, Hsrcs|].
    split; [rewrite Hp; apply Hmem; by left|].
    intros h. rewrite Hp. apply Hmem.
  - pose proof (findIndex_None _ _ Hfi) as Hnone.
    assert (Hfresh : ∀ h, h ∈ hooks → src h ≠ src f).
    { intros h Hh Heq. specialize (Hnone h Hh). simpl in Hnone.
      apply String.eqb_neq in Hnone. done. }
    split.
    { rewrite Hp, fmap_app. apply NoDup_app. split; [done|].
      split; [|apply NoDup_singleton].
      intros s (h & Hs & Hh)%list_elem_of_fmap Hf. simpl in Hf.
      apply list_elem_of_singleton in Hf. subst s.
      by apply (Hfresh h). }
    split; [rewrite Hp, elem_of_app; right; left|].
    intros h. rewrite Hp, elem_of_app, list_elem_of_singleton. split.
    + intros [Hh| ->]; [right|by left]. split; [done|by apply Hfresh].
    + intros [->|[Hh _]]; [by right|by left].
Qed.

(** X12.  [setHook] leaves the chain ordered by priority, lowest first,
    when the priorities are integers: no function is followed by one that
    the comparison of [sort] puts before it.  The chain after the call
    holds the functions of the array in which the new function took the
    place of the first function of its source, or the end of the array when
    the source had none. *)
Theorem setHook_orders_by_priority hooks f :
  Forall (λ h, ∃ p, priority h = JS.VNumber (JS.Num p)) (f :: hooks) →
  (∀ i j a b, (i < j)%nat →
     setHook hooks f !! i = Some a → setHook hooks f !! j = Some b →
     ∃ pa pb, priority a = JS.VNumber (JS.Num pa)
       ∧ priority b = JS.VNumber (JS.Num pb) ∧ pa ≤ pb)
  ∧ setHook hooks f ≡ₚ
    match findIndex (λ hook, String.eqb (src hook) (src f)) hooks with
    | Some i => <[i := f]> hooks
    | None => hooks ++ [f]
    end.
Proof.
  intros Hnum. split; [|apply setHook_perm].
  apply Forall_cons in Hnum as [Hf Hnum].
  assert (Hnum' : Forall (λ h, numeric h) (setHook hooks f)).
  { rewrite setHook_perm. destruct (findIndex _ hooks) as [i|].
    - apply Forall_insert; done.
    - apply Forall_app. split; [done|]. by constructor. }
  assert (Hs : in_priority_order (setHook hooks f)).
  { unfold setHook. apply sort_sorted.
    destruct (findIndex _ hooks) as [i|].
    - by apply Forall_insert.
    - apply Forall_app. split; [done|]. by constructor. }
  intros i j a b Hij Ha Hb.
  rewrite Forall_forall in Hnum'.
  destruct (Hnum' a) as [pa Hpa]; [by eapply list_elem_of_lookup_2|].
  destruct (Hnum' b) as [pb Hpb]; [by eapply list_elem_of_lookup_2|].
  exists pa, pb. split; [done|]. split; [done|].
  assert (Hord : priority_gtb a b = false).
  { clear Hnum' Hnum Hf. revert Hs i j Hij Ha Hb.
    generalize (setHook hooks f) as l0.
    induction l0 as [|y l IH]; intros Hs0 i j Hij Ha Hb; [done|].
    destruct Hs0 as [Hy Hs0].
    destruct i as [|i], j as [|j]; simpl in *; try lia.
    - injection Ha as ->. rewrite Forall_forall in Hy. apply Hy.
      by eapply list_elem_of_lookup_2.
    - apply (IH Hs0 i j); [lia|done..]. }
  rewrite (priority_gtb_num _ _ _ _ Hpa Hpb) in Hord.
  by apply Z.ltb_ge in Hord.
Qed.

Lemma setHook_orders_by_priority_witness :
  ∃ pa pb,
    priority {| priority := JS.VNumber (JS.Num (-1)); src := "c"; type := "t";
                cat := 1; execPolicy := 0; fn := Examples.echo JS.VUndefined |}
    = JS.VNumber (JS.Num pa)
    ∧ priority (Examples.hook "a" "t" 0 1) = JS.VNumber (JS.Num pb)
    ∧ pa ≤ pb.
Proof.
  refine (proj1 (setHook_orders_by_priority
    [Examples.hook "a" "t" 0 1; Examples.hook "b" "t" 0 1]
    {| priority := JS.VNumber (JS.Num (-1)); src := "c"; type := "t";
       cat := 1; execPolicy := 0; fn := Examples.echo JS.VUndefined |} _)
    0%nat 1%nat _ _ _ _ _).
  - repeat constructor; by eexists.
  - lia.
  - reflexivity.
  - reflexivity.
Defined.

(** X13.  [setHook] keeps at most one function of each source in a chain:
    when the functions of the chain come from different sources, they
    still do after the call; the new function is in the chain, and the
    other functions of the chain are those of before whose source is not
    that of the new function.  (The test on the hook name in [setHook]
    compares a function with itself, so the source alone decides.) *)
Theorem setHook_replaces_by_source hooks f :
  NoDup (src <$> hooks) →
  NoDup (src <$> setHook hooks f)
  ∧ f ∈ setHook hooks f
  ∧ (∀ h, h ∈ setHook hooks f ↔ h = f ∨ (h ∈ hooks ∧ src h ≠ src f)).
Proof. apply setHook_sources. Qed.

Lemma setHook_replaces_by_source_witness :
  NoDup (src <$> setHook [Examples.hook "a" "t" 0 1]
                   (Examples.hook "a" "t" 2 4))
  ∧ Examples.hook "a" "t" 2 4
    ∈ setHook [Examples.hook "a" "t" 0 1] (Examples.hook "a" "t" 2 4)
  ∧ (∀ h, h ∈ setHook [Examples.hook "a" "t" 0 1] (Examples.hook "a" "t" 2 4)
          ↔ h = Examples.hook "a" "t" 2 4
            ∨ (h ∈ [Examples.hook "a" "t" 0 1]
               ∧ src h ≠ src (Examples.hook "a" "t" 2 4))).
Proof.
  apply (setHook_replaces_by_source [Examples.hook "a" "t" 0 1]
           (Examples.hook "a" "t" 2 4)).
  simpl. apply NoDup_singleton.
Defined.

End RegistrationFacts.

(** ** HookLoader: the table of chains *)

Module TableFacts.
Import Hooks HooksFacts.

(** A module in which [__getHooksFromModule] finds a hook function: it
    exports a callable under a name that the expression matches. *)
Lemma module_has_hooks sign mod_ :
  __getHooksFromModule sign mod_ ≠ []
  ↔ ∃ exports i f, mod_ = Some exports ∧ (i, ExCallable f) ∈ exports
      ∧ is_Some (HOOK_FUNC_REGEX_V2_exec i).
Proof.
  unfold __getHooksFromModule. destruct mod_ as [exports|].
  2:{ split; [done|]. by intros (? & ? & ? & ? & _). }
  set (prio := match module_priority exports with
               | ExValue (JS.VNumber n) => n
               | _ => JS.Num 0
               end).
  split.
  - intros Hne.
    destruct (omap (λ e, hook_of_export sign prio e.1 e.2) exports)
      as [|h l] eqn:Ho; [done|].
    assert (Hin : h ∈ omap (λ e, hook_of_export sign prio e.1 e.2) exports)
      by (rewrite Ho; left).
    apply list_elem_of_omap in Hin as ([i e] & Hin & Hh).
    cbn [fst snd] in Hh. unfold hook_of_export in Hh.
    destruct (HOOK_FUNC_REGEX_V2_exec i) as [m|] eqn:Hm; [|done].
    destruct e as [f|v]; [|done]. exists exports, i, f.
    split; [done|]. split; [done|]. rewrite Hm. by eexists.
  - intros (exports' & i & f & [= <-] & Hin & [m Hm]) Hnil.
    assert (Hh : hook_of_export sign prio i (ExCallable f) ≠ None).
    { unfold hook_of_export. by rewrite Hm. }
    destruct (hook_of_export sign prio i (ExCallable f)) as [h|] eqn:Hhe;
      [|done].
    assert (Hel : h ∈ omap (λ e, hook_of_export sign prio e.1 e.2) exports).
    { apply list_elem_of_omap. by exists (i, ExCallable f). }
    rewrite Hnil in Hel. by apply elem_of_nil in Hel.
Qed.

Lemma merge_without_table modules :
  match __mergeHooksIntoTable None modules with
  | Merged t =>
      t = None ∧ Forall (λ m, __getHooksFromModule m.1 m.2 = []) modules
  | MergeThrew =>
      Exists (λ m, __getHooksFromModule m.1 m.2 ≠ []) modules
  end.
Proof.
  induction modules as [|m modules IH]; [done|].
  cbn [__mergeHooksIntoTable].
  destruct (__getHooksFromModule m.1 m.2) as [|h l] eqn:Hm.
  - destruct (__mergeHooksIntoTable None modules) as [t|].
    + destruct IH as [-> IH]. split; [done|]. by constructor.
    + by apply Exists_cons_tl.
  - apply Exists_cons_hd. by rewrite Hm.
Qed.

(** X14.  [__mergeHooksIntoTable] takes its table from the field
    [this._hooks], which the library never assigns.  With the field
    [undefined] a merge never yields a table: it returns, with nothing
    registered, exactly when no module of the list exports a hook function,
    and it throws exactly when some module exports a callable under a name
    that the expression matches.  The watcher callback passes the [Map] of
    the loader as the list of modules, so with the [Map] empty it reads no
    module, whatever files have changed. *)
Theorem merge_without_table_registers_nothing :
  (∀ modules table, __mergeHooksIntoTable None modules ≠ Merged (Some table))
  ∧ (∀ modules,
       __mergeHooksIntoTable None modules = Merged None
       ↔ Forall (λ m, __getHooksFromModule m.1 m.2 = []) modules)
  ∧ (∀ modules,
       __mergeHooksIntoTable None modules = MergeThrew
       ↔ Exists (λ m, ∃ exports i f,
                    m.2 = Some exports ∧ (i, ExCallable f) ∈ exports
                    ∧ is_Some (HOOK_FUNC_REGEX_V2_exec i)) modules)
  ∧ (∀ _hooks changed, __hookWatcherCallback _hooks [] changed = Merged _hooks)
  ∧ __mergeHooksIntoTable None
      [("echo.hook.js", Some Examples.echo_module)] = MergeThrew.
Proof.
  assert (Hex : ∀ modules,
    Exists (λ m, __getHooksFromModule m.1 m.2 ≠ []) modules
    ↔ Exists (λ m, ∃ exports i f,
                m.2 = Some exports ∧ (i, ExCallable f) ∈ exports
                ∧ is_Some (HOOK_FUNC_REGEX_V2_exec i)) modules).
  { intros modules. rewrite !Exists_exists.
    split; intros (m & Hin & Hm); exists m; (split; [done|]);
      by apply (module_has_hooks m.1 m.2). }
  split; [|split; [|split; [|split]]].
  - intros modules table Heq. pose proof (merge_without_table modules) as H.
    rewrite Heq in H. by destruct H.
  - intros modules. pose proof (merge_without_table modules) as H. split.
    + intros Heq. rewrite Heq in H. apply H.
    + intros Hall. destruct (__mergeHooksIntoTable None modules) as [t|].
      * by destruct H as [-> _].
      * exfalso. apply Exists_exists in H as (m & Hin & Hm).
        rewrite Forall_forall in Hall. by apply Hm, Hall.
  - intros modules. rewrite <- Hex.
    pose proof (merge_without_table modules) as H. split.
    + intros Heq. by rewrite Heq in H.
    + intros Hsome. destruct (__mergeHooksIntoTable None modules) as [t|];
        [|done].
      exfalso. destruct H as [_ Hall].
      apply Exists_exists in Hsome as (m & Hin & Hm).
      rewrite Forall_forall in Hall. by apply Hm, Hall.
  - reflexivity.
  - reflexivity.
Qed.

End TableFacts.

(** ** The server: every request is answered once *)

Module AnswerFacts.
Import Server ServerFacts.

Local Abbreviation ended log :=
  (length (filter (λ a, ends_response a = true) log)).

Lemma ended_app (l1 l2 : list Action) :
  ended (l1 ++ l2) = (ended l1 + ended l2)%nat.
Proof. by rewrite filter_app, length_app. Qed.

Lemma ended_user_headers env hs : ended (set_user_headers env hs) = 0%nat.
Proof.
  unfold set_user_headers. induction hs as [|h hs IH]; [done|].
  change (flat_map ?f (h :: hs)) with (f h ++ flat_map f hs).
  rewrite ended_app, IH. by destruct (header_ok env h.1 h.2).
Qed.

Lemma ended_content_type env p : ended (content_type_header env p) = 0%nat.
Proof.
  unfold content_type_header.
  destruct (JS.is_string _); [|done]. by destruct (header_ok _ _ _).
Qed.

Lemma ended_etag env p c c' l :
  etag_headers env p c = Some (c', l) → ended l = 0%nat.
Proof.
  unfold etag_headers. destruct (JS.is_string _); [|by intros [= <- <-]].
  destruct (header_ok _ _ _); [|done]. intros [= <- <-].
  by destruct (JS.is_number _).
Qed.

Lemma ended_head env st p :
  ended ([SetStatus st] ++ match headers p with
                           | Some hs => set_user_headers env hs
                           | None => []
                           end) = 0%nat.
Proof.
  rewrite ended_app. destruct (headers p); [|done].
  by rewrite ended_user_headers.
Qed.

Lemma send_body_ends fuel env cache url hosts p st c log r :
  send_body fuel env cache url hosts p st c log = Some r →
  ∃ c' log', r = Returned c' log' ∧ ended log' = S (ended log).
Proof.
  unfold send_body. destruct (data p) eqn:Hd.
  all: try (intros [= <-]; eexists _, _; split; [done|];
            rewrite !ended_app; simpl; lia).
  - destruct c.
    + destruct (JS.to_number (maxAge p)) as [seconds|]; [|done].
      destruct (Cache.stor _ _ _ _ _ _); [|done]. intros [= <-].
      eexists _, _. split; [done|]. rewrite !ended_app. simpl. lia.
    + intros [= <-]. eexists _, _. split; [done|].
      rewrite !ended_app. simpl. lia.
  - intros [= <-]. eexists _, _. split; [done|]. rewrite !ended_app.
    destruct (dataLength p) as [| | | n | | | | | |]; try (simpl; lia).
    destruct n as [y|]; [destruct (0 <? y)|]; simpl; lia.
Qed.

(** X16.  Whenever the response handler returns, it has finished the
    request exactly once (one response sent, or the request handed to the
    hook of manual mode), with one exception: for a descriptor that has no
    [Error], no numeric status and no [manual] string the handler does
    nothing at all, and the request stays unanswered.  When [setHeader]
    rejects the entity tag, the exception leaves the handler before
    anything is sent. *)
Theorem handler_answers_once fuel env cache url hosts target error_
    responseProto r :
  __handleHookResponse fuel env cache url hosts target error_ responseProto
  = Some r →
  match r with
  | Returned _ log =>
      match responseProto with
      | Some p =>
          if negb (is_error (error p)) && negb (JS.is_number (status p))
             && negb (JS.is_string (manual p))
          then log = []
          else length (filter (λ a, ends_response a = true) log) = 1%nat
      | None => length (filter (λ a, ends_response a = true) log) = 1%nat
      end
  | Raised _ log =>
      length (filter (λ a, ends_response a = true) log) = 0%nat
      ∧ ∃ p, responseProto = Some p
          ∧ header_ok env "ETag" (entityTag p) = false
  end.
Proof.
  unfold __handleHookResponse.
  destruct responseProto as [p|].
  2:{ destruct (is_error error_); by intros [= <-]. }
  destruct (is_error (error p)); [by intros [= <-]|].
  destruct (status p) as [| | | st | | | | | |] eqn:Hst;
    try (destruct (manual p) as [| | | | m | | | | |];
         [..|destruct (negb _ && _)|idtac|idtac|idtac|idtac|idtac];
         by intros [= <-]).
  cbn [negb andb JS.is_number].
  destruct (JS.leb _ _ && JS.ltb _ _); [|by intros [= <-]].
  destruct (JS.truthy _ || JS.loosely_null _).
  2:{ intros Heq. injection Heq as <-.
      change (SetStatus st :: ?l ++ ?l') with (([SetStatus st] ++ l) ++ l').
      by rewrite ended_app, ended_head. }
  destruct (etag_headers env p true) as [[c' l1]|] eqn:Het.
  - intros (c'' & log' & -> & Hlen)%send_body_ends.
    rewrite Hlen, !ended_app, (ended_etag _ _ _ _ _ Het), ended_content_type.
    destruct (headers p); [by rewrite ended_user_headers|done].
  - intros Heq. injection Heq as <-. split.
    { change (SetStatus st :: ?l) with ([SetStatus st] ++ l).
      apply ended_head. }
    exists p. split; [done|].
    unfold etag_headers in Het. destruct (JS.is_string _); [|done].
    by destruct (header_ok _ _ _).
Qed.

Lemma handler_answers_once_witness :
  ∃ c log,
    __handleHookResponse 2 Examples.env0 (Cache.new_ResponseCache 1000)
      "/x" ["foo.bar"] "foo.bar$x" JS.VUndefined (Some Examples.proto_ok)
    = Some (Returned c log)
    ∧ length (filter (λ a, ends_response a = true) log) = 1%nat.
Proof.
  eexists _, _. split; [reflexivity|].
  exact (handler_answers_once 2 Examples.env0 (Cache.new_ResponseCache 1000)
           "/x" ["foo.bar"] "foo.bar$x" JS.VUndefined (Some Examples.proto_ok)
           _ eq_refl).
Defined.

End AnswerFacts.

(** ** The server: requests served from the cache *)

Module CacheHitFacts.
Import LinkedList LinkedListFacts Cache CacheFacts CacheUse Server ServerFacts.

Lemma buffer_body_buffer p b : data p = JS.VBuffer b → buffer_body p = p.
Proof. unfold buffer_body. by intros ->. Qed.

(** [stor] under a key that is present, when the total stays within the
    limit: the entry is replaced and nothing else changes. *)
Lemma stor_present_fits {D} fuel (c : ResponseCache D) k d sz e x :
  _map c !! k = Some x →
  sizeLimit c ≤ 0 ∨ size c + (sz - Item.size x) ≤ sizeLimit c →
  stor fuel c k d sz e
  = Some {| size := size c + (sz - Item.size x); sizeLimit := sizeLimit c;
            _map := <[k := {| Item.data := d; Item.size := sz;
                              Item.id := Item.id x; Item.expire := e;
                              Item.link := Item.link x |}]> (_map c);
            items := items c; _lru := _lru c |}.
Proof.
  intros Hk Hfit. unfold stor, stor_update. rewrite Hk.
  cbn [sizeLimit]. destruct (0 <? sizeLimit c) eqn:Hpos; [|done].
  apply Z.ltb_lt in Hpos. destruct Hfit as [?|Hfit]; [lia|].
  destruct fuel; cbn [stor_evict size sizeLimit];
    by replace (sizeLimit c <? size c + (sz - Item.size x)) with false
      by (symmetry; apply Z.ltb_ge; lia).
Qed.

(** X17.  A request whose response is in the cache and has not expired is
    answered from the cache, and answering it stores the descriptor again
    under the same key: the entry keeps its data and size, moves to the
    head of the LRU list and gets a new expiry time, the time of this
    request plus [maxAge] seconds, where [seconds] is [maxAge] as a number
    (see [JS.to_number]).  (The hypotheses on the entry are what the
    response handler establishes when it inserts one: a body of bytes of
    the recorded size, and a descriptor that passes the test for insertion;
    the total is within the limit, or there is no limit.) *)
Theorem cache_hit_renews_expiry fuel env now_retv table limit cache
    url target hosts category params headers data_ x b seconds :
  Cache.reachable limit cache →
  _map cache !! cache_key hosts url = Some x →
  JS.ltb (Item.expire x) (JS.Num now_retv) = false →
  data (Item.data x) = JS.VBuffer b →
  Item.size x = Z.of_nat (String.length b) →
  cacheable env (Item.data x) = true →
  JS.to_number (maxAge (Item.data x)) = Some seconds →
  limit ≤ 0 ∨ size cache ≤ limit →
  ∃ c' log x',
    __runExternalRequestHandler fuel env now_retv table cache url target
      hosts category params headers data_
    = FromCache (Some (Returned c' log))
    ∧ last log = Some (CacheStor (cache_key hosts url) (Item.data x)
                         (Item.size x) (Item.expire x'))
    ∧ _map c' = <[cache_key hosts url := x']> (_map cache)
    ∧ Item.data x' = Item.data x ∧ Item.size x' = Item.size x
    ∧ Item.expire x'
      = JS.add (JS.Num (now env)) (JS.mul seconds (JS.Num 1000))
    ∧ size c' = size cache
    ∧ lru_keys c' !! 0%nat = Some (cache_key hosts url).
Proof.
  intros Hreach Hk Hlive Hb Hsz Hcab Hsec Hfit.
  pose proof Hreach as [[l Hwf] Hlim]%reachable_wf.
  destruct (retv_live_wf cache l now_retv _ x Hwf Hk Hlive)
    as (l1 & l2 & c1 & -> & Hret & Hwf1 & Hmap1 & Hsz1 & Hlim1).
  unfold __runExternalRequestHandler. rewrite Hret.
  destruct (handle_cacheable fuel env c1 url hosts
              (host0 hosts +:+ "$" +:+ target) JS.VNull (Item.data x) seconds
              Hcab Hsec)
    as (log & b' & Hlog & Hbody & Hh).
  rewrite Hb in Hbody. injection Hbody as <-.
  rewrite (buffer_body_buffer _ _ Hb) in Hh.
  rewrite Hh, <- Hsz.
  rewrite (stor_present_fits fuel c1 _ _ _ _ x).
  2:{ by rewrite Hmap1. }
  2:{ rewrite Hlim1, Hlim, Hsz1. destruct Hfit; [by left|right; lia]. }
  eexists _, _,
    {| Item.data := Item.data x; Item.size := Item.size x;
       Item.id := Item.id x;
       Item.expire :=
         JS.add (JS.Num (now env)) (JS.mul seconds (JS.Num 1000));
       Item.link := Item.link x |}.
  split; [reflexivity|].
  split; [by rewrite last_snoc|]. cbn [_map size Item.data Item.size Item.expire].
  split; [by rewrite Hmap1|]. split; [done|]. split; [done|].
  split; [done|]. split; [lia|].
  unfold lru_keys. cbn [items _lru]. fold (lru_keys c1).
  rewrite (lru_keys_wf _ _ Hwf1).
  pose proof Hwf1 as (_ & HA1 & _). rewrite <- Hmap1 in Hk.
  destruct (HA1 _ _ Hk) as [_ Hval].
  change (keys_of (items c1) (Item.link x :: l1 ++ l2))
    with (match value <$> items c1 !! Item.link x with
          | Some y => y :: keys_of (items c1) (l1 ++ l2)
          | None => keys_of (items c1) (l1 ++ l2)
          end).
  by rewrite Hval.
Qed.

Lemma cache_hit_renews_expiry_witness :
  ∃ c' log x',
    __runExternalRequestHandler 0 Examples.env0 2000 ∅ Examples.cache_served
      "/x" "x" ["foo.bar"] "A" (JS.VObject 1) (JS.VObject 2) JS.VNull
    = FromCache (Some (Returned c' log))
    ∧ last log = Some (CacheStor (cache_key ["foo.bar"] "/x")
                         (buffer_body Examples.proto_ok) 5 (Item.expire x'))
    ∧ _map c' = <[cache_key ["foo.bar"] "/x" := x']>
                  (_map Examples.cache_served)
    ∧ Item.data x' = buffer_body Examples.proto_ok ∧ Item.size x' = 5
    ∧ Item.expire x' = JS.Num 301000
    ∧ size c' = size Examples.cache_served
    ∧ lru_keys c' !! 0%nat = Some (cache_key ["foo.bar"] "/x").
Proof.
  refine (cache_hit_renews_expiry 0 Examples.env0 2000 ∅ 1000
            Examples.cache_served "/x" "x" ["foo.bar"] "A"
            (JS.VObject 1) (JS.VObject 2) JS.VNull
            (Item.mk (buffer_body Examples.proto_ok) 5 "foo.bar$/x"
               (JS.Num 301000) 1%positive) "hello" (JS.Num 300)
            _ _ _ _ _ _ _ _).
  - apply (reach_stor 1000 (new_ResponseCache 1000) 2 "foo.bar$/x"
             (buffer_body Examples.proto_ok) 5 (JS.Num 301000));
      [apply reach_new | vm_compute; reflexivity].
  - vm_compute. reflexivity.
  - reflexivity.
  - reflexivity.
  - reflexivity.
  - reflexivity.
  - reflexivity.
  - right. vm_compute. discriminate.
Defined.

End CacheHitFacts.

(** ** The server: descriptors without [maxAge], the echo hook *)

Module ExpiryFacts.
Import Cache CacheFacts CacheUse Server ServerFacts.

(** X18.  A descriptor that is inserted into the cache without a
    [maxAge] never expires: when its key is new and its body fits the
    limit (or the cache has no limit), the response handler inserts it, and
    [retv] returns it at every later time, whatever the clock says. *)
Theorem descriptor_without_maxAge_never_expires limit env cache url hosts
    target error_ p b :
  Cache.reachable limit cache →
  cacheable env p = true → maxAge p = JS.VUndefined →
  body_bytes (data p) = Some b →
  (_map cache !! cache_key hosts url = None
   ∧ Z.of_nat (String.length b) ≤ limit) ∨ limit ≤ 0 →
  ∃ n, ∀ fuel, (n ≤ fuel)%nat →
    ∃ c' log,
      __handleHookResponse fuel env cache url hosts target error_ (Some p)
      = Some (Returned c' log)
      ∧ ∀ now', (retv now' c' (cache_key hosts url)).1
                = Some (buffer_body p).
Proof.
  intros Hreach Hcab Hage Hbody Hfit.
  set (key := cache_key hosts url). set (sz := Z.of_nat (String.length b)).
  destruct (stor_retv_round_trip limit cache key (buffer_body p) sz JS.NaN 0
              Hreach) as (n & Hn).
  { destruct Hfit as [[Hnew Hsz]|Hno]; [left|right; right]; done. }
  exists n. intros fuel Hfuel.
  destruct (Hn fuel Hfuel) as (c' & x & Hst & Hk & Hd & Hs & He & _).
  destruct (handle_cacheable fuel env cache url hosts target error_ p JS.NaN
              Hcab) as (log & b' & _ & Hbody' & Hh); [by rewrite Hage|].
  rewrite Hbody in Hbody'. injection Hbody' as <-.
  cbn [JS.mul JS.add] in Hh.
  fold key sz in Hh. rewrite Hst in Hh.
  eexists _, _. split; [exact Hh|]. intros now'.
  assert (Hwf : wf c').
  { eapply stor_wf; [|exact Hst]. by apply (reachable_wf limit). }
  destruct Hwf as [l' Hwf'].
  destruct (retv_live_wf c' l' now' key x Hwf' Hk)
    as (l1 & l2 & c'' & _ & -> & _); [by rewrite He|].
  by rewrite <- Hd.
Qed.

Lemma descriptor_without_maxAge_never_expires_witness :
  ∃ n, ∀ fuel, (n ≤ fuel)%nat →
    ∃ c' log,
      __handleHookResponse fuel Examples.env0 (new_ResponseCache 1000) "/x"
        ["foo.bar"] "foo.bar$x" JS.VUndefined
        (Some Examples.proto_no_maxAge)
      = Some (Returned c' log)
      ∧ ∀ now', (retv now' c' (cache_key ["foo.bar"] "/x")).1
                = Some (buffer_body Examples.proto_no_maxAge).
Proof.
  apply (descriptor_without_maxAge_never_expires 1000 Examples.env0
           (new_ResponseCache 1000) "/x" ["foo.bar"] "foo.bar$x"
           JS.VUndefined Examples.proto_no_maxAge "hello").
  - apply reach_new.
  - reflexivity.
  - reflexivity.
  - reflexivity.
  - left. split; [reflexivity | vm_compute; discriminate].
Defined.

(** X19.  The echo hook of the examples passes on the result of the
    functions before it exactly when the status of that result, as a
    number, is below 300: a status [200], but also the string ["200"] and
    [null].  In every other case (a status that is no number, as
    [undefined], or a number from 300 on), and when there is no result
    before it, it builds its own answer.  Rendered by the response handler,
    that answer is sent with status 200 but never inserted into the cache,
    although it names a [maxAge]: its entity tag is a number, not a
    string. *)
Theorem echo_answer_is_not_cached fuel env cache url hosts target error_
    target' random :
  (∀ p st, JS.to_number (status p) = Some st →
     echo_hook (Some p) target' random
     = Some (if JS.ltb st (JS.Num 300) then p
             else echo_answer target' random))
  ∧ echo_hook None target' random = Some (echo_answer target' random)
  ∧ (∀ p st, status p = JS.VNumber (JS.Num st) → st < 300 →
       echo_hook (Some p) target' random = Some p)
  ∧ (∀ p, status p = JS.VString "200" ∨ status p = JS.VNull →
       echo_hook (Some p) target' random = Some p)
  ∧ (∀ p, status p = JS.VUndefined ∨ status p = JS.VNumber JS.NaN
          ∨ (∃ st, status p = JS.VNumber (JS.Num st) ∧ 300 ≤ st) →
       echo_hook (Some p) target' random
       = Some (echo_answer target' random))
  ∧ cacheable env (echo_answer target' random) = false
  ∧ ∃ log,
      __handleHookResponse fuel env cache url hosts target error_
        (Some (echo_answer target' random))
      = Some (Returned cache log)
      ∧ existsb is_stor log = false
      ∧ log !! 0%nat = Some (SetStatus (JS.Num 200))
      ∧ ∃ body, last log = Some (End (Some body)).
Proof.
  split.
  { intros p st Hst. unfold echo_hook. rewrite Hst. by destruct (JS.ltb _ _). }
  split; [reflexivity|]. split.
  { intros p st Hst Hlt. unfold echo_hook. rewrite Hst. simpl.
    by replace (st <? 300) with true by (symmetry; by apply Z.ltb_lt). }
  split.
  { intros p [Hst|Hst]; unfold echo_hook; by rewrite Hst. }
  split.
  { intros p [Hst|[Hst|(st & Hst & Hge)]]; unfold echo_hook; rewrite Hst;
      [done | done |]. simpl.
    by replace (st <? 300) with false by (symmetry; apply Z.ltb_ge; lia). }
  split; [reflexivity|].
  unfold __handleHookResponse, echo_answer, send_body, content_type_header,
    etag_headers, buffer_body.
  cbn [error status data headers entityTag dataType is_error
       JS.leb JS.ltb Z.leb Z.ltb Z.compare Pos.compare Pos.compare_cont andb
       JS.truthy orb JS.is_string set_data].
  destruct (header_ok env "Content-Type"
              (JS.VString "text/html; charset=utf-8"));
    (eexists; split; [reflexivity|]; split; [reflexivity|];
     split; [reflexivity|]; eexists; reflexivity).
Qed.

End ExpiryFacts.

(** ** The server: the category of a site, and uploads *)

Module SiteFacts.
Import Hooks MatchFacts NameFacts CategoryFacts Server.

Local Arguments is_letter : simpl never.

Lemma letter_index c :
  is_letter c = true → 0 <= charCode (upper_char c) - 65 < 26.
Proof.
  intros Hl. apply (category_letter_range _ c).
  unfold category_letter. by rewrite Hl, Z.eqb_refl.
Qed.

Lemma land_pow2 x k :
  0 <= k → Z.land x (2 ^ k) ≠ 0 ↔ Z.testbit x k = true.
Proof.
  intros Hk. split.
  - intros Hne. destruct (Z.testbit x k) eqn:Hb; [done|]. exfalso.
    apply Hne. apply Z.bits_inj'. intros i Hi.
    rewrite Z.land_spec, Z.bits_0, Z.pow2_bits_eqb by done.
    destruct (Z.eqb_spec k i) as [->|]; [by rewrite Hb|apply andb_false_r].
  - intros Hb Hz.
    assert (Z.testbit (Z.land x (2 ^ k)) k = true).
    { rewrite Z.land_spec, Hb, Z.pow2_bits_eqb, Z.eqb_refl by done. done. }
    rewrite Hz, Z.bits_0 in H. done.
Qed.

Lemma site_catmask_letter c rest :
  is_letter c = true →
  site_catmask (String c rest) = 2 ^ (charCode (upper_char c) - 65).
Proof.
  intros Hl. pose proof (letter_index c Hl) as Hr.
  unfold site_catmask. cbn [toUpperCase].
  pose proof (category_bit 0 (charCode (upper_char c) - 65)) as Hbit.
  unfold JS.or32 in Hbit. rewrite (toInt32_small 0) in Hbit by lia.
  rewrite !Z.lor_0_l in Hbit.
  assert (Hsh : - 2 ^ 31 <= JS.shl32 1 (charCode (upper_char c) - 65) < 2 ^ 31).
  { unfold JS.shl32, JS.toInt32.
    pose proof (Z.mod_pos_bound
      (Z.shiftl ((1 + 2 ^ 31) `mod` 2 ^ 32 - 2 ^ 31)
         ((charCode (upper_char c) - 65) `mod` 32) + 2 ^ 31) (2 ^ 32)).
    lia. }
  rewrite <- Hbit by lia. symmetry. by apply toInt32_small.
Qed.

(** X20.  The mask that the server computes from the category letter of a
    site selects the hook functions of that category: under inclusive
    matching, a function that the loader decoded from a name with category
    letters is included iff one of its letters is the letter of the site,
    in either case; a function without category letters is always
    included. *)
Theorem site_mask_selects_its_category c rest h :
  is_letter c = true →
  (∀ cats, cat h = decodeCategory (Some cats) →
     included inclusive (site_catmask (String c rest)) h = true
     ↔ ∃ c', c' ∈ String.list_ascii_of_string cats
           ∧ is_letter c' = true ∧ upper_char c' = upper_char c)
  ∧ (cat h = decodeCategory None →
     included inclusive (site_catmask (String c rest)) h = true).
Proof.
  intros Hl. pose proof (letter_index c Hl) as Hr.
  rewrite site_catmask_letter by done.
  assert (Hm : JS.toInt32 (2 ^ (charCode (upper_char c) - 65))
               = 2 ^ (charCode (upper_char c) - 65)).
  { apply toInt32_small. split.
    - pose proof (Z.pow_pos_nonneg 2 (charCode (upper_char c) - 65)). lia.
    - apply Z.lt_trans with (2 ^ 26); [|done].
      apply Z.pow_lt_mono_r; lia. }
  split.
  - intros cats Hcat. rewrite included_inclusive, Hm, Hcat.
    destruct (decodeCategory_bits cats) as [Hrange Hbits].
    rewrite toInt32_small by lia. rewrite land_pow2 by lia.
    rewrite Hbits by lia. rewrite existsb_exists. split.
    + intros (c' & Hin & Hc'). exists c'.
      split; [by apply list_elem_of_In|].
      unfold category_letter in Hc'. apply andb_prop in Hc' as [Hl' Heq].
      split; [done|]. apply Z.eqb_eq in Heq.
      assert (Hcode : charCode (upper_char c') = charCode (upper_char c))
        by lia.
      unfold charCode in Hcode. apply Z2N.inj_iff in Hcode; try lia.
      rewrite !N2Z.id in Hcode.
      by rewrite <- (ascii_N_embedding (upper_char c')), Hcode,
        ascii_N_embedding.
    + intros (c' & Hin & Hl' & Heq). exists c'.
      split; [by apply list_elem_of_In|].
      unfold category_letter. by rewrite Hl', Heq, Z.eqb_refl.
  - intros Hcat. rewrite included_inclusive, Hm, Hcat, decodeCategory_None.
    rewrite (toInt32_small (-1)) by lia. rewrite Z.land_m1_l.
    pose proof (Z.pow_pos_nonneg 2 (charCode (upper_char c) - 65)). lia.
Qed.

Lemma site_mask_selects_its_category_witness :
  included inclusive (site_catmask "x")
    {| priority := JS.VNumber (JS.Num 0); src := "sse-handler.hook.js";
       type := "externalEvent"; cat := decodeCategory (Some "X");
       execPolicy := 1; fn := Examples.echo JS.VUndefined |} = true
  ↔ ∃ c', c' ∈ String.list_ascii_of_string "X"
        ∧ is_letter c' = true ∧ upper_char c' = upper_char "x".
Proof.
  exact (proj1 (site_mask_selects_its_category "x" ""
    {| priority := JS.VNumber (JS.Num 0); src := "sse-handler.hook.js";
       type := "externalEvent"; cat := decodeCategory (Some "X");
       execPolicy := 1; fn := Examples.echo JS.VUndefined |} eq_refl)
    "X" eq_refl).
Defined.

End SiteFacts.

Module UploadFacts.
Import Server.

Local Abbreviation total_length f l :=
  (foldr (λ chunk n, chunk_length f chunk + n) 0 l).

Lemma total_length_app f (l1 l2 : list string) :
  total_length f (l1 ++ l2) = total_length f l1 + total_length f l2.
Proof. induction l1 as [|c l1 IH]; simpl; lia. Qed.

Lemma utf16_length_nonneg s : 0 ≤ utf16_length s.
Proof.
  induction s as [|c s IH]; simpl; [done|].
  destruct (_ && _); destruct (240 <=? _); lia.
Qed.

Lemma chunk_length_nonneg f chunk : 0 ≤ chunk_length f chunk.
Proof.
  unfold chunk_length. destruct f; [apply utf16_length_nonneg | lia].
Qed.

Lemma total_length_nonneg f l : 0 ≤ total_length f l.
Proof.
  induction l as [|c l IH]; simpl; [done|].
  pose proof (chunk_length_nonneg f c). lia.
Qed.

(** Sums over the requests. *)
Local Abbreviation sum f m :=
  (map_fold (λ (id : nat) (u : Upload) (acc : Z), f id u + acc) 0 m).

Lemma sum_insert (f : nat → Upload → Z) (m : gmap nat Upload) k x :
  m !! k = None → sum f (<[k := x]> m) = f k x + sum f m.
Proof.
  intros Hk. rewrite map_fold_insert_L; [done| |done]. intros. lia.
Qed.

Lemma sum_delete (f : nat → Upload → Z) (m : gmap nat Upload) k x :
  m !! k = Some x → sum f (delete k m) = sum f m - f k x.
Proof.
  intros Hk. rewrite (map_fold_delete_L _ _ k x m); [lia| |done]. intros. lia.
Qed.

Lemma sum_update (f : nat → Upload → Z) (m : gmap nat Upload) k x :
  sum f (<[k := x]> m)
  = sum f m - default 0 (f k <$> m !! k) + f k x.
Proof.
  destruct (m !! k) as [y|] eqn:Hk; cbn [fmap option_fmap option_map default from_option Datatypes.id].
  - rewrite <- insert_delete_eq.
    rewrite sum_insert by apply lookup_delete_eq.
    rewrite (sum_delete f m k y) by done. lia.
  - rewrite sum_insert by done. lia.
Qed.

Lemma sum_ext (f g : nat → Upload → Z) (m : gmap nat Upload) :
  (∀ k x, m !! k = Some x → f k x = g k x) → sum f m = sum g m.
Proof.
  induction m as [|k x m Hk IH] using map_ind; intros Hfg.
  - by rewrite !map_fold_empty.
  - rewrite !sum_insert by done. rewrite (Hfg k x) by apply lookup_insert_eq.
    rewrite IH; [done|]. intros k' x' Hk'. apply Hfg.
    rewrite lookup_insert_ne; [done|]. intros ->. congruence.
Qed.

(** Changing [f] at one key. *)
Lemma sum_ext_but (f g : nat → Upload → Z) (m : gmap nat Upload) k :
  (∀ k' x, k' ≠ k → m !! k' = Some x → f k' x = g k' x) →
  sum g m
  = sum f m - default 0 (f k <$> m !! k) + default 0 (g k <$> m !! k).
Proof.
  intros Hfg. destruct (m !! k) as [x|] eqn:Hk;
    cbn [fmap option_fmap option_map default from_option Datatypes.id].
  - rewrite <- (insert_delete_id m k x Hk).
    rewrite !sum_insert by apply lookup_delete_eq.
    rewrite (sum_ext f g (delete k m)); [lia|].
    intros k' x' [Hne Hk']%lookup_delete_Some. by apply Hfg.
  - rewrite (sum_ext f g m); [lia|]. intros k' x' Hk'. apply Hfg; [|done].
    intros ->. congruence.
Qed.

Local Abbreviation weight events :=
  (λ (id : nat) (u : Upload), if in_flight events id then dlen u else 0).

Lemma in_flight_snoc events ev id :
  in_flight (events ++ [ev]) id
  = in_flight events id && negb (Nat.eqb ev.1 id && releases ev.2).
Proof.
  unfold in_flight. rewrite existsb_app. simpl. rewrite orb_false_r.
  by rewrite negb_orb.
Qed.

(** An event that releases nothing leaves every request as it is. *)
Lemma in_flight_keep events ev id :
  releases ev.2 = false → in_flight (events ++ [ev]) id = in_flight events id.
Proof.
  intros Hr. rewrite in_flight_snoc, Hr, andb_false_r. apply andb_true_r.
Qed.

Lemma in_flight_other events ev id :
  ev.1 ≠ id → in_flight (events ++ [ev]) id = in_flight events id.
Proof.
  intros Hne. rewrite in_flight_snoc.
  replace (Nat.eqb ev.1 id) with false; [apply andb_true_r|].
  symmetry. by apply Nat.eqb_neq.
Qed.

Lemma in_flight_released events ev :
  releases ev.2 = true → in_flight (events ++ [ev]) ev.1 = false.
Proof.
  intros Hr. rewrite in_flight_snoc, Hr, Nat.eqb_refl. apply andb_false_r.
Qed.

(** A request that has released nothing is in flight. *)
Lemma in_flight_fresh events id :
  id ∉ (filter (λ ev, releases ev.2 = true) events).*1 →
  in_flight events id = true.
Proof.
  intros Hni. unfold in_flight. apply negb_true_iff.
  destruct (existsb _ events) eqn:Hex; [|done]. exfalso.
  apply existsb_exists in Hex as ([id' e] & Hin & Hev).
  apply andb_true_iff in Hev as [Hid%Nat.eqb_eq Hr]. cbn [fst snd] in *.
  subst id'. apply Hni. apply list_elem_of_fmap. exists (id, e).
  split; [done|]. apply list_elem_of_filter. split; [done|].
  by apply list_elem_of_In.
Qed.

(** The invariant of the accounting. *)
Local Abbreviation accounted maxStorage st :=
  (_pendingUploads st ≤ maxStorage
   ∧ ∀ id u, requests st !! id = Some u →
       dlen u = total_length (form u) (chunks u)).

Lemma upload_step_accounted maxUnit maxStorage st ev :
  accounted maxStorage st →
  accounted maxStorage (upload_step maxUnit maxStorage st ev).
Proof.
  intros [Hp Hu]. destruct ev as [id e]. unfold upload_step.
  assert (Hdrop : ∀ u, requests st !! id = Some u →
            _pendingUploads st - dlen u ≤ maxStorage).
  { intros u Hid. rewrite (Hu _ _ Hid).
    pose proof (total_length_nonneg (form u) (chunks u)). lia. }
  destruct e as [size f|chunk| | |].
  - destruct (_ && _); cbn [_pendingUploads requests]; (split; [done|]).
    + done.
    + intros id' u [[<- <-]|[_ Hid]]%lookup_insert_Some; [done|eauto].
  - destruct (requests st !! id) as [u|] eqn:Hid; [|done].
    destruct (maxStorage <? _) eqn:Hmax; cbn [_pendingUploads requests].
    + split; [done|].
      intros id' u' [[<- <-]|[_ Hid']]%lookup_insert_Some; [|eauto].
      cbn [dlen chunks form]. eauto.
    + apply Z.ltb_ge in Hmax. split; [done|].
      intros id' u' [[<- <-]|[_ Hid']]%lookup_insert_Some; [|eauto].
      cbn [dlen chunks form]. rewrite total_length_app, (Hu _ _ Hid).
      simpl. lia.
  - destruct (requests st !! id) as [u|] eqn:Hid; [|done].
    cbn [_pendingUploads requests]. split; [eauto|done].
  - destruct (requests st !! id) as [u|] eqn:Hid; [|done].
    cbn [_pendingUploads requests]. split; [eauto|done].
  - destruct (requests st !! id) as [u|] eqn:Hid; [|done].
    cbn [_pendingUploads requests]. split; [eauto|done].
Qed.

Lemma run_accounted maxUnit maxStorage events :
  0 ≤ maxStorage →
  accounted maxStorage (foldl (upload_step maxUnit maxStorage) no_uploads events).
Proof.
  intros Hmax.
  assert (H : ∀ st, accounted maxStorage st →
            accounted maxStorage
              (foldl (upload_step maxUnit maxStorage) st events)).
  { induction events as [|ev events IH]; intros st Hst; [done|].
    cbn [foldl]. apply IH. by apply upload_step_accounted. }
  apply H. split; [done|]. intros id u. cbn [no_uploads requests].
  by rewrite lookup_empty.
Qed.

Lemma dlen_nonneg maxUnit maxStorage events id u :
  0 ≤ maxStorage →
  requests (foldl (upload_step maxUnit maxStorage) no_uploads events) !! id
  = Some u →
  0 ≤ dlen u.
Proof.
  intros Hmax Hid.
  destruct (run_accounted maxUnit maxStorage events Hmax) as [_ Hu].
  rewrite (Hu _ _ Hid). apply total_length_nonneg.
Qed.

(** When every request releases at most once, the counter is at least what
    is held for the requests in flight. *)
Lemma held_le_pending maxUnit maxStorage events :
  0 ≤ maxStorage →
  NoDup (filter (λ ev, releases ev.2 = true) events).*1 →
  held events (foldl (upload_step maxUnit maxStorage) no_uploads events)
  ≤ _pendingUploads (foldl (upload_step maxUnit maxStorage) no_uploads events).
Proof.
  intros Hmax. induction events as [|ev events IH] using rev_ind.
  { intros _. unfold held. cbn [foldl no_uploads requests _pendingUploads].
    by rewrite map_fold_empty. }
  rewrite filter_app, fmap_app. intros [Hnd [Hdisj _]]%NoDup_app.
  specialize (IH Hnd). rewrite foldl_app. cbn [foldl].
  set (st := foldl (upload_step maxUnit maxStorage) no_uploads events) in *.
  assert (Hlen : ∀ id u, requests st !! id = Some u → 0 ≤ dlen u).
  { intros id u. by apply dlen_nonneg. }
  unfold held in *. destruct ev as [id e].
  assert (Hsame : releases e = false →
    sum (weight (events ++ [(id, e)])) (requests st)
    = sum (weight events) (requests st)).
  { intros Hr. apply sum_ext. intros k x _.
    by rewrite (in_flight_keep events (id, e) k Hr). }
  assert (Hrel : releases e = true → ∀ u, requests st !! id = Some u →
    sum (weight (events ++ [(id, e)])) (requests st)
    = sum (weight events) (requests st) - dlen u).
  { intros Hr u Hid.
    rewrite (sum_ext_but (weight events) (weight (events ++ [(id, e)]))
               (requests st) id).
    2:{ intros k' x Hne _. by rewrite (in_flight_other events (id, e) k'). }
    rewrite Hid. cbn [fmap option_fmap option_map default from_option Datatypes.id].
    pose proof (in_flight_released events (id, e) Hr) as Hrl.
    cbn [fst] in Hrl. rewrite Hrl.
    rewrite in_flight_fresh; [lia|]. intros Hin. apply (Hdisj id Hin).
    cbn [filter list_filter]. rewrite decide_True by done. left. }
  assert (Hnone : releases e = true → requests st !! id = None →
    sum (weight (events ++ [(id, e)])) (requests st)
    = sum (weight events) (requests st)).
  { intros Hr Hid. apply sum_ext. intros k x Hk.
    rewrite (in_flight_other events (id, e) k); [done|].
    cbn [fst]. intros ->. congruence. }
  unfold upload_step.
  destruct e as [size f|chunk| | |].
  - destruct (_ && _); cbn [_pendingUploads requests].
    + rewrite Hsame by done. exact IH.
    + rewrite sum_update. cbn [dlen].
      rewrite (sum_ext _ (weight events)).
      2:{ intros k x _. by rewrite (in_flight_keep events (id, Enter size f) k). }
      destruct (requests st !! id) as [u|] eqn:Hid;
        cbn [fmap option_fmap option_map default from_option Datatypes.id].
      * pose proof (Hlen _ _ Hid). destruct (in_flight _ id); lia.
      * destruct (in_flight _ id); lia.
  - destruct (requests st !! id) as [u|] eqn:Hid.
    2:{ rewrite Hsame by done. exact IH. }
    pose proof (chunk_length_nonneg (form u) chunk) as Hc.
    destruct (maxStorage <? _); cbn [_pendingUploads requests].
    + rewrite sum_update, Hid. cbn [fmap option_fmap option_map default from_option Datatypes.id dlen].
      rewrite (sum_ext _ (weight events)).
      2:{ intros k x _. by rewrite (in_flight_keep events (id, OnData chunk) k). }
      lia.
    + rewrite sum_update, Hid. cbn [fmap option_fmap option_map default from_option Datatypes.id dlen].
      rewrite (sum_ext _ (weight events)).
      2:{ intros k x _. by rewrite (in_flight_keep events (id, OnData chunk) k). }
      destruct (in_flight _ id); lia.
  - destruct (requests st !! id) as [u|] eqn:Hid.
    + cbn [_pendingUploads requests]. rewrite (Hrel eq_refl u eq_refl). lia.
    + rewrite Hnone by done. exact IH.
  - destruct (requests st !! id) as [u|] eqn:Hid.
    + cbn [_pendingUploads requests]. rewrite (Hrel eq_refl u eq_refl). lia.
    + rewrite Hnone by done. exact IH.
  - destruct (requests st !! id) as [u|] eqn:Hid.
    + cbn [_pendingUploads requests]. rewrite (Hrel eq_refl u eq_refl). lia.
    + rewrite Hnone by done. exact IH.
Qed.

(** X21.  The counter [_pendingUploads] never exceeds [uploadMaxStorage]
    (taken as non-negative), whatever requests arrive and however their
    events interleave, and what is counted for a request is the length of
    the chunks kept for it (a chunk that would exceed the limit is not
    kept, and its request is destroyed).  When every request emits at most
    one of [end], [error] and [aborted], the counter is at least the length
    held for the requests in flight, which therefore stays within the limit
    too.  Without that condition it does not: each of the three events
    lowers the counter by what was counted for the request, so a request
    that emits [aborted] and then [error] is released twice, and in the
    example 18 bytes are held for two requests in flight under the limit
    10. *)
Theorem uploads_accounting :
  (∀ maxUnit maxStorage events,
     0 ≤ maxStorage →
     let st := foldl (upload_step maxUnit maxStorage) no_uploads events in
     _pendingUploads st ≤ maxStorage
     ∧ (∀ id u, requests st !! id = Some u →
          dlen u
          = foldr (λ chunk n, chunk_length (form u) chunk + n) 0 (chunks u))
     ∧ (NoDup (filter (λ ev, releases ev.2 = true) events).*1 →
        held events st ≤ _pendingUploads st ∧ held events st ≤ maxStorage))
  ∧ (let events := Examples.released_twice in
     let st := foldl (upload_step 100 10) no_uploads events in
     _pendingUploads st = 10
     ∧ held events st = 18
     ∧ in_flight events 2 = true ∧ in_flight events 3 = true
     ∧ chunks <$> requests st !! 2%nat = Some ["abcdefghij"]
     ∧ chunks <$> requests st !! 3%nat = Some ["ABCDEFGH"]).
Proof.
  split.
  - intros maxUnit maxStorage events Hmax st.
    destruct (run_accounted maxUnit maxStorage events Hmax) as [Hp Hu].
    split; [exact Hp|]. split; [exact Hu|]. intros Hnd.
    pose proof (held_le_pending maxUnit maxStorage events Hmax Hnd) as Hh.
    fold st in Hh, Hp. split; [exact Hh | lia].
  - vm_compute. repeat split; reflexivity.
Qed.

Lemma uploads_accounting_witness :
  held Examples.upload_trace
    (foldl (upload_step 4 10) no_uploads Examples.upload_trace)
  ≤ _pendingUploads
      (foldl (upload_step 4 10) no_uploads Examples.upload_trace).
Proof.
  refine (proj1 (proj2 (proj2 (proj1 uploads_accounting 4 10
                                 Examples.upload_trace _)) _)).
  - lia.
  - apply (bool_decide_unpack _). vm_compute. exact I.
Defined.

End UploadFacts.

(** ** The server: finding the site of a request *)

Module SiteLookupFacts.
Import Server.

Lemma add_hosts_lookup (config : HostedSiteConfig) (hs : list string) :
  ∀ (sites : gmap string HostedSiteConfig) (h : string),
  foldl (λ sites host, <[host := config]> sites) sites hs !! h
  = if decide (h ∈ hs) then Some config else sites !! h.
Proof.
  induction hs as [|h0 hs IH]; intros sites h; cbn [foldl].
  { by rewrite decide_False by apply not_elem_of_nil. }
  rewrite IH. destruct (decide (h ∈ hs)) as [Hin|Hni].
  - rewrite decide_True; [done|by right].
  - destruct (decide (h = h0)) as [->|Hne].
    + rewrite lookup_insert_eq. rewrite decide_True; [done|left].
    + rewrite lookup_insert_ne by done.
      rewrite decide_False; [done|]. by intros [?|?]%elem_of_cons.
Qed.

Lemma add_many_sites (cs : list HostedSiteConfig) :
  ∀ sites : gmap string HostedSiteConfig,
  addSiteConfig sites (ManySites (OneSite <$> cs))
  = (foldl (λ s c, (addSiteConfig s (OneSite c)).1) sites cs, true).
Proof.
  induction cs as [|c cs IH]; intros sites; [done|].
  specialize (IH (addSiteConfig sites (OneSite c)).1).
  cbn [foldl]. rewrite <- IH. reflexivity.
Qed.

(** X22.  Site lookup by host name.  After [addSiteConfig] of a site, every
    non-empty host name of the site resolves to the site; an array of sites
    is added site by site, in order, and any other argument throws and
    changes nothing.  A host name that is not configured and is not the
    name of a property that every object inherits resolves to what the
    wildcard [*] resolves to, and a request without a host to the site [!],
    or else to [*].  But a host name such as [constructor] or [toString]
    that is not configured resolves to the inherited property, which is no
    site configuration, and not to the wildcard. *)
Theorem site_lookup sites config :
  (∀ c h, String c h ∈ site_hosts config →
     __matchSiteForHost (addSiteConfig sites (OneSite config)).1
       (Some (String c h)) = Some (Configured config))
  ∧ (∀ c h, sites !! String c h = None →
       String c h ∉ object_prototype_properties →
       __matchSiteForHost sites (Some (String c h)) = sites_get sites "*")
  ∧ (∀ host, host = None ∨ host = Some EmptyString →
       __matchSiteForHost sites host
       = match sites !! "!" with
         | Some site => Some (Configured site)
         | None => sites_get sites "*"
         end)
  ∧ (∀ c h, sites !! String c h = None →
       String c h ∈ object_prototype_properties →
       __matchSiteForHost sites (Some (String c h))
       = Some (Inherited (String c h)))
  ∧ (∀ cs, addSiteConfig sites (ManySites (OneSite <$> cs))
           = (foldl (λ s c, (addSiteConfig s (OneSite c)).1) sites cs, true))
  ∧ addSiteConfig sites NoSite = (sites, false).
Proof.
  split; [|split; [|split; [|split; [|split; [|done]]]]];
    [| | | | intros cs; apply add_many_sites].
  - intros c h Hin. cbn [addSiteConfig fst __matchSiteForHost].
    unfold sites_get. rewrite add_hosts_lookup. by rewrite decide_True.
  - intros c h Hnone Hni. cbn [__matchSiteForHost]. unfold sites_get at 1.
    rewrite Hnone. by rewrite decide_False.
  - intros host [->| ->]; cbn [__matchSiteForHost]; unfold sites_get at 1;
      by destruct (sites !! "!").
  - intros c h Hnone Hin. cbn [__matchSiteForHost]. unfold sites_get.
    rewrite Hnone. by rewrite decide_True.
Qed.

Lemma site_lookup_witness :
  __matchSiteForHost
    (addSiteConfig ∅ (OneSite (mkSite ["foo.bar"; "localhost"] "test" "A"))).1
    (Some "localhost")
  = Some (Configured (mkSite ["foo.bar"; "localhost"] "test" "A")).
Proof.
  refine (proj1 (site_lookup ∅ (mkSite ["foo.bar"; "localhost"] "test" "A"))
            "l"%char "ocalhost" _).
  cbn [site_hosts]. right. left.
Defined.

End SiteLookupFacts.

(** ** Queue: adding to a full queue *)

Module QueueOverflow.
Import Queue QueueRuns.

Section QueueOverflow.
Context {A : Type}.
Implicit Types (q : Queue A) (l : list A).

(** A run within the capacity, followed by more operations. *)
Lemma run_app_holds (ops rest : list (op A)) : ∀ q l,
  holds q l →
  below (Z.to_nat (capacity q)) ops (length l) = true →
  ∃ q', run (ops ++ rest) q = run_fifo ops l ++ run rest q'
    ∧ holds q' (fifo_after ops l) ∧ capacity q' = capacity q.
Proof.
  induction ops as [|[x|] ops IH]; intros q l Hq Hb; simpl in *.
  - by exists q.
  - apply andb_prop in Hb as [Hfit Hb]. apply Nat.ltb_lt in Hfit.
    destruct (IH (add q x) (l ++ [x])) as (q' & Hrun & Hq' & Hcap).
    + apply holds_add; [done|]. destruct Hq as (Hc & _). lia.
    + rewrite add_capacity, length_app. simpl.
      by replace (length l + 1)%nat with (S (length l)) by lia.
    + exists q'. by rewrite Hcap, add_capacity.
  - destruct l as [|y l].
    + rewrite holds_fetch_nil by done.
      destruct (IH q [] Hq Hb) as (q' & -> & Hq' & Hcap). by exists q'.
    + destruct (holds_fetch_cons q y l Hq) as (q1 & -> & Hq1 & Hcap1).
      destruct (IH q1 l Hq1) as (q' & -> & Hq' & Hcap); [by rewrite Hcap1|].
      exists q'. simpl. by rewrite Hcap, Hcap1.
Qed.

(** Adding to a queue that holds one item less than its capacity makes the
    tail meet the head: the queue holds nothing. *)
Lemma holds_add_full q l (x : A) :
  holds q l → Z.of_nat (length l) + 1 = capacity q → holds (add q x) [].
Proof.
  intros (Hc & Hh & Ht & Hl & Hb) Hfull. rewrite add_unfold.
  unfold holds. cbn [capacity _head _tail _buffer length].
  assert (Htr : 0 ≤ _tail q < capacity q).
  { rewrite Ht. apply Z.mod_pos_bound. lia. }
  split; [done|]. split; [done|]. split.
  - rewrite Z.rem_mod_nonneg by lia.
    rewrite Ht, Zplus_mod_idemp_l, Z.add_0_r.
    replace (_head q + Z.of_nat (length l) + 1) with (_head q + capacity q)
      by lia.
    rewrite <- Zplus_mod_idemp_r, Z.mod_same, Z.add_0_r by lia. done.
  - split; [lia|]. by intros i y.
Qed.

End QueueOverflow.

(** X23.  Adding an item to a queue that already holds one item less than
    its capacity loses every pending item: after a run that stays below
    the capacity and leaves capacity - 1 items pending, one more [add]
    makes the queue behave as an empty queue (the next [fetch] returns
    [undefined]), whatever was pending. *)
Theorem queue_add_when_full_loses_all {A} n (ops ops' : list (op A)) x :
  below (Z.to_nat (capacity (new_Queue (A := A) n))) ops 0 = true →
  Z.of_nat (length (fifo_after ops [])) + 1 = capacity (new_Queue (A := A) n) →
  below (Z.to_nat (capacity (new_Queue (A := A) n))) ops' 0 = true →
  run (ops ++ Add x :: ops') (new_Queue n)
  = run_fifo ops [] ++ run_fifo ops' [].
Proof.
  intros Hb Hfull Hb'.
  destruct (run_app_holds ops (Add x :: ops') (new_Queue n) [])
    as (q' & -> & Hq' & Hcap); [apply holds_new | done |].
  f_equal. cbn [run]. apply queue_run_holds.
  - apply (holds_add_full q' (fifo_after ops [])); [done|]. by rewrite Hcap.
  - by rewrite add_capacity, Hcap.
Qed.

Lemma queue_add_when_full_loses_all_witness :
  run ([Add 1; Add 2] ++ Add 3 :: [Fetch; Add 4; Fetch]) (new_Queue 3)
  = [None; Some 4].
Proof.
  apply (queue_add_when_full_loses_all 3 [Add 1; Add 2] [Fetch; Add 4; Fetch] 3);
    reflexivity.
Defined.

End QueueOverflow.

(** ** HookLoader: which files are hook modules *)

Module FileNameFacts.
Import Hooks.

Local Arguments is_line_terminator : simpl never.

Lemma starts_with_spec p s :
  starts_with p s = true ↔ ∃ post, s = p +:+ post.
Proof.
  revert s. induction p as [|a p IH]; intros s; simpl.
  - split; [by exists s | done].
  - destruct s as [|b s].
    + split; [done | by intros [post ?]].
    + rewrite andb_true_iff, IH. split.
      * intros [Hab [post ->]]. apply Ascii.eqb_eq in Hab as ->. by exists post.
      * intros [post [= -> ->]]. split; [apply Ascii.eqb_refl | by exists post].
Qed.

(** X24.  The loader takes a file for a hook module iff its name contains
    [.hook.js] after at least one character that is not a line terminator:
    the name need not end there.  So [a.hook.js] is a module and
    [.hook.js] alone is not, but [a.hook.js.bak] and [a.hook.json] are
    taken for modules as well. *)
Theorem hook_file_names s :
  (HOOK_FILE_NAME_REGEX_test s = true
   ↔ ∃ pre c post,
       s = pre +:+ String c (".hook.js" +:+ post)
       ∧ is_line_terminator c = false)
  ∧ HOOK_FILE_NAME_REGEX_test "a.hook.js" = true
  ∧ HOOK_FILE_NAME_REGEX_test ".hook.js" = false
  ∧ HOOK_FILE_NAME_REGEX_test "a.hook.js.bak" = true
  ∧ HOOK_FILE_NAME_REGEX_test "a.hook.json" = true.
Proof.
  split; [|repeat split; reflexivity].
  induction s as [|c0 s IH]; cbn [HOOK_FILE_NAME_REGEX_test].
  - split; [done|]. intros (pre & c & post & Heq & _). by destruct pre.
  - rewrite orb_true_iff, andb_true_iff, negb_true_iff, IH, starts_with_spec.
    split.
    + intros [[Hc [post ->]]|(pre & c & post & -> & Hc)].
      * by exists EmptyString, c0, post.
      * by exists (String c0 pre), c, post.
    + intros (pre & c & post & Heq & Hc). destruct pre as [|c1 pre].
      * injection Heq as -> ->. left. split; [done|by exists post].
      * injection Heq as -> ->. right. by exists pre, c, post.
Qed.

End FileNameFacts.
